(** * Corpus ingestion, tensorization, lemma labeling and subword alignment

    A shallow embedding of [morphological_tagging/data/corpus.py].

    Conventions of the embedding.
    - A Python [str] is a Rocq [string]; one [ascii] stands for one character.
    - A Python [list] is a Rocq [list]; a [dict], [Counter] or [defaultdict]
      is an insertion-ordered association list with unique keys ([PyDict]).
    - A raised exception is the left injection of [result]; the constructors
      of [exn] are the Python exception classes the code can raise.
    - Attributes that a Document or a corpus only acquires when a pass sets
      them are [option] fields, [None] standing for "attribute absent".
    - Integer tensors are lists of naturals; a two-dimensional tensor keeps
      its column count next to its rows, so that its shape is defined even
      when it has no row.
    - The collaborators of the corpus (lemma-script generator, tokenizer,
      encoder) are variables of the sections that use them; the calls of
      torch and torchtext the corpus makes are modelled by what they
      return on the values the corpus passes.
    - The text of a file is read by [csv_reader], which is what
      [csv.reader] does on the texts that [csv_plain] accepts; what is
      stated of the content of a file is stated for these.
    [add_word_embs] is not part of the embedding. *)

From Stdlib Require Import String Ascii List Arith Bool Lia Permutation.
From Stdlib Require Import Sorted OrderedTypeEx ZArith.
Import ListNotations.
Local Open Scope string_scope.
Local Open Scope list_scope.

(** ** Python values and control *)

Module Py.

Inductive exn : Type :=
| ValueError | AttributeError | TypeError | IndexError | KeyError
| RuntimeError.

Definition result (A : Type) : Type := (exn + A)%type.

Definition ret {A} (a : A) : result A := inr a.
Definition raise {A} (e : exn) : result A := inl e.

Definition bind {A B} (m : result A) (k : A -> result B) : result B :=
  match m with
  | inl e => inl e
  | inr a => k a
  end.

(** [[f(x) for x in xs]] where [f] may raise: left to right, the first
    exception wins. *)
Fixpoint mapM {A B} (f : A -> result B) (xs : list A) : result (list B) :=
  match xs with
  | [] => ret []
  | x :: xs' =>
      bind (f x) (fun y => bind (mapM f xs') (fun ys => ret (y :: ys)))
  end.

(** [enumerate(xs)] *)
Definition enumerate {A} (xs : list A) : list (nat * A) :=
  combine (seq 0 (length xs)) xs.

(** [s[n:]] for [0 <= n] *)
Fixpoint str_drop (n : nat) (s : string) : string :=
  match n, s with
  | O, _ => s
  | S _, EmptyString => EmptyString
  | S n', String _ s' => str_drop n' s'
  end.

(** [str.find(needle)]: the least index at which [needle] occurs in
    [hay], if any.  [re.search(re.escape(needle), hay)] matches exactly
    there, its span being [(i, i + len(needle))]. *)
Fixpoint str_find (needle hay : string) : option nat :=
  if String.prefix needle hay then Some 0
  else match hay with
       | EmptyString => None
       | String _ hay' => option_map S (str_find needle hay')
       end.

(** [needle in hay] *)
Definition str_in (needle hay : string) : bool :=
  match str_find needle hay with Some _ => true | None => false end.

(** [s.split(sep)] and [s.rsplit(sep)] (the same without [maxsplit]) for
    a separator of one character. *)
Fixpoint str_split (sep : ascii) (s : string) : list string :=
  match s with
  | EmptyString => [EmptyString]
  | String c s' =>
      if Ascii.eqb c sep then EmptyString :: str_split sep s'
      else match str_split sep s' with
           | [] => [String c EmptyString]
           | h :: t => String c h :: t
           end
  end.

(** [[c for c in t]]: the characters of a string, each a string of
    length one. *)
Definition chars (t : string) : list string :=
  map (fun c => String c EmptyString) (list_ascii_of_string t).

(** [xs[1:-1]] *)
Definition slice_1_m1 {A} (xs : list A) : list A := removelast (tl xs).

(** A loop that threads an accumulator and stops at the first
    exception. *)
Fixpoint foldM {A B} (f : B -> A -> result B) (xs : list A) (b : B)
  : result B :=
  match xs with
  | [] => ret b
  | x :: xs' => bind (f b x) (fun b' => foldM f xs' b')
  end.

End Py.

Import Py.

Declare Scope py_scope.
Delimit Scope py_scope with py.
Notation "x <- m ;; k" := (bind m (fun x => k))
  (at level 61, m at next level, right associativity) : py_scope.
Local Open Scope py_scope.

(** ** Insertion-ordered dictionaries *)

Module PyDict.
Section Dict.
Context {K V : Type} (eqb : K -> K -> bool).

Definition t : Type := list (K * V).

Fixpoint get (d : t) (k : K) : option V :=
  match d with
  | [] => None
  | (k', v) :: d' => if eqb k' k then Some v else get d' k
  end.

(** [d[k] = v]: an existing key keeps its position, a new key goes last. *)
Fixpoint set (d : t) (k : K) (v : V) : t :=
  match d with
  | [] => [(k, v)]
  | (k', v') :: d' =>
      if eqb k' k then (k', v) :: d' else (k', v') :: set d' k v
  end.

Definition keys (d : t) : list K := map fst d.
Definition values (d : t) : list V := map snd d.
Definition items (d : t) : list (K * V) := d.

(** [{k: v for (k, v) in kvs}] *)
Definition of_items (kvs : list (K * V)) : t :=
  fold_left (fun d kv => set d (fst kv) (snd kv)) kvs [].

End Dict.

(** [counter[k] += 1] on a [Counter]: a missing key counts as zero. *)
Definition incr {K : Type} (eqb : K -> K -> bool) (c : t (V:=nat))
  (k : K) : t :=
  set eqb c k (S (match get eqb c k with Some n => n | None => 0 end)).

(** [s.add(x)] on a set kept as a duplicate-free list. *)
Definition set_add (s : list string) (x : string) : list string :=
  if existsb (String.eqb x) s then s else s ++ [x].

End PyDict.

(** ** The torch operations used by the tensorizer *)

Module Torch.

Record Tensor2 : Type := mkTensor2 { ncols : nat; rows : list (list nat) }.

Definition shape (t : Tensor2) : nat * nat := (length (rows t), ncols t).

Definition entry (t : Tensor2) (i j : nat) : nat :=
  nth j (nth i (rows t) []) 0.

(** The row of length [n] with a one at [i]. *)
Definition unit_row (n i : nat) : list nat :=
  map (fun j => if Nat.eqb j i then 1 else 0) (seq 0 n).

(** [F.one_hot(idx, num_classes)] on a one-dimensional index tensor: an
    empty index tensor needs a positive class count, and every index
    must be smaller than the class count. *)
Definition one_hot (idx : list nat) (num_classes : nat)
  : result Tensor2 :=
  match idx with
  | [] =>
      if Nat.eqb num_classes 0 then raise RuntimeError
      else ret (mkTensor2 num_classes [])
  | _ :: _ =>
      if forallb (fun i => Nat.ltb i num_classes) idx
      then ret (mkTensor2 num_classes (map (unit_row num_classes) idx))
      else raise RuntimeError
  end.

(** [t[:, :-1]] *)
Definition drop_last_col (t : Tensor2) : Tensor2 :=
  mkTensor2 (Nat.pred (ncols t)) (map (@removelast nat) (rows t)).

(** [torch.cat(ts)] along the first dimension: the list must not be
    empty and the column counts must agree. *)
Definition cat (ts : list Tensor2) : result Tensor2 :=
  match ts with
  | [] => raise RuntimeError
  | t0 :: ts' =>
      if forallb (fun t => Nat.eqb (ncols t) (ncols t0)) ts'
      then ret (mkTensor2 (ncols t0) (concat (map rows ts)))
      else raise RuntimeError
  end.

End Torch.

(** ** Sorting *)

Module Sorting.

(** [sorted(set_of_strings)]: the strictly increasing list of the
    distinct strings, strings compared character by character. *)
Fixpoint insert_uniq (x : string) (l : list string) : list string :=
  match l with
  | [] => [x]
  | y :: l' =>
      match String.compare x y with
      | Lt => x :: y :: l'
      | Eq => y :: l'
      | Gt => y :: insert_uniq x l'
      end
  end.

Definition sorted_set (xs : list string) : list string :=
  fold_right insert_uniq [] xs.

(** The order of strings: character by character. *)
Definition str_lt (a b : string) : Prop := String.compare a b = Lt.

Section ByKey.
Context {A : Type} (key : A -> nat).

(** [sorted(xs, key=key, reverse=True)]: Python's sort is stable, and
    stays so under [reverse=True]; a stable sort has one possible
    output, computed here by insertion. *)
Fixpoint insert_desc (x : A) (l : list A) : list A :=
  match l with
  | [] => [x]
  | y :: l' =>
      if Nat.ltb (key x) (key y) then y :: insert_desc x l'
      else x :: y :: l'
  end.

Definition sorted_desc (xs : list A) : list A :=
  fold_right insert_desc [] xs.

End ByKey.

Section ByString.
Context {A : Type} (key : A -> string).

(** [sorted(xs, key=key)] for a string key, stable. *)
Fixpoint insert_str (x : A) (l : list A) : list A :=
  match l with
  | [] => [x]
  | y :: l' =>
      match String.compare (key y) (key x) with
      | Lt => y :: insert_str x l'
      | _ => x :: y :: l'
      end
  end.

Definition sorted_str (xs : list A) : list A :=
  fold_right insert_str [] xs.
End ByString.

End Sorting.

(** ** The torchtext vocabulary *)

Module Torchtext.

Record Vocab : Type :=
  mkVocab { itos : list string; default_index : option nat }.

Fixpoint index_of (s : string) (l : list string) : option nat :=
  match l with
  | [] => None
  | x :: l' => if String.eqb x s then Some 0 else option_map S (index_of s l')
  end.

(** [vocab[tok]]: the index of the token, the default index for an
    unknown token, an error when no default index was set. *)
Definition getitem (v : Vocab) (tok : string) : result nat :=
  match index_of tok (itos v) with
  | Some i => ret i
  | None =>
      match default_index v with
      | Some d => ret d
      | None => raise RuntimeError
      end
  end.

Definition lookup_indices (v : Vocab) (toks : list string)
  : result (list nat) :=
  mapM (getitem v) toks.

Definition set_default_index (v : Vocab) (i : nat) : Vocab :=
  mkVocab (itos v) (Some i).

(** [build_vocab_from_iterator(iterator, specials=specials,
    special_first=True)], for specials that differ from one another:
    the specials in the order given, then the other tokens by
    descending frequency, tokens of equal frequency in increasing
    order.  A special given twice is refused with a [RuntimeError],
    which this definition leaves out: the corpus gives its two
    specials, and where the return of a call is at stake the
    statements assume that [unk_token] and [pad_token] differ. *)
Definition build_vocab_from_iterator
  (iterator : list (list string)) (specials : list string) : Vocab :=
  let counter :=
    fold_left (fun c toks => fold_left (PyDict.incr String.eqb) toks c)
      iterator [] in
  let counter :=
    filter (fun kv => negb (existsb (String.eqb (fst kv)) specials))
      counter in
  let ordered :=
    Sorting.sorted_desc snd (Sorting.sorted_str fst counter) in
  mkVocab (specials ++ map fst ordered) None.

End Torchtext.

(** ** Tree *)

Module Tree.

Record t : Type := mk {
  raw : list (string * string * string);
  tokens : list string;
  lemmas : list string;
  morph_tags : list (list string)
}.

Definition empty : t := mk [] [] [] [].

(** [Tree.add]: the unpacking of [branch] into ten names raises
    [ValueError] unless [branch] has exactly ten items, before anything
    is appended. *)
Definition add (self : t) (branch : list string) : result t :=
  match branch with
  | [_; word_form; lemma; _; _; mtags; _; _; _; _] =>
      ret (mk (raw self ++ [(word_form, lemma, mtags)])
              (tokens self ++ [word_form])
              (lemmas self ++ [lemma])
              (morph_tags self ++ [str_split ";" mtags]))
  | _ => raise ValueError
  end.

Definition len (self : t) : nat := length (raw self).

End Tree.

(** ** Document *)

Module Document.

Record t {Vec : Type} : Type := mk {
  sent_id : option string;
  text : option string;
  tree : Tree.t;
  chars_tensor : option (list (list nat));
  tokens_tensor : option (list nat);
  morph_tags_tensor : option Torch.Tensor2;
  lemma_tags_tensor : option (list nat);
  context_emb : option (list Vec);
  model_name : option string
}.
Arguments t : clear implicits.

Section Methods.
Context {Vec : Type}.
Implicit Type self : t Vec.

(** [Document()] *)
Definition new : t Vec :=
  mk Vec None None Tree.empty None None None None None None.

Definition tokens self : list string := Tree.tokens (tree self).
Definition lemmas self : list string := Tree.lemmas (tree self).
Definition morph_tags self : list (list string) :=
  Tree.morph_tags (tree self).
Definition len self : nat := length (tokens self).

Definition with_sent_id self (v : string) : t Vec :=
  mk Vec (Some v) (text self) (tree self) (chars_tensor self)
    (tokens_tensor self) (morph_tags_tensor self)
    (lemma_tags_tensor self) (context_emb self) (model_name self).

Definition with_text self (v : string) : t Vec :=
  mk Vec (sent_id self) (Some v) (tree self) (chars_tensor self)
    (tokens_tensor self) (morph_tags_tensor self)
    (lemma_tags_tensor self) (context_emb self) (model_name self).

Definition with_tree self (v : Tree.t) : t Vec :=
  mk Vec (sent_id self) (text self) v (chars_tensor self)
    (tokens_tensor self) (morph_tags_tensor self)
    (lemma_tags_tensor self) (context_emb self) (model_name self).

Definition set_tensors self (c : list (list nat)) (k : list nat)
  (m : Torch.Tensor2) : t Vec :=
  mk Vec (sent_id self) (text self) (tree self) (Some c) (Some k)
    (Some m) (lemma_tags_tensor self) (context_emb self)
    (model_name self).

Definition set_lemma_tags self (tags : list nat) : t Vec :=
  mk Vec (sent_id self) (text self) (tree self) (chars_tensor self)
    (tokens_tensor self) (morph_tags_tensor self) (Some tags)
    (context_emb self) (model_name self).

Definition set_context_embeddings self (e : list Vec) (name : string)
  : t Vec :=
  mk Vec (sent_id self) (text self) (tree self) (chars_tensor self)
    (tokens_tensor self) (morph_tags_tensor self)
    (lemma_tags_tensor self) (Some e) (Some name).
End Methods.

End Document.

(** ** Reading a file row by row *)

(** Iterating over a text file opened with [newline="\n"]: the lines end
    at each newline, and a text that ends with a newline has no further,
    empty line after it. *)
Definition file_lines (content : string) : list string :=
  let pieces := str_split "010"%char content in
  match last pieces EmptyString with
  | EmptyString => removelast pieces
  | _ => pieces
  end.

(** One row of [csv.reader(f, delimiter="\t", quotechar="␀")], for a
    line that holds neither the quote character U+2400 nor a carriage
    return nor NUL, and that is not longer than the field size limit of
    the csv module (see [csv_plain]; on other lines the reader merges
    lines or raises [csv.Error]): an empty line gives the empty row,
    any other line its tab-separated fields. *)
Definition csv_row (line : string) : list string :=
  match line with
  | EmptyString => []
  | _ => str_split "009"%char line
  end.

Definition csv_reader (content : string) : list (list string) :=
  map csv_row (file_lines content).

(** ** DocumentCorpus *)

Section Corpus.

Context {Vec : Type}.

(** The collaborators of the corpus, which are not part of this file:
    [LemmaScriptGenerator(wf, lm).get_lemma_script()], the offset
    mapping [tokenizer(text, return_offsets_mapping=True)], the encoder
    (the mean of the last four hidden states of
    the model run on the tokenized text, one vector per sub-word
    token), [torch.mean(rows, dim=0)] and the name of the
    encoder's class. *)
Variable get_lemma_script : string -> string -> string.
Variable tokenizer_offsets : option string -> result (list (nat * nat)).
Variable encoder : option string -> result (list Vec).
Variable mean_rows : list Vec -> Vec.
Variable encoder_name : string.

Local Abbreviation Doc := (Document.t Vec).

Record DocumentCorpus : Type := mkCorpus {
  docs : list Doc;
  unk_token : string;
  pad_token : string;
  token_vocab : option Torchtext.Vocab;
  char_vocab : option Torchtext.Vocab;
  morph_tag_vocab : option (list (string * nat));
  script_counter : option (list (string * nat));
  script_examples : option (list (string * list string));
  script_to_id : option (list (string * nat));
  id_to_script : option (list string)
}.

(** [DocumentCorpus()] *)
Definition new_corpus : DocumentCorpus :=
  mkCorpus [] "<UNK>" "<PAD>" None None None None None None None.

Definition with_docs (self : DocumentCorpus) (ds : list Doc) :=
  mkCorpus ds (unk_token self) (pad_token self) (token_vocab self)
    (char_vocab self) (morph_tag_vocab self) (script_counter self)
    (script_examples self) (script_to_id self) (id_to_script self).

Definition with_token_vocab (self : DocumentCorpus) v :=
  mkCorpus (docs self) (unk_token self) (pad_token self) (Some v)
    (char_vocab self) (morph_tag_vocab self) (script_counter self)
    (script_examples self) (script_to_id self) (id_to_script self).

Definition with_char_vocab (self : DocumentCorpus) v :=
  mkCorpus (docs self) (unk_token self) (pad_token self)
    (token_vocab self) (Some v) (morph_tag_vocab self)
    (script_counter self) (script_examples self) (script_to_id self)
    (id_to_script self).

Definition with_morph_tag_vocab (self : DocumentCorpus) v :=
  mkCorpus (docs self) (unk_token self) (pad_token self)
    (token_vocab self) (char_vocab self) (Some v) (script_counter self)
    (script_examples self) (script_to_id self) (id_to_script self).

Definition with_scripts (self : DocumentCorpus) ds c e s2i i2s :=
  mkCorpus ds (unk_token self) (pad_token self) (token_vocab self)
    (char_vocab self) (morph_tag_vocab self) (Some c) (Some e)
    (Some s2i) (Some i2s).

(** The outcome of a method that mutates the corpus: the corpus as the
    method leaves it, and the exception it raised, if any. *)
Definition outcome : Type := (DocumentCorpus * option exn)%type.

Definition and_then (o : outcome) (k : DocumentCorpus -> outcome)
  : outcome :=
  match o with
  | (self, None) => k self
  | (self, Some e) => (self, Some e)
  end.

(** [for d in ds: d.<setter>(...)]: the Documents are updated in place
    and in order; when one raises, those before it keep their update
    and the others are left as they were. *)
Fixpoint update_each (f : Doc -> result Doc) (ds : list Doc)
  : list Doc * option exn :=
  match ds with
  | [] => ([], None)
  | d :: ds' =>
      match f d with
      | inl e => (d :: ds', Some e)
      | inr d' =>
          let (r, o) := update_each f ds' in (d' :: r, o)
      end
  end.

(** An attribute that is only there once it was assigned. *)
Definition attr {A} (a : option A) : result A :=
  match a with
  | Some x => ret x
  | None => raise AttributeError
  end.

(** *** _get_vocabs *)

(** [sorted({tag for d in docs for tagset in d.morph_tags
             for tag in tagset})] *)
Definition sorted_tags (ds : list Doc) : list string :=
  Sorting.sorted_set (concat (concat (map Document.morph_tags ds))).

(** [{k: v for v, k in enumerate(sorted(...))}] *)
Definition build_morph_tag_vocab (ds : list Doc) : list (string * nat) :=
  PyDict.of_items String.eqb
    (map (fun vk => (snd vk, fst vk)) (enumerate (sorted_tags ds))).

Definition _get_vocabs (self : DocumentCorpus) : outcome :=
  let specials := [unk_token self; pad_token self] in
  let tv :=
    Torchtext.build_vocab_from_iterator
      (map Document.tokens (docs self)) specials in
  let self := with_token_vocab self tv in
  match Torchtext.getitem tv (unk_token self) with
  | inl e => (self, Some e)
  | inr i =>
      let tv := Torchtext.set_default_index tv i in
      let self := with_token_vocab self tv in
      let cv :=
        Torchtext.build_vocab_from_iterator
          (map chars (concat (map Document.tokens (docs self))))
          specials in
      let self := with_char_vocab self cv in
      match Torchtext.getitem tv (unk_token self) with
      | inl e => (self, Some e)
      | inr j =>
          let self :=
            with_char_vocab self (Torchtext.set_default_index cv j) in
          (with_morph_tag_vocab self (build_morph_tag_vocab (docs self)),
           None)
      end
  end.

(** *** _move_to_pt *)

(** [torch.tensor([vocab.get(tag, '_') for tag in tagset],
    dtype=torch.long)]: a tag that is not in the vocabulary yields the
    string ['_'], which [torch.tensor] refuses: with [ValueError] when
    the list starts with it, as the string is then taken for a nested
    sequence, and with [TypeError] when an index comes first and the
    string is to be stored as an integer. *)
Definition tag_indices (vocab : list (string * nat))
  (tagset : list string) : result (list nat) :=
  match map (PyDict.get String.eqb vocab) tagset with
  | None :: _ => raise ValueError
  | looked_up =>
      mapM (fun o => match o with
                     | Some i => ret i
                     | None => raise TypeError
                     end) looked_up
  end.

(** [F.one_hot(torch.tensor(...), len(vocab))[:, :-1]] for one tag set *)
Definition tagset_block (self : DocumentCorpus) (tagset : list string)
  : result Torch.Tensor2 :=
  vocab <- attr (morph_tag_vocab self) ;;
  idx <- tag_indices vocab tagset ;;
  oh <- Torch.one_hot idx (length vocab) ;;
  ret (Torch.drop_last_col oh).

Definition make_morph_tags_tensor (self : DocumentCorpus) (d : Doc)
  : result Torch.Tensor2 :=
  blocks <- mapM (tagset_block self) (Document.morph_tags d) ;;
  Torch.cat blocks.

Definition make_chars_tensor (self : DocumentCorpus) (d : Doc)
  : result (list (list nat)) :=
  mapM (fun t =>
          cv <- attr (char_vocab self) ;;
          Torchtext.lookup_indices cv (chars t))
       (Document.tokens d).

Definition make_tokens_tensor (self : DocumentCorpus) (d : Doc)
  : result (list nat) :=
  tv <- attr (token_vocab self) ;;
  Torchtext.lookup_indices tv (Document.tokens d).

(** The body of the loop of [_move_to_pt]. *)
Definition move_doc_to_pt (self : DocumentCorpus) (d : Doc)
  : result Doc :=
  c <- make_chars_tensor self d ;;
  k <- make_tokens_tensor self d ;;
  m <- make_morph_tags_tensor self d ;;
  ret (Document.set_tensors d c k m).

Definition _move_to_pt (self : DocumentCorpus) : outcome :=
  let (ds, o) := update_each (move_doc_to_pt self) (docs self) in
  (with_docs self ds, o).

(** *** parse_tree_file *)

(** The body of the loop over the rows: the Documents appended to
    [self.docs] so far and the Document being built.  A row that raises
    leaves both as they were. *)
Definition parse_row (st : list Doc * Doc) (row : list string)
  : result (list Doc * Doc) :=
  let (ds, cur_doc) := st in
  match row with
  | [] => ret (ds ++ [cur_doc], Document.new)
  | row0 :: _ =>
      if str_in "# sent_id = " row0 then
        ret (ds, Document.with_sent_id cur_doc (str_drop 12 row0))
      else if str_in "# text = " row0 then
        ret (ds, Document.with_text cur_doc (str_drop 9 row0))
      else if Nat.ltb 1 (length row) then
        if str_in "." row0 then ret (ds, cur_doc)
        else
          tr <- Tree.add (Document.tree cur_doc) row ;;
          ret (ds, Document.with_tree cur_doc tr)
      else ret (ds, cur_doc)
  end.

Fixpoint parse_rows (rows : list (list string)) (st : list Doc * Doc)
  : (list Doc * Doc) * option exn :=
  match rows with
  | [] => (st, None)
  | row :: rows' =>
      match parse_row st row with
      | inl e => (st, Some e)
      | inr st' => parse_rows rows' st'
      end
  end.

(** [parse_tree_file] on the rows the reader yields. *)
Definition parse_tree_rows (self : DocumentCorpus)
  (rows : list (list string)) : outcome :=
  match parse_rows rows (docs self, Document.new) with
  | ((ds, _), Some e) => (with_docs self ds, Some e)
  | ((ds, cur_doc), None) =>
      and_then (_get_vocabs (with_docs self (ds ++ [cur_doc])))
        _move_to_pt
  end.

(** [parse_tree_file(fp)], [content] being what the file at [fp]
    holds. *)
Definition parse_tree_file (self : DocumentCorpus) (content : string)
  : outcome :=
  parse_tree_rows self (csv_reader content).

(** *** set_lemma_tags *)

(** The arrow of the example strings, U+2192. *)
Definition arrow : string :=
  String (ascii_of_nat 226)
    (String (ascii_of_nat 134) (String (ascii_of_nat 146) EmptyString)).

(** The state of the first pass: [script_counter], [script_examples]
    and the scripts of the Document at hand. *)
Definition label_token
  (acc : list (string * nat) * list (string * list string) * list string)
  (wf_lm : string * string)
  : list (string * nat) * list (string * list string) * list string :=
  let '(counter, examples, doc_scripts) := acc in
  let (wf, lm) := wf_lm in
  let lemma_script := get_lemma_script wf lm in
  let counter := PyDict.incr String.eqb counter lemma_script in
  let doc_scripts := doc_scripts ++ [lemma_script] in
  let seen :=
    match PyDict.get String.eqb examples lemma_script with
    | Some s => s
    | None => []
    end in
  let examples :=
    if Nat.ltb (length seen) 3
    then PyDict.set String.eqb examples lemma_script
           (PyDict.set_add seen (wf ++ arrow ++ lm))
    else PyDict.set String.eqb examples lemma_script seen in
  (counter, examples, doc_scripts).

Definition label_doc
  (acc : list (string * nat) * list (string * list string)
         * list (list string))
  (d : Doc)
  : list (string * nat) * list (string * list string)
    * list (list string) :=
  let '(counter, examples, docs_scripts) := acc in
  let '(counter, examples, doc_scripts) :=
    fold_left label_token
      (combine (Document.tokens d) (Document.lemmas d))
      (counter, examples, []) in
  (counter, examples, docs_scripts ++ [doc_scripts]).

(** The second pass: the ranking of the scripts. *)
Definition rank_scripts (counter : list (string * nat))
  : list (string * nat) :=
  PyDict.of_items String.eqb
    (map (fun ikc => (fst (snd ikc), fst ikc))
       (enumerate (Sorting.sorted_desc snd (PyDict.items counter)))).

(** [self.script_to_id[script]] *)
Definition script_id (s2i : list (string * nat)) (script : string)
  : result nat :=
  match PyDict.get String.eqb s2i script with
  | Some i => ret i
  | None => raise KeyError
  end.

(** The third pass: [self.docs[i].set_lemma_tags(...)] for the i-th
    list of scripts. *)
Fixpoint tag_docs (s2i : list (string * nat)) (ds : list Doc)
  (docs_scripts : list (list string)) : list Doc * option exn :=
  match ds, docs_scripts with
  | d :: ds', doc_scripts :: rest =>
      match mapM (script_id s2i) doc_scripts with
      | inl e => (ds, Some e)
      | inr ids =>
          let (r, o) := tag_docs s2i ds' rest in
          (Document.set_lemma_tags d ids :: r, o)
      end
  | _, _ => (ds, None)
  end.

Definition set_lemma_tags (self : DocumentCorpus) : outcome :=
  let '(counter, examples, docs_scripts) :=
    fold_left label_doc (docs self) ([], [], []) in
  let s2i := rank_scripts counter in
  let i2s := PyDict.keys s2i in
  let (ds, o) := tag_docs s2i (docs self) docs_scripts in
  (with_scripts self ds counter examples s2i i2s, o).

(** *** add_context_embs *)

(** The spans of the tokens in the text: each token is searched from
    the end of the match before it. *)
Fixpoint find_spans (text : option string) (toks : list string)
  (end_ : nat) : result (list (nat * nat)) :=
  match toks with
  | [] => ret []
  | t :: toks' =>
      match text with
      | None => raise TypeError
      | Some txt =>
          match str_find t (str_drop end_ txt) with
          | None => raise AttributeError
          | Some i =>
              rest <- find_spans text toks' (end_ + (i + String.length t)) ;;
              ret ((i + end_, i + String.length t + end_) :: rest)
          end
      end
  end.

(** The body of the correspondence loop: [index] and the
    [defaultdict(list)]. *)
Definition corr_step (spans : list (nat * nat))
  (st : nat * list (nat * list nat)) (ioff : nat * (nat * nat))
  : result (nat * list (nat * list nat)) :=
  let (index, correspondence) := st in
  let '(i, (_, tokenized_end)) := ioff in
  let bucket :=
    match PyDict.get Nat.eqb correspondence index with
    | Some b => b
    | None => []
    end in
  let correspondence :=
    PyDict.set Nat.eqb correspondence index (bucket ++ [i]) in
  match nth_error spans index with
  | None => raise IndexError
  | Some sp =>
      ret (if Nat.eqb tokenized_end (snd sp) then S index else index,
           correspondence)
  end.

Definition correspondence_of (spans : list (nat * nat))
  (offset_mapping : list (nat * nat)) : result (list (nat * list nat)) :=
  st <- foldM (corr_step spans) (enumerate (slice_1_m1 offset_mapping))
          (0, []) ;;
  ret (snd st).

(** The alignment of one Document: tokenizer, spans, correspondence. *)
Definition align (d : Doc) : result (list (nat * list nat)) :=
  offset_mapping <- tokenizer_offsets (Document.text d) ;;
  spans <- find_spans (Document.text d) (Document.tokens d) 0 ;;
  correspondence_of spans offset_mapping.

(** [contextual_embeddings[idx]] for a list of row indices *)
Definition take_rows (ctx : list Vec) (idx : list nat)
  : result (list Vec) :=
  mapM (fun i => match nth_error ctx i with
                 | Some v => ret v
                 | None => raise IndexError
                 end) idx.

(** [torch.stack(vs)] *)
Definition stack (vs : list Vec) : result (list Vec) :=
  match vs with
  | [] => raise RuntimeError
  | _ => ret vs
  end.

(** The body of the loop of [add_context_embs]. *)
Definition embed_doc (d : Doc) : result Doc :=
  correspondence <- align d ;;
  ctx <- encoder (Document.text d) ;;
  pooled <- mapM (fun idx => r <- take_rows ctx idx ;; ret (mean_rows r))
              (PyDict.values correspondence) ;;
  emb <- stack pooled ;;
  ret (Document.set_context_embeddings d emb encoder_name).

Definition add_context_embs (self : DocumentCorpus) : outcome :=
  let (ds, o) := update_each embed_doc (docs self) in
  (with_docs self ds, o).

End Corpus.

(** ** Specification vocabulary *)

(** The four parallel sequences of a Tree have the same length. *)
Definition tree_wf (t : Tree.t) : Prop :=
  length (Tree.raw t) = length (Tree.tokens t)
  /\ length (Tree.tokens t) = length (Tree.lemmas t)
  /\ length (Tree.lemmas t) = length (Tree.morph_tags t).

(** The rows the parser hands to [Tree.add]: not empty, the first field
    holds neither comment marker, more than one field, no ["."] in the
    first field. *)
Definition is_tree_row (row : list string) : bool :=
  match row with
  | [] => false
  | row0 :: _ =>
      negb (str_in "# sent_id = " row0)
      && negb (str_in "# text = " row0)
      && Nat.ltb 1 (length row)
      && negb (str_in "." row0)
  end.

(** No row that reaches [Tree.add] has a field count other than ten. *)
Definition rows_ok (rows : list (list string)) : bool :=
  forallb (fun row => negb (is_tree_row row) || Nat.eqb (length row) 10)
    rows.

(** What [Tree.add] records of a row: form, lemma and tag field. *)
Definition row_triple (row : list string) : string * string * string :=
  (nth 1 row EmptyString, nth 2 row EmptyString, nth 5 row EmptyString).

(** The symbolic part of a Document, which no enrichment pass touches. *)
Definition symbolic {Vec} (d : Document.t Vec)
  : option string * option string * Tree.t :=
  (Document.sent_id d, Document.text d, Document.tree d).

(** The rows of all the Trees of a list of Documents, in order. *)
Definition all_raw {Vec} (ds : list (Document.t Vec))
  : list (string * string * string) :=
  concat (map (fun d => Tree.raw (Document.tree d)) ds).

Definition is_blank (row : list string) : bool :=
  match row with [] => true | _ => false end.

Definition doc_wf {Vec} (d : Document.t Vec) : Prop :=
  tree_wf (Document.tree d).

(** The vocabularies [_get_vocabs] derives from a list of Documents. *)
Definition token_vocab_of {Vec} (unk pad : string)
  (ds : list (Document.t Vec)) : Torchtext.Vocab :=
  Torchtext.set_default_index
    (Torchtext.build_vocab_from_iterator (map Document.tokens ds)
       [unk; pad]) 0.

Definition char_vocab_of {Vec} (unk pad : string)
  (ds : list (Document.t Vec)) : Torchtext.Vocab :=
  Torchtext.set_default_index
    (Torchtext.build_vocab_from_iterator
       (map chars (concat (map Document.tokens ds))) [unk; pad]) 0.

(** The vocabularies of a corpus are those of its present Documents. *)
Definition vocabs_current {Vec} (self : @DocumentCorpus Vec) : Prop :=
  token_vocab self =
    Some (token_vocab_of (unk_token self) (pad_token self) (docs self))
  /\ char_vocab self =
       Some (char_vocab_of (unk_token self) (pad_token self) (docs self))
  /\ morph_tag_vocab self = Some (build_morph_tag_vocab (docs self)).

(** The encoding of the tags as the claim has it: one row per token, one
    column per tag of the vocabulary, a one exactly where the tag of the
    column is in the tag set of the token. *)
Definition multi_hot {Vec} (vocab : list (string * nat))
  (d : Document.t Vec) (T : Torch.Tensor2) : Prop :=
  Torch.shape T = (Document.len d, length vocab)
  /\ forall i j tagset tag,
       nth_error (Document.morph_tags d) i = Some tagset ->
       PyDict.get String.eqb vocab tag = Some j ->
       (Torch.entry T i j = 1 <-> In tag tagset).

(** The row the tensorizer writes for a tag: the one-hot row of the
    tag's index without its last column. *)
Definition tag_row (tags : list string) (tag : string) : list nat :=
  removelast
    (Torch.unit_row (length tags)
       (match Torchtext.index_of tag tags with Some i => i | None => 0 end)).

(** The two-sentence example of the specification, and a sentence whose
    only token carries two tags. *)
Definition example_rows : list (list string) :=
  [ ["1"; "dog"; "dog"; "_"; "_"; "_"; "_"; "_"; "_"; "_"];
    [];
    ["1"; "dogs"; "dog"; "_"; "_"; "Number=Plur"; "_"; "_"; "_"; "_"] ].

Definition tab : string := String "009"%char EmptyString.
Definition newline : string := String "010"%char EmptyString.

Definition example_input : string :=
  String.concat tab (nth 0 example_rows []) ++ newline ++ newline
  ++ String.concat tab (nth 2 example_rows []) ++ newline.

Definition two_tag_rows : list (list string) :=
  [ ["1"; "dogs"; "dog"; "_"; "_"; "Case=Nom;Number=Plur";
     "_"; "_"; "_"; "_"] ].

Definition two_tag_input : string :=
  String.concat tab (nth 0 two_tag_rows []) ++ newline.

(** Modelled from the spec: the lemma edit-script generator
    [LemmaScriptGenerator], which is not among the sources; the spec has
    it as a pure function from a form and a lemma to a string that
    describes the edit, such as a suffix replacement.  This one drops the
    common prefix and names the suffix removed and the suffix added.  It
    only serves to instantiate the statements that take a generator. *)
Fixpoint suffix_script (wf lm : string) : string :=
  match wf, lm with
  | String a wf', String b lm' =>
      if Ascii.eqb a b then suffix_script wf' lm'
      else "-" ++ wf ++ "+" ++ lm
  | _, _ => "-" ++ wf ++ "+" ++ lm
  end.

(** Where the search for the next token starts once the tokens [toks]
    have been matched one after the other from position [e]: the end of
    the last matched span; [None] when one of them is not found. *)
Fixpoint end_after (txt : string) (toks : list string) (e : nat)
  : option nat :=
  match toks with
  | [] => Some e
  | t :: toks' =>
      match str_find t (str_drop e txt) with
      | None => None
      | Some i => end_after txt toks' (e + (i + String.length t))
      end
  end.

(** The state of the correspondence loop once the sub-word positions
    below [s] have been handled: the buckets are keyed 0, 1, 2, ... in
    this order, none is empty, read in order they hold 0, ..., s-1, and
    [index] is the last key or the one after it. *)
Definition corr_inv (index : nat) (corr : list (nat * list nat)) (s : nat)
  : Prop :=
  PyDict.keys corr = seq 0 (length corr)
  /\ concat (PyDict.values corr) = seq 0 s
  /\ Forall (fun b => b <> []) (PyDict.values corr)
  /\ (length corr = index \/ length corr = S index).

(** The scripts of the tokens of a Document, in token order, and those
    of a list of Documents. *)
Definition doc_scripts {Vec} (gen : string -> string -> string)
  (d : Document.t Vec) : list string :=
  map (fun p => gen (fst p) (snd p))
    (combine (Document.tokens d) (Document.lemmas d)).

Definition all_scripts {Vec} (gen : string -> string -> string)
  (ds : list (Document.t Vec)) : list string :=
  concat (map (doc_scripts gen) ds).

(** [counter[k]] on a [Counter]: zero for a missing key. *)
Definition count_of (counter : list (string * nat)) (k : string) : nat :=
  match PyDict.get String.eqb counter k with Some n => n | None => 0 end.

(** The ranking of the scripts: [ranked] holds the pairs of
    [script_counter] by descending count, pairs of equal count in the
    order they have in [script_counter]; [id_to_script] lists their
    scripts, and [script_to_id] numbers them 0, 1, 2, ... in this
    order. *)
Definition is_ranking (counter ranked : list (string * nat))
  (s2i : list (string * nat)) (i2s : list string) : Prop :=
  Permutation ranked counter
  /\ StronglySorted (fun a b => snd b <= snd a) ranked
  /\ (forall c,
        filter (fun kc => Nat.eqb (snd kc) c) ranked
        = filter (fun kc => Nat.eqb (snd kc) c) counter)
  /\ i2s = map fst ranked
  /\ NoDup i2s
  /\ s2i = combine i2s (seq 0 (length i2s))
  /\ (forall script i,
        PyDict.get String.eqb s2i script = Some i
        <-> nth_error i2s i = Some script).

(** What the third pass leaves in a Document: the class id of the
    script of each token, in token order. *)
Definition tagged_with {Vec} (gen : string -> string -> string)
  (s2i : list (string * nat)) (d d' : Document.t Vec) : Prop :=
  exists ids,
    d' = Document.set_lemma_tags d ids
    /\ Forall2 (fun script i => PyDict.get String.eqb s2i script = Some i)
         (doc_scripts gen d) ids.

(** A sentence with its text, and a tokenizer and an encoder to align
    it with: the tokenizer cuts the text at the blank and frames it with
    two structural tokens. *)
Definition example_tokenizer (text : option string)
  : result (list (nat * nat)) :=
  match text with
  | Some _ => ret [(0, 0); (0, 3); (4, 7); (0, 0)]
  | None => raise ValueError
  end.

Definition example_encoder (text : option string) : result (list unit) :=
  ret [tt; tt; tt; tt].

Definition sentence (txt : string) (toks : list string) : Document.t unit :=
  Document.mk unit None (Some txt)
    (Tree.mk (map (fun t => (t, t, "_")) toks) toks toks
       (map (fun _ => ["_"]) toks))
    None None None None None None.

(** ** Facts about Tree and the row scan *)

(** ** Further operations of the corpus *)

(** [xs[i]] for a Python integer [i]: a negative index counts from the
    end, an index out of range raises [IndexError]. *)
Definition py_getitem {A} (xs : list A) (i : Z) : result A :=
  let n := Z.of_nat (length xs) in
  let j := if (i <? 0)%Z then (i + n)%Z else i in
  if ((0 <=? j) && (j <? n))%Z then
    match nth_error xs (Z.to_nat j) with
    | Some x => ret x
    | None => raise IndexError
    end
  else raise IndexError.

(** [Tree.__getitem__] *)
Definition Tree_getitem (self : Tree.t) (i : Z)
  : result (string * string * string) :=
  py_getitem (Tree.raw self) i.

(** [DocumentCorpus.__len__], [__getitem__] and [clear_docs] *)
Definition corpus_len {Vec} (self : @DocumentCorpus Vec) : nat :=
  length (docs self).

Definition corpus_getitem {Vec} (self : @DocumentCorpus Vec) (i : Z)
  : result (Document.t Vec) :=
  py_getitem (docs self) i.

Definition clear_docs {Vec} (self : @DocumentCorpus Vec)
  : @DocumentCorpus Vec :=
  with_docs self [].

Definition with_examples {Vec} (self : @DocumentCorpus Vec)
  (e : list (string * list string)) : @DocumentCorpus Vec :=
  mkCorpus (docs self) (unk_token self) (pad_token self) (token_vocab self)
    (char_vocab self) (morph_tag_vocab self) (script_counter self) (Some e)
    (script_to_id self) (id_to_script self).

(** [Counter.most_common(n)] for an integer [n]: the [n] first items by
    descending count, items of equal count in the order of the counter;
    none for a negative [n]. *)
Definition most_common (counter : list (string * nat)) (n : Z)
  : list (string * nat) :=
  firstn (Z.to_nat n) (Sorting.sorted_desc snd counter).

(** The loop of [lemma_tags_overview] over the entries: each gets the
    examples of its script; looking up a script that [script_examples],
    a [defaultdict(set)], does not hold yet adds it with no example. *)
Fixpoint overview_rows (examples : list (string * list string))
  (entries : list (string * nat))
  : list (string * list string) * list (string * nat * list string) :=
  match entries with
  | [] => (examples, [])
  | (script, count) :: rest =>
      let (examples', seen) :=
        match PyDict.get String.eqb examples script with
        | Some s => (examples, s)
        | None => (PyDict.set String.eqb examples script [], [])
        end in
      let (examples'', rows) := overview_rows examples' rest in
      (examples'', (script, count, seen) :: rows)
  end.

(** [lemma_tags_overview(n)]: the rows of the table (rule, count,
    examples), and the corpus as the call leaves it. *)
Definition lemma_tags_overview {Vec} (self : @DocumentCorpus Vec) (n : Z)
  : @DocumentCorpus Vec * result (list (string * nat * list string)) :=
  match script_counter self with
  | None => (self, raise AttributeError)
  | Some counter =>
      match most_common counter n with
      | [] => (self, ret [])
      | entries =>
          match script_examples self with
          | None => (self, raise AttributeError)
          | Some examples =>
              let (examples', rows) := overview_rows examples entries in
              (with_examples self examples', ret rows)
          end
      end
  end.

(** The sequences of a Tree hold, position by position, the parts of its
    rows: form, lemma, and the tags the tag field splits into. *)
Definition tree_consistent (t : Tree.t) : Prop :=
  Tree.tokens t = map (fun r => fst (fst r)) (Tree.raw t)
  /\ Tree.lemmas t = map (fun r => snd (fst r)) (Tree.raw t)
  /\ Tree.morph_tags t = map (fun r => str_split ";" (snd r)) (Tree.raw t).

Definition doc_consistent {Vec} (d : Document.t Vec) : Prop :=
  tree_consistent (Document.tree d).

(** The part of a Document the parser and the tensorizer leave alone:
    what the lemma labeling and the alignment attached to it. *)
Definition enrichment {Vec} (d : Document.t Vec)
  : option (list nat) * option (list Vec) * option string :=
  (Document.lemma_tags_tensor d, Document.context_emb d,
   Document.model_name d).

(** The lemma-script state of a corpus. *)
Definition script_state {Vec} (self : @DocumentCorpus Vec) :=
  (script_counter self, script_examples self, script_to_id self,
   id_to_script self).

(** The (form, lemma) pairs the first pass of [set_lemma_tags] goes
    through, in its order. *)
Definition all_pairs {Vec} (ds : list (Document.t Vec))
  : list (string * string) :=
  concat (map (fun d => combine (Document.tokens d) (Document.lemmas d)) ds).

(** What the first pass does to [script_examples] at one pair. *)
Definition examples_step (gen : string -> string -> string)
  (examples : list (string * list string)) (wf_lm : string * string)
  : list (string * list string) :=
  let script := gen (fst wf_lm) (snd wf_lm) in
  let seen :=
    match PyDict.get String.eqb examples script with
    | Some s => s
    | None => []
    end in
  if Nat.ltb (length seen) 3
  then PyDict.set String.eqb examples script
         (PyDict.set_add seen (fst wf_lm ++ arrow ++ snd wf_lm))
  else PyDict.set String.eqb examples script seen.

(** A tokenizer for the text ["the doges"] that cuts the second word
    into two sub-words. *)
Definition subword_tokenizer (text : option string)
  : result (list (nat * nat)) :=
  match text with
  | Some _ => ret [(0, 0); (0, 3); (4, 7); (7, 9); (0, 0)]
  | None => raise ValueError
  end.

(** The positions [s], [s+1], ... cut into runs as long as the
    groups. *)
Fixpoint index_runs {A} (s : nat) (groups : list (list A))
  : list (list nat) :=
  match groups with
  | [] => []
  | g :: gs => seq s (length g) :: index_runs (s + length g) gs
  end.

(** The sub-word offsets of one token, as the correspondence loop
    expects them: there is at least one, the last one ends where the
    span of the token ends, and none before it does. *)
Definition group_fits (g : list (nat * nat)) (sp : nat * nat) : Prop :=
  g <> []
  /\ snd (last g (0, 0)) = snd sp
  /\ Forall (fun o => snd o <> snd sp) (removelast g).

(** A text that [csv.reader] reads the way [csv_reader] does: it holds
    no carriage return (which ends a record, and is an error when text
    follows it), no NUL, no quote character of the dialect, and no line
    longer than the field size limit of the csv module.  The quote
    character U+2400 is no [ascii]; a text given by the bytes of its
    UTF-8 encoding holds it as the bytes 226, 144, 128. *)
Definition csv_field_limit : Z := 131072.

Definition quote_char_utf8 : string :=
  String "226"%char (String "144"%char (String "128"%char EmptyString)).

Definition csv_plain (content : string) : bool :=
  forallb (fun c => negb (Ascii.eqb c "013"%char)
                    && negb (Ascii.eqb c "000"%char))
    (list_ascii_of_string content)
  && negb (str_in quote_char_utf8 content)
  && forallb (fun line =>
                (Z.of_nat (String.length line) <=? csv_field_limit)%Z)
       (file_lines content).

(** A token row in the words of the specification, where a comment
    line is one that begins with a marker: a row that is not empty,
    whose first field does not begin with a marker, with more than one
    field, and no ["."] in its first field. *)
Definition spec_token_row (row : list string) : bool :=
  match row with
  | [] => false
  | row0 :: _ =>
      negb (String.prefix "# sent_id = " row0)
      && negb (String.prefix "# text = " row0)
      && Nat.ltb 1 (length row)
      && negb (str_in "." row0)
  end.

(** A row whose first field holds a marker after two other characters,
    followed by a regular token row. *)
Definition marker_inside_rows : list (list string) :=
  [ ["xx# sent_id = abc"; "b"];
    ["1"; "dog"; "dog"; "_"; "_"; "_"; "_"; "_"; "_"; "_"] ].

(** A Document carries the tensors of a corpus: its token tensor and
    its character tensors are set and decode, through the token and the
    character vocabulary of the corpus, to its tokens and their
    characters; its tag tensor is set and has, for each tag of each of
    its tokens, a row with a one in the column of that tag in the tag
    vocabulary of the corpus, the last column being left out. *)
Definition carries_tensors {Vec} (self : @DocumentCorpus Vec)
  (d : Document.t Vec) : Prop :=
  exists tv cv mv ks cs T,
    token_vocab self = Some tv
    /\ char_vocab self = Some cv
    /\ morph_tag_vocab self = Some mv
    /\ Document.tokens_tensor d = Some ks
    /\ Document.chars_tensor d = Some cs
    /\ Document.morph_tags_tensor d = Some T
    /\ map (nth_error (Torchtext.itos tv)) ks = map Some (Document.tokens d)
    /\ Forall2
         (fun tok c => map (nth_error (Torchtext.itos cv)) c
                       = map Some (chars tok))
         (Document.tokens d) cs
    /\ Torch.shape T
       = (length (concat (Document.morph_tags d)), length mv - 1)
    /\ Forall2
         (fun tag row =>
            length row = length mv - 1
            /\ forall j,
                 j < length mv - 1 ->
                 nth j row 0
                 = if String.eqb (nth j (PyDict.keys mv) EmptyString) tag
                   then 1 else 0)
         (concat (Document.morph_tags d)) (Torch.rows T).

Lemma tree_wf_empty : tree_wf Tree.empty.
Proof. repeat split. Qed.

Lemma Tree_add_ten (t : Tree.t) (branch : list string) :
  length branch = 10 ->
  Tree.add t branch =
    inr (Tree.mk (Tree.raw t ++ [row_triple branch])
           (Tree.tokens t ++ [nth 1 branch EmptyString])
           (Tree.lemmas t ++ [nth 2 branch EmptyString])
           (Tree.morph_tags t ++ [str_split ";" (nth 5 branch EmptyString)])).
Proof.
  intros H.
  do 10 (destruct branch as [|? branch]; [discriminate H|]).
  destruct branch; [reflexivity | discriminate H].
Qed.

Lemma Tree_add_not_ten (t : Tree.t) (branch : list string) :
  length branch <> 10 -> Tree.add t branch = inl ValueError.
Proof.
  intros H.
  do 10 (destruct branch as [|? branch]; [reflexivity|]).
  destruct branch; [exfalso; apply H; reflexivity | reflexivity].
Qed.

Lemma Tree_add_inv (t t' : Tree.t) (branch : list string) :
  Tree.add t branch = inr t' ->
  length branch = 10
  /\ Tree.raw t' = Tree.raw t ++ [row_triple branch]
  /\ Tree.tokens t' = Tree.tokens t ++ [nth 1 branch EmptyString]
  /\ Tree.lemmas t' = Tree.lemmas t ++ [nth 2 branch EmptyString]
  /\ Tree.morph_tags t' =
       Tree.morph_tags t ++ [str_split ";" (nth 5 branch EmptyString)].
Proof.
  intros H.
  destruct (Nat.eq_dec (length branch) 10) as [E|E].
  - rewrite (Tree_add_ten t branch E) in H. inversion H; subst; clear H.
    simpl. auto.
  - rewrite (Tree_add_not_ten t branch E) in H. discriminate H.
Qed.

Lemma Tree_add_wf (t t' : Tree.t) (branch : list string) :
  tree_wf t -> Tree.add t branch = inr t' -> tree_wf t'.
Proof.
  intros (H1 & H2 & H3) H.
  apply Tree_add_inv in H. destruct H as (_ & R & T & L & M).
  unfold tree_wf. rewrite R, T, L, M. rewrite !length_app. simpl. lia.
Qed.

Section ScanFacts.

Context {Vec : Type}.
Local Abbreviation Doc := (Document.t Vec).

Lemma all_raw_app (a b : list Doc) : all_raw (a ++ b) = all_raw a ++ all_raw b.
Proof. unfold all_raw. now rewrite map_app, concat_app. Qed.

Lemma all_raw_snoc (a : list Doc) (d : Doc) :
  all_raw (a ++ [d]) = all_raw a ++ Tree.raw (Document.tree d).
Proof. rewrite all_raw_app. unfold all_raw. simpl. now rewrite app_nil_r. Qed.

(** One row: either the row is handed to [Tree.add] with a wrong field
    count and raises, or the state advances as the branch taken says. *)
Lemma parse_row_tree_row (ds : list Doc) (cur : Doc) (row : list string) :
  is_tree_row row = true ->
  parse_row (ds, cur) row =
    (tr <- Tree.add (Document.tree cur) row ;;
     ret (ds, Document.with_tree cur tr)).
Proof.
  unfold is_tree_row, parse_row. destruct row as [|row0 rest]; [discriminate|].
  intros H. apply andb_prop in H. destruct H as [H Hdot].
  apply andb_prop in H. destruct H as [H Hlen].
  apply andb_prop in H. destruct H as [Hs Ht].
  apply negb_true_iff in Hs, Ht, Hdot.
  rewrite Hs, Ht, Hlen, Hdot. reflexivity.
Qed.

Lemma parse_row_meta (ds : list Doc) (cur : Doc) (row : list string) :
  row <> [] ->
  is_tree_row row = false ->
  exists cur',
    parse_row (ds, cur) row = inr (ds, cur')
    /\ Document.tree cur' = Document.tree cur.
Proof.
  unfold is_tree_row, parse_row. destruct row as [|row0 rest];
    [intros H; now destruct H|].
  intros _ H.
  destruct (str_in "# sent_id = " row0); [eexists; split; reflexivity|].
  destruct (str_in "# text = " row0); [eexists; split; reflexivity|].
  destruct (Nat.ltb 1 (length (row0 :: rest)));
    [|eexists; split; reflexivity].
  destruct (str_in "." row0); [eexists; split; reflexivity|].
  discriminate H.
Qed.

Lemma parse_row_wf (st st' : list Doc * Doc) (row : list string) :
  parse_row st row = inr st' ->
  Forall doc_wf (fst st ++ [snd st]) ->
  Forall doc_wf (fst st' ++ [snd st']).
Proof.
  destruct st as [ds cur]. intros H F. simpl in F.
  destruct (is_tree_row row) eqn:E.
  - rewrite (parse_row_tree_row ds cur row E) in H.
    destruct (Tree.add (Document.tree cur) row) as [e|tr] eqn:A;
      simpl in H; [discriminate|].
    inversion H; subst; clear H. simpl in *.
    apply Forall_app in F. destruct F as [F1 F2].
    apply Forall_app. split; [exact F1|].
    inversion F2; subst. constructor; [|constructor].
    unfold doc_wf in *. simpl. eapply Tree_add_wf; eauto.
  - destruct row as [|row0 rest].
    + simpl in H. inversion H; subst. simpl.
      apply Forall_app. split; [exact F|].
      constructor; [exact tree_wf_empty | constructor].
    + destruct (parse_row_meta ds cur (row0 :: rest)) as (cur' & P & T);
        [discriminate | exact E |].
      rewrite P in H. inversion H; subst. simpl.
      apply Forall_app in F. destruct F as [F1 F2].
      apply Forall_app. split; [exact F1|].
      inversion F2; subst. constructor; [|constructor].
      unfold doc_wf in *. now rewrite T.
Qed.

(** The scan keeps every Tree well formed, whatever its outcome. *)
Lemma parse_rows_wf (rows : list (list string)) :
  forall (st st' : list Doc * Doc) o,
    parse_rows rows st = (st', o) ->
    Forall doc_wf (fst st ++ [snd st]) ->
    Forall doc_wf (fst st' ++ [snd st']).
Proof.
  induction rows as [|row rows IH]; intros st st' o H F; simpl in H.
  - inversion H; subst. exact F.
  - destruct (parse_row st row) as [e|st1] eqn:P.
    + inversion H; subst. exact F.
    + eapply IH; [exact H|]. eapply parse_row_wf; eauto.
Qed.

(** A scan over rows that are all right does not raise, appends one
    Document per blank row to the Documents it started from, and
    records exactly the rows handed to [Tree.add], in their order. *)
Lemma parse_rows_ok (rows : list (list string)) :
  forall (ds : list Doc) (cur : Doc),
    rows_ok rows = true ->
    exists added cur',
      parse_rows rows (ds, cur) = ((ds ++ added, cur'), None)
      /\ all_raw (ds ++ added ++ [cur']) =
           all_raw (ds ++ [cur]) ++ map row_triple (filter is_tree_row rows)
      /\ length added = length (filter is_blank rows).
Proof.
  induction rows as [|row rows IH]; intros ds cur H.
  - exists [], cur. simpl. rewrite !app_nil_r. auto.
  - simpl in H. apply andb_prop in H. destruct H as [Hrow Hrest].
    cbn [parse_rows filter]. destruct (is_tree_row row) eqn:E.
    + simpl in Hrow. apply Nat.eqb_eq in Hrow.
      rewrite (parse_row_tree_row ds cur row E).
      rewrite (Tree_add_ten _ row Hrow). cbn [bind ret].
      match goal with |- context [parse_rows rows (ds, ?c)] =>
        destruct (IH ds c Hrest) as (added & cur' & P & R & N) end.
      exists added, cur'. split; [exact P|]. split.
      * rewrite R. rewrite !all_raw_snoc. cbn [map].
        cbn [Document.with_tree Document.tree Tree.raw].
        now rewrite <- !app_assoc.
      * destruct row; [discriminate E | exact N].
    + destruct row as [|row0 rest].
      * cbn [parse_row ret is_blank length].
        destruct (IH (ds ++ [cur]) Document.new Hrest)
          as (added & cur' & P & R & N).
        exists (cur :: added), cur'.
        replace (ds ++ cur :: added) with ((ds ++ [cur]) ++ added)
          by now rewrite <- app_assoc.
        split; [exact P|]. split.
        -- replace (ds ++ (cur :: added) ++ [cur'])
             with ((ds ++ [cur]) ++ added ++ [cur'])
             by now rewrite <- !app_assoc.
           rewrite R. rewrite (all_raw_snoc (ds ++ [cur])). simpl.
           now rewrite app_nil_r.
        -- simpl. now rewrite N.
      * destruct (parse_row_meta ds cur (row0 :: rest)) as (cur1 & P & T);
          [discriminate | exact E |].
        rewrite P.
        destruct (IH ds cur1 Hrest) as (added & cur' & P' & R & N).
        exists added, cur'. split; [exact P'|]. split; [|exact N].
        rewrite R. rewrite !all_raw_snoc. now rewrite T.
Qed.

(** A row handed to [Tree.add] with a field count other than ten makes
    the scan raise [ValueError]. *)
Lemma parse_rows_bad (rows : list (list string)) :
  forall st : list Doc * Doc,
    rows_ok rows = false ->
    exists st', parse_rows rows st = (st', Some ValueError).
Proof.
  induction rows as [|row rows IH]; intros [ds cur] H; [discriminate H|].
  simpl in H. cbn [parse_rows].
  destruct (is_tree_row row) eqn:E.
  - destruct (Nat.eqb (length row) 10) eqn:L.
    + simpl in H. apply Nat.eqb_eq in L.
      rewrite (parse_row_tree_row ds cur row E).
      rewrite (Tree_add_ten _ row L). cbn [bind ret]. apply IH. exact H.
    + apply Nat.eqb_neq in L.
      rewrite (parse_row_tree_row ds cur row E).
      rewrite (Tree_add_not_ten _ row L). cbn [bind]. now eexists.
  - simpl in H. destruct row as [|row0 rest].
    + cbn [parse_row ret]. apply IH. exact H.
    + destruct (parse_row_meta ds cur (row0 :: rest)) as (cur1 & P & T);
        [discriminate | exact E |].
      rewrite P. apply IH. exact H.
Qed.

End ScanFacts.

(** ** Facts about the vocabularies and the tensorizer *)

Section CorpusFacts.

Context {Vec : Type}.
Local Abbreviation Doc := (Document.t Vec).
Local Abbreviation Corpus := (@DocumentCorpus Vec).

Lemma getitem_first_special (it : list (list string)) (u p : string) :
  Torchtext.getitem (Torchtext.build_vocab_from_iterator it [u; p]) u
  = inr 0.
Proof.
  unfold Torchtext.getitem, Torchtext.build_vocab_from_iterator.
  cbn [Torchtext.itos app Torchtext.index_of]. now rewrite String.eqb_refl.
Qed.

Lemma getitem_first_special_default (it : list (list string))
  (u p : string) (i : nat) :
  Torchtext.getitem
    (Torchtext.set_default_index
       (Torchtext.build_vocab_from_iterator it [u; p]) i) u
  = inr 0.
Proof.
  unfold Torchtext.getitem, Torchtext.set_default_index,
    Torchtext.build_vocab_from_iterator.
  cbn [Torchtext.itos app Torchtext.index_of]. now rewrite String.eqb_refl.
Qed.

(** [_get_vocabs], the builder being taken for two specials that
    differ, never raises; it sets the three vocabularies and nothing
    else. *)
Lemma get_vocabs_spec (self : Corpus) :
  _get_vocabs self =
    (with_morph_tag_vocab
       (with_char_vocab
          (with_token_vocab self
             (token_vocab_of (unk_token self) (pad_token self) (docs self)))
          (char_vocab_of (unk_token self) (pad_token self) (docs self)))
       (build_morph_tag_vocab (docs self)),
     None).
Proof.
  unfold _get_vocabs.
  cbn [with_token_vocab unk_token pad_token docs].
  rewrite getitem_first_special.
  rewrite getitem_first_special_default.
  reflexivity.
Qed.

Lemma symbolic_tokens (a b : list Doc) :
  map symbolic a = map symbolic b ->
  map Document.tokens a = map Document.tokens b
  /\ map Document.lemmas a = map Document.lemmas b
  /\ map Document.morph_tags a = map Document.morph_tags b.
Proof.
  intros H.
  assert (T : forall (A : Type) (g : Tree.t -> A),
             map (fun d : Doc => g (Document.tree d)) a
             = map (fun d : Doc => g (Document.tree d)) b).
  { intros A g.
    transitivity (map (fun s => g (snd s)) (map symbolic a));
      [now rewrite map_map|].
    rewrite H. now rewrite map_map. }
  repeat split; apply T.
Qed.

Lemma update_each_symbolic (f : Doc -> result Doc) :
  (forall d d', f d = inr d' -> symbolic d' = symbolic d) ->
  forall ds, map symbolic (fst (update_each f ds)) = map symbolic ds.
Proof.
  intros Hf. induction ds as [|d ds IH]; [reflexivity|].
  cbn [update_each]. destruct (f d) as [e|d'] eqn:E; [reflexivity|].
  destruct (update_each f ds) as [r o]. cbn [fst map] in *.
  now rewrite IH, (Hf d d' E).
Qed.

Lemma update_each_done (f : Doc -> result Doc) :
  forall ds,
    snd (update_each f ds) = None ->
    Forall2 (fun d d' => f d = inr d') ds (fst (update_each f ds)).
Proof.
  induction ds as [|d ds IH]; intros H; [constructor|].
  cbn [update_each] in *. destruct (f d) as [e|d'] eqn:E; [discriminate H|].
  destruct (update_each f ds) as [r o]. cbn [fst snd] in *.
  constructor; auto.
Qed.

Lemma move_doc_to_pt_symbolic (self : Corpus) (d d' : Doc) :
  move_doc_to_pt self d = inr d' -> symbolic d' = symbolic d.
Proof.
  unfold move_doc_to_pt.
  destruct (make_chars_tensor self d); [discriminate|].
  destruct (make_tokens_tensor self d); [discriminate|].
  destruct (make_morph_tags_tensor self d); [discriminate|].
  cbn [bind ret]. intros H. inversion H. reflexivity.
Qed.

(** Tensorizing a Document again, against the same vocabularies, gives
    the same Document. *)
Lemma move_doc_to_pt_again (self : Corpus) (ds : list Doc) (d d' : Doc) :
  move_doc_to_pt self d = inr d' ->
  move_doc_to_pt (with_docs self ds) d' = inr d'.
Proof.
  unfold move_doc_to_pt. intros H.
  destruct (make_chars_tensor self d) as [|c] eqn:C; [discriminate|].
  destruct (make_tokens_tensor self d) as [|k] eqn:K; [discriminate|].
  destruct (make_morph_tags_tensor self d) as [|m] eqn:M; [discriminate|].
  cbn [bind ret] in H. inversion H; subst d'; clear H.
  change (make_chars_tensor (with_docs self ds) (Document.set_tensors d c k m))
    with (make_chars_tensor self d).
  change (make_tokens_tensor (with_docs self ds) (Document.set_tensors d c k m))
    with (make_tokens_tensor self d).
  change (make_morph_tags_tensor (with_docs self ds)
            (Document.set_tensors d c k m))
    with (make_morph_tags_tensor self d).
  rewrite C, K, M. reflexivity.
Qed.

Lemma move_to_pt_symbolic (self : Corpus) :
  map symbolic (docs (fst (_move_to_pt self))) = map symbolic (docs self).
Proof.
  unfold _move_to_pt.
  pose proof (update_each_symbolic (move_doc_to_pt self)
                (move_doc_to_pt_symbolic self) (docs self)) as H.
  destruct (update_each (move_doc_to_pt self) (docs self)) as [ds o].
  exact H.
Qed.

Lemma doc_wf_symbolic (a b : list Doc) :
  map symbolic a = map symbolic b ->
  Forall doc_wf a -> Forall doc_wf b.
Proof.
  intros H F.
  assert (G : forall l : list Doc,
             Forall doc_wf l
             <-> Forall (fun s => tree_wf (snd s)) (map symbolic l)).
  { intros l. rewrite Forall_map. reflexivity. }
  apply G. rewrite <- H. now apply G.
Qed.

Lemma all_raw_symbolic (a b : list Doc) :
  map symbolic a = map symbolic b -> all_raw a = all_raw b.
Proof.
  intros H. unfold all_raw.
  transitivity (concat (map (fun s => Tree.raw (snd s)) (map symbolic a)));
    [now rewrite map_map|].
  rewrite H. now rewrite map_map.
Qed.

(** The two ways a call of [parse_tree_file] goes: either every row is
    all right, the scan appends its Documents and the vocabularies and
    tensors are rebuilt; or some row has a wrong field count and the
    call stops there with [ValueError], only [docs] having changed. *)
Lemma parse_tree_rows_cases (self : Corpus) (rows : list (list string)) :
  (rows_ok rows = true
   /\ exists added cur,
       parse_rows rows (docs self, Document.new)
         = ((docs self ++ added, cur), None)
       /\ parse_tree_rows self rows
          = _move_to_pt
              (fst (_get_vocabs
                      (with_docs self (docs self ++ added ++ [cur]))))
       /\ map symbolic (docs (fst (parse_tree_rows self rows)))
          = map symbolic (docs self ++ added ++ [cur])
       /\ all_raw (docs self ++ added ++ [cur])
          = all_raw (docs self)
            ++ map row_triple (filter is_tree_row rows)
       /\ length added = length (filter is_blank rows))
  \/
  (rows_ok rows = false
   /\ exists ds cur,
       parse_rows rows (docs self, Document.new)
         = ((ds, cur), Some ValueError)
       /\ parse_tree_rows self rows = (with_docs self ds, Some ValueError)).
Proof.
  destruct (rows_ok rows) eqn:E; [left | right]; split; try reflexivity.
  - destruct (parse_rows_ok rows (docs self) Document.new E)
      as (added & cur & P & R & N).
    exists added, cur. split; [exact P|].
    assert (Q : parse_tree_rows self rows
                = _move_to_pt
                    (fst (_get_vocabs
                            (with_docs self (docs self ++ added ++ [cur]))))).
    { unfold parse_tree_rows. rewrite P. rewrite <- app_assoc.
      rewrite get_vocabs_spec. reflexivity. }
    split; [exact Q|]. split; [|split; [|exact N]].
    + rewrite Q, move_to_pt_symbolic, get_vocabs_spec. reflexivity.
    + rewrite R. rewrite all_raw_snoc. cbn. now rewrite app_nil_r.
  - destruct (parse_rows_bad rows (docs self, Document.new) E)
      as ([ds cur] & P).
    exists ds, cur. split; [exact P|].
    unfold parse_tree_rows. now rewrite P.
Qed.

End CorpusFacts.

(** ** The reader on a text that ends with a blank line *)

Lemma str_split_cons (sep : ascii) (s : string) :
  exists h t, str_split sep s = h :: t.
Proof.
  destruct s as [|c s]; cbn [str_split]; [now eexists; eexists|].
  destruct (Ascii.eqb c sep); [now eexists; eexists|].
  destruct (str_split sep s); now eexists; eexists.
Qed.

Lemma str_split_app (sep : ascii) (s s' : string) :
  str_split sep (s ++ String sep s')%string
  = str_split sep s ++ str_split sep s'.
Proof.
  induction s as [|c s IH]; cbn [String.append str_split].
  - now rewrite Ascii.eqb_refl.
  - rewrite IH. destruct (Ascii.eqb c sep); [reflexivity|].
    destruct (str_split_cons sep s) as (h & t & E). now rewrite E.
Qed.

Lemma file_lines_newline (content : string) :
  file_lines (content ++ newline)%string
  = str_split "010"%char content.
Proof.
  unfold file_lines, newline. rewrite str_split_app. cbn [str_split].
  rewrite last_last, removelast_last. reflexivity.
Qed.

(** A text that ends with an empty line gives the rows of the text
    without that line, followed by the empty row. *)
Lemma csv_reader_trailing_blank (content : string) :
  csv_reader (content ++ newline ++ newline)%string
  = csv_reader (content ++ newline)%string ++ [[]].
Proof.
  unfold csv_reader. rewrite file_lines_newline.
  assert (E : str_split "010"%char (content ++ newline ++ newline)%string
              = (str_split "010"%char content ++ [EmptyString])
                ++ [EmptyString]).
  { unfold newline. cbn [String.append]. rewrite str_split_app.
    cbn [str_split]. rewrite Ascii.eqb_refl. now rewrite <- app_assoc. }
  unfold file_lines. rewrite E, last_last, removelast_last, map_app.
  reflexivity.
Qed.

(** ** parse_tree_file: rows, Trees and rebuilt state *)

Section ParseClaims.

Context {Vec : Type}.
Local Abbreviation Doc := (Document.t Vec).
Local Abbreviation Corpus := (@DocumentCorpus Vec).

Lemma parse_rows_app (a b : list (list string)) :
  forall st : list Doc * Doc,
    parse_rows (a ++ b) st =
      match parse_rows a st with
      | (st', None) => parse_rows b st'
      | (st', Some e) => (st', Some e)
      end.
Proof.
  induction a as [|row a IH]; intros st; [reflexivity|].
  cbn [app parse_rows]. destruct (parse_row st row); [reflexivity|].
  apply IH.
Qed.

Lemma vocabs_symbolic (u p : string) (a b : list Doc) :
  map symbolic a = map symbolic b ->
  token_vocab_of u p a = token_vocab_of u p b
  /\ char_vocab_of u p a = char_vocab_of u p b
  /\ build_morph_tag_vocab a = build_morph_tag_vocab b.
Proof.
  intros H. destruct (symbolic_tokens a b H) as (T & _ & M).
  unfold token_vocab_of, char_vocab_of, build_morph_tag_vocab, sorted_tags.
  now rewrite T, M.
Qed.

(** C3, amended.  A row that reaches [Tree.add] (not empty, no comment
    marker anywhere in its first field, more than one field, no ["."]
    in its first field)
    with a field count other than ten makes [parse_tree_file] fail: the
    unpacking in [Tree.add] raises [ValueError], which is the spec's
    FormatError, and the call stops there, before the vocabularies and
    tensors are rebuilt: of the corpus only [docs] has changed. *)
Theorem C3_wrong_field_count_aborts_parse
  (self : Corpus) (rows : list (list string)) (row : list string) :
  In row rows ->
  is_tree_row row = true ->
  length row <> 10 ->
  exists ds,
    parse_tree_rows self rows = (with_docs self ds, Some ValueError).
Proof.
  intros HIn Hrow Hlen.
  assert (E : rows_ok rows = false).
  { destruct (rows_ok rows) eqn:E; [|reflexivity].
    unfold rows_ok in E. rewrite forallb_forall in E.
    specialize (E row HIn). rewrite Hrow in E. simpl in E.
    apply Nat.eqb_eq in E. contradiction. }
  destruct (parse_tree_rows_cases self rows)
    as [[E' _] | [_ (ds & cur & _ & Q)]].
  - rewrite E in E'. discriminate E'.
  - now exists ds.
Qed.

(** C7.  The four sequences of every Tree of the corpus have the same
    length after a parse, whatever its outcome, when they had before;
    [Tree.add] keeps them so and appends at the end of each; when no
    row has a wrong field count, the rows of the Trees are those of the
    Trees before followed by the rows handed to [Tree.add], in the
    order of the file; and a row with a ["."] in its first field
    leaves the Tree as it is. *)
Theorem C7_tree_sequences_parallel
  (self : Corpus) (rows : list (list string)) :
  Forall doc_wf (docs self) ->
  Forall doc_wf (docs (fst (parse_tree_rows self rows)))
  /\ (rows_ok rows = true ->
      all_raw (docs (fst (parse_tree_rows self rows)))
      = all_raw (docs self) ++ map row_triple (filter is_tree_row rows))
  /\ (forall t branch t',
        tree_wf t -> Tree.add t branch = inr t' ->
        tree_wf t'
        /\ Tree.raw t' = Tree.raw t ++ [row_triple branch]
        /\ Tree.tokens t' = Tree.tokens t ++ [nth 1 branch EmptyString]
        /\ Tree.lemmas t' = Tree.lemmas t ++ [nth 2 branch EmptyString]
        /\ Tree.morph_tags t' =
             Tree.morph_tags t
             ++ [str_split ";" (nth 5 branch EmptyString)])
  /\ (forall (ds : list Doc) cur row0 rest,
        str_in "." row0 = true ->
        exists cur',
          parse_row (ds, cur) (row0 :: rest) = inr (ds, cur')
          /\ Document.tree cur' = Document.tree cur).
Proof.
  intros W. split; [|split; [|split]].
  - destruct (parse_tree_rows_cases self rows)
      as [[_ (added & cur & P & _ & S & _)] | [_ (ds & cur & P & Q)]].
    + eapply doc_wf_symbolic; [symmetry; exact S|].
      apply parse_rows_wf in P.
      * cbn [fst snd] in P. now rewrite <- app_assoc in P.
      * cbn [fst snd]. apply Forall_app. split; [exact W|].
        constructor; [exact tree_wf_empty | constructor].
    + rewrite Q. cbn [fst docs with_docs].
      apply parse_rows_wf in P.
      * cbn [fst snd] in P. apply Forall_app in P. tauto.
      * cbn [fst snd]. apply Forall_app. split; [exact W|].
        constructor; [exact tree_wf_empty | constructor].
  - intros E.
    destruct (parse_tree_rows_cases self rows)
      as [[_ (added & cur & _ & _ & S & R & _)] | [E' _]].
    + rewrite (all_raw_symbolic _ _ S). exact R.
    + rewrite E in E'. discriminate E'.
  - intros t branch t' Ht A. split; [eapply Tree_add_wf; eauto|].
    apply Tree_add_inv in A. tauto.
  - intros ds cur row0 rest D.
    apply parse_row_meta; [discriminate|].
    unfold is_tree_row. rewrite D. cbn [negb]. now rewrite !andb_false_r.
Qed.

(** C10, amended.  In a file that the reader reads without error and
    whose rows all have the right field count, a blank row always
    appends the Document being built and starts a new one; so a file
    that ends with a blank row (a text that ends with an empty line)
    leaves a Document without tokens, [sent_id] or [text] as the last
    of the corpus, and two blank rows in a row leave one inside it. *)
Theorem C10_blank_rows_append_empty_documents
  (self : Corpus) (rows : list (list string)) :
  rows_ok rows = true ->
  (forall (ds : list Doc) cur,
      parse_row (ds, cur) [] = inr (ds ++ [cur], Document.new))
  /\ (forall rows',
        rows = rows' ++ [[]] ->
        exists before,
          map symbolic (docs (fst (parse_tree_rows self rows)))
          = before ++ [(None, None, Tree.empty)])
  /\ (forall content,
        csv_plain (content ++ newline ++ newline)%string = true ->
        rows = csv_reader (content ++ newline ++ newline)%string ->
        exists before,
          map symbolic
            (docs (fst (parse_tree_file self
                          (content ++ newline ++ newline)%string)))
          = before ++ [(None, None, Tree.empty)])
  /\ (forall pre post,
        rows = pre ++ [] :: [] :: post ->
        exists before behind,
          map symbolic (docs (fst (parse_tree_rows self rows)))
          = before ++ (None, None, Tree.empty) :: behind
          /\ length before
             = length (docs self) + length (filter is_blank pre) + 1).
Proof.
  intros E. split; [reflexivity|].
  destruct (parse_tree_rows_cases self rows)
    as [[_ (added & cur & P & _ & S & _)] | [E' _]];
    [|rewrite E in E'; discriminate E'].
  assert (Last : forall rows',
             rows = rows' ++ [[]] ->
             exists before,
               map symbolic (docs (fst (parse_tree_rows self rows)))
               = before ++ [(None, None, Tree.empty)]).
  { rewrite S. intros rows' ->.
    unfold rows_ok in E. rewrite forallb_app in E.
    apply andb_prop in E. destruct E as [E1 _].
    destruct (parse_rows_ok rows' (docs self) Document.new E1)
      as (added1 & cur1 & P1 & _).
    rewrite parse_rows_app, P1 in P. cbn in P.
    inversion P as [[Q1 Q2]].
    exists (map symbolic (docs self ++ added)).
    rewrite app_assoc, map_app. reflexivity. }
  split; [exact Last|]. split.
  - intros content _ Hc. unfold parse_tree_file. rewrite <- Hc.
    apply (Last (csv_reader (content ++ newline)%string)).
    rewrite Hc. apply csv_reader_trailing_blank.
  - rewrite S. clear S Last. intros pre post ->.
    unfold rows_ok in E. rewrite forallb_app in E.
    apply andb_prop in E. destruct E as [E1 E2].
    cbn [forallb] in E2. cbn in E2.
    destruct (parse_rows_ok pre (docs self) Document.new E1)
      as (added1 & cur1 & P1 & _ & N1).
    rewrite parse_rows_app, P1 in P. cbn [parse_rows parse_row ret] in P.
    destruct (parse_rows_ok post
                (((docs self ++ added1) ++ [cur1]) ++ [Document.new])
                Document.new E2)
      as (added2 & cur2 & P2 & _).
    rewrite P2 in P. inversion P as [[Q1 Q2]].
    exists (map symbolic ((docs self ++ added1) ++ [cur1])),
           (map symbolic (added2 ++ [cur])).
    split.
    + rewrite app_assoc, <- Q1. rewrite <- !app_assoc.
      rewrite !map_app. cbn. rewrite <- !app_assoc. reflexivity.
    + rewrite length_map, !length_app, N1. cbn. lia.
Qed.

End ParseClaims.

(** ** Facts about dictionaries and sorted tag lists *)

Section DictFacts.

Context {K V : Type} (eqb : K -> K -> bool).
Hypothesis eqb_eq : forall a b, eqb a b = true <-> a = b.

Lemma eqb_refl' (a : K) : eqb a a = true.
Proof. now apply eqb_eq. Qed.

Lemma eqb_neq' (a b : K) : a <> b -> eqb a b = false.
Proof.
  intros H. destruct (eqb a b) eqn:E; [|reflexivity].
  apply eqb_eq in E. contradiction.
Qed.

Lemma dict_get_None (d : list (K * V)) (k : K) :
  PyDict.get eqb d k = None <-> ~ In k (PyDict.keys d).
Proof.
  induction d as [|[k' v] d IH]; cbn [PyDict.get PyDict.keys map In fst].
  - tauto.
  - destruct (eqb k' k) eqn:E.
    + apply eqb_eq in E. split; [discriminate | intros H; exfalso; auto].
    + rewrite IH. unfold PyDict.keys. split.
      * intros H [H'|H']; [|auto]. subst.
        rewrite eqb_refl' in E. discriminate.
      * tauto.
Qed.

Lemma dict_set_fresh (d : list (K * V)) (k : K) (v : V) :
  ~ In k (PyDict.keys d) -> PyDict.set eqb d k v = d ++ [(k, v)].
Proof.
  induction d as [|[k' v'] d IH]; cbn [PyDict.set PyDict.keys map In fst app];
    [reflexivity|].
  intros H. rewrite eqb_neq' by tauto. rewrite IH; [reflexivity|].
  unfold PyDict.keys. tauto.
Qed.

Lemma dict_set_keys_present (d : list (K * V)) (k : K) (v : V) :
  In k (PyDict.keys d) -> PyDict.keys (PyDict.set eqb d k v) = PyDict.keys d.
Proof.
  induction d as [|[k' v'] d IH]; cbn [PyDict.set PyDict.keys map In fst];
    [tauto|].
  intros H. destruct (eqb k' k) eqn:E; [reflexivity|].
  cbn [map fst]. f_equal. apply IH. destruct H as [H|H]; [|exact H].
  subst. rewrite eqb_refl' in E. discriminate.
Qed.

(** A dictionary built from items with distinct keys is the list of
    these items. *)
Lemma of_items_distinct (kvs : list (K * V)) :
  NoDup (map fst kvs) -> PyDict.of_items eqb kvs = kvs.
Proof.
  unfold PyDict.of_items.
  assert (G : forall acc : list (K * V),
             NoDup (map fst (acc ++ kvs)) ->
             fold_left (fun d kv => PyDict.set eqb d (fst kv) (snd kv))
               kvs acc = acc ++ kvs).
  { induction kvs as [|[k v] kvs IH]; intros acc H; cbn [fold_left].
    - now rewrite app_nil_r.
    - cbn [fst snd]. rewrite dict_set_fresh.
      + rewrite IH; rewrite <- app_assoc; [reflexivity | exact H].
      + rewrite map_app in H. apply NoDup_remove_2 in H.
        intros HIn. apply H. apply in_or_app. now left. }
  intros H. apply (G []). exact H.
Qed.

End DictFacts.

Section TagVocabFacts.

Lemma str_lt_trans (a b c : string) :
  Sorting.str_lt a b -> Sorting.str_lt b c -> Sorting.str_lt a c.
Proof.
  unfold Sorting.str_lt. intros H1 H2.
  apply String_as_OT.cmp_lt in H1, H2. apply String_as_OT.cmp_lt.
  eapply String_as_OT.lt_trans; eauto.
Qed.

Lemma str_lt_irrefl (a : string) : ~ Sorting.str_lt a a.
Proof.
  unfold Sorting.str_lt. intros H.
  assert (E : String.compare a a = Eq) by now apply String_as_OT.cmp_eq.
  congruence.
Qed.

Lemma str_gt_lt (a b : string) :
  String.compare a b = Gt -> Sorting.str_lt b a.
Proof.
  unfold Sorting.str_lt. intros H.
  rewrite String.compare_antisym, H. reflexivity.
Qed.

Lemma insert_uniq_In (x y : string) (l : list string) :
  In y (Sorting.insert_uniq x l) <-> y = x \/ In y l.
Proof.
  induction l as [|z l IH]; cbn [Sorting.insert_uniq In].
  - intuition.
  - destruct (String.compare x z) eqn:C; cbn [In].
    + apply String.compare_eq_iff in C. subst. intuition.
    + intuition.
    + rewrite IH. intuition.
Qed.

Lemma insert_uniq_sorted (x : string) (l : list string) :
  Sorted Sorting.str_lt l -> Sorted Sorting.str_lt (Sorting.insert_uniq x l).
Proof.
  induction l as [|z l IH]; intros S; cbn [Sorting.insert_uniq].
  - repeat constructor.
  - destruct (String.compare x z) eqn:C.
    + exact S.
    + constructor; [exact S | constructor; exact C].
    + inversion S as [|? ? S' H]; subst.
      constructor; [now apply IH|].
      destruct l as [|w l]; cbn [Sorting.insert_uniq].
      * constructor. now apply str_gt_lt.
      * destruct (String.compare x w); constructor;
          solve [now apply str_gt_lt | now inversion H].
Qed.

Lemma sorted_set_In (x : string) (l : list string) :
  In x (Sorting.sorted_set l) <-> In x l.
Proof.
  induction l as [|y l IH]; cbn [Sorting.sorted_set fold_right In];
    [tauto|].
  fold (Sorting.sorted_set l). rewrite insert_uniq_In, IH. intuition.
Qed.

Lemma sorted_set_sorted (l : list string) :
  Sorted Sorting.str_lt (Sorting.sorted_set l).
Proof.
  induction l as [|y l IH]; cbn [Sorting.sorted_set fold_right];
    [constructor|].
  now apply insert_uniq_sorted.
Qed.

Lemma sorted_NoDup (l : list string) : Sorted Sorting.str_lt l -> NoDup l.
Proof.
  intros S. apply Sorted_StronglySorted in S;
    [|intros a b c; apply str_lt_trans].
  induction S as [|a l S IH F]; constructor; [|exact IH].
  intros HIn. rewrite Forall_forall in F.
  exact (str_lt_irrefl a (F a HIn)).
Qed.

Lemma sorted_set_NoDup (l : list string) : NoDup (Sorting.sorted_set l).
Proof. apply sorted_NoDup, sorted_set_sorted. Qed.

Lemma swap_enumerate {A} (l : list A) :
  map (fun vk : nat * A => (snd vk, fst vk)) (enumerate l)
  = combine l (seq 0 (length l)).
Proof.
  unfold enumerate. generalize 0.
  induction l as [|x l IH]; intros s; [reflexivity|].
  cbn [length seq combine map fst snd]. now rewrite IH.
Qed.

Lemma get_combine_seq (l : list string) (k : string) :
  forall s,
    PyDict.get String.eqb (combine l (seq s (length l))) k
    = option_map (fun i => s + i) (Torchtext.index_of k l).
Proof.
  induction l as [|x l IH]; intros s; [reflexivity|].
  cbn [length seq combine PyDict.get Torchtext.index_of].
  destruct (String.eqb x k); [cbn; f_equal; lia|].
  rewrite IH.
  destruct (Torchtext.index_of k l); cbn; [f_equal; lia|reflexivity].
Qed.

Lemma index_of_In (k : string) (l : list string) :
  In k l -> exists i, Torchtext.index_of k l = Some i /\ nth_error l i = Some k.
Proof.
  induction l as [|x l IH]; [intros []|].
  intros H. cbn [Torchtext.index_of].
  destruct (String.eqb_spec x k) as [->|N].
  - exists 0. now split.
  - destruct H as [H|H]; [contradiction|].
    destruct (IH H) as (i & E & Hn). exists (S i). rewrite E. now split.
Qed.

End TagVocabFacts.

(** ** The tag tensor *)

Section MorphTensor.

Context {Vec : Type}.
Local Abbreviation Doc := (Document.t Vec).
Local Abbreviation Corpus := (@DocumentCorpus Vec).

Lemma map_fst_combine_seq {A} (l : list A) :
  forall s, map fst (combine l (seq s (length l))) = l.
Proof.
  induction l as [|x l IH]; intros s; [reflexivity|].
  cbn [length seq combine map fst]. now rewrite IH.
Qed.

(** The tag vocabulary sends the j-th tag of the sorted list to j. *)
Lemma build_morph_tag_vocab_eq (ds : list Doc) :
  build_morph_tag_vocab ds
  = combine (sorted_tags ds) (seq 0 (length (sorted_tags ds))).
Proof.
  unfold build_morph_tag_vocab. rewrite swap_enumerate.
  apply of_items_distinct; [exact String.eqb_eq|].
  rewrite map_fst_combine_seq. apply sorted_set_NoDup.
Qed.

Lemma map_snd_combine_seq {A} (l : list A) :
  forall s, map snd (combine l (seq s (length l))) = seq s (length l).
Proof.
  induction l as [|x l IH]; intros s; [reflexivity|].
  cbn [length seq combine map snd]. now rewrite IH.
Qed.

Lemma length_combine_seq {A} (l : list A) (s : nat) :
  length (combine l (seq s (length l))) = length l.
Proof. rewrite length_combine, length_seq. apply Nat.min_id. Qed.

Lemma tagset_block_single (self : Corpus) (tags : list string)
  (tag : string) :
  morph_tag_vocab self = Some (combine tags (seq 0 (length tags))) ->
  In tag tags ->
  tagset_block self [tag]
  = inr (Torch.mkTensor2 (Nat.pred (length tags)) [tag_row tags tag]).
Proof.
  intros Hv HIn. unfold tagset_block. rewrite Hv. cbn [attr bind ret].
  unfold tag_indices. cbn [map]. rewrite get_combine_seq.
  destruct (index_of_In tag tags HIn) as (i & E & Hn).
  unfold tag_row. rewrite E. cbn [option_map mapM bind ret Nat.add].
  rewrite length_combine_seq.
  unfold Torch.one_hot. cbn [forallb].
  assert (L : i < length tags) by (apply nth_error_Some; congruence).
  apply Nat.ltb_lt in L. rewrite L. reflexivity.
Qed.

Lemma blocks_single (self : Corpus) (tags : list string)
  (mts : list (list string)) :
  morph_tag_vocab self = Some (combine tags (seq 0 (length tags))) ->
  Forall (fun ts => length ts = 1) mts ->
  (forall ts tag, In ts mts -> In tag ts -> In tag tags) ->
  mapM (tagset_block self) mts
  = inr (map (fun ts =>
                Torch.mkTensor2 (Nat.pred (length tags))
                  [tag_row tags (hd EmptyString ts)]) mts).
Proof.
  intros Hv F. induction F as [|ts mts L F IH]; intros HIn; [reflexivity|].
  destruct ts as [|tag [|? ?]]; try discriminate L.
  cbn [mapM map hd].
  rewrite (tagset_block_single self tags tag Hv);
    [|apply (HIn [tag]); now left].
  cbn [bind]. rewrite IH; [reflexivity|].
  intros ts' tag' H1 H2. apply (HIn ts' tag'); [now right | exact H2].
Qed.

Lemma cat_uniform (n : nat) (bs : list Torch.Tensor2) :
  bs <> [] ->
  Forall (fun b => Torch.ncols b = n) bs ->
  Torch.cat bs = inr (Torch.mkTensor2 n (concat (map Torch.rows bs))).
Proof.
  intros N F. destruct bs as [|b bs]; [contradiction|].
  inversion F as [|? ? Hb F']; subst. unfold Torch.cat.
  assert (E : forallb
                (fun t => Nat.eqb (Torch.ncols t) (Torch.ncols b)) bs = true).
  { apply forallb_forall. intros t Ht. rewrite Forall_forall in F'.
    rewrite (F' t Ht). apply Nat.eqb_refl. }
  rewrite E. reflexivity.
Qed.

Lemma nth_map_seq {A} (f : nat -> A) (n : nat) :
  forall s j d, j < n -> nth j (map f (seq s n)) d = f (s + j).
Proof.
  induction n as [|n IH]; intros s j d H; [lia|].
  cbn [seq map]. destruct j as [|j]; cbn [nth].
  - f_equal. lia.
  - rewrite IH by lia. f_equal. lia.
Qed.

Lemma nth_unit_row (n k j : nat) :
  j < n -> nth j (Torch.unit_row n k) 0 = if Nat.eqb j k then 1 else 0.
Proof.
  intros H. unfold Torch.unit_row. now rewrite nth_map_seq.
Qed.

Lemma nth_tag_row (tags : list string) (tag : string) (j : nat) :
  NoDup tags -> In tag tags -> j < length tags - 1 ->
  nth j (tag_row tags tag) 0
  = if String.eqb (nth j tags EmptyString) tag then 1 else 0.
Proof.
  intros ND HIn Hj. unfold tag_row.
  destruct (index_of_In tag tags HIn) as (k & E & Hn). rewrite E.
  rewrite removelast_firstn_len, nth_firstn.
  unfold Torch.unit_row at 1. rewrite length_map, length_seq.
  assert (B : Nat.ltb j (Nat.pred (length tags)) = true)
    by (apply Nat.ltb_lt; lia).
  rewrite B. rewrite nth_unit_row by lia.
  destruct (Nat.eqb_spec j k) as [->|N].
  - rewrite (nth_error_nth _ _ _ Hn). now rewrite String.eqb_refl.
  - destruct (String.eqb_spec (nth j tags EmptyString) tag) as [Et|]; 
      [|reflexivity].
    exfalso. apply N.
    assert (Hj' : nth_error tags j = Some tag).
    { rewrite <- Et. apply nth_error_nth'. lia. }
    rewrite NoDup_nth_error in ND. apply ND; [lia | congruence].
Qed.

Lemma concat_map_singleton {A B} (f : A -> B) (l : list A) :
  concat (map (fun x => [f x]) l) = map f l.
Proof. induction l; cbn; congruence. Qed.

End MorphTensor.

Section MorphTensorClaims.

Context {Vec : Type}.
Local Abbreviation Doc := (Document.t Vec).
Local Abbreviation Corpus := (@DocumentCorpus Vec).

(** C1, as amended.  For a Document of a corpus whose vocabularies are
    current, with at least one token and exactly one tag per token, the
    tag tensor has one row per token and one column per tag of the
    vocabulary except the last one in sorted order; the row of a token
    has a one in column j exactly when the j-th tag is the token's tag,
    so the row is all zero when that tag is the last of the
    vocabulary. *)
Theorem C1_single_tag_rows (self : Corpus) (d : Doc) :
  vocabs_current self ->
  In d (docs self) ->
  doc_wf d ->
  0 < Document.len d ->
  Forall (fun ts => length ts = 1) (Document.morph_tags d) ->
  exists vocab T,
    morph_tag_vocab self = Some vocab
    /\ PyDict.keys vocab = sorted_tags (docs self)
    /\ PyDict.values vocab = seq 0 (length vocab)
    /\ make_morph_tags_tensor self d = inr T
    /\ Torch.shape T = (Document.len d, length vocab - 1)
    /\ forall i j tag,
         nth_error (Document.morph_tags d) i = Some [tag] ->
         j < length vocab - 1 ->
         Torch.entry T i j
         = if String.eqb (nth j (PyDict.keys vocab) EmptyString) tag
           then 1 else 0.
Proof.
  intros (_ & _ & Hv) HIn (_ & W2 & W3) Hlen F.
  rewrite build_morph_tag_vocab_eq in Hv.
  set (tags := sorted_tags (docs self)) in *.
  assert (Htags : forall ts tag,
             In ts (Document.morph_tags d) -> In tag ts -> In tag tags).
  { intros ts tag H1 H2. apply sorted_set_In.
    apply in_concat. exists ts. split; [|exact H2].
    apply in_concat. exists (Document.morph_tags d). split; [|exact H1].
    apply in_map. exact HIn. }
  exists (combine tags (seq 0 (length tags))).
  eexists. split; [exact Hv|].
  split; [apply map_fst_combine_seq|].
  split.
  { unfold PyDict.values. rewrite length_combine_seq.
    apply map_snd_combine_seq. }
  unfold make_morph_tags_tensor.
  rewrite (blocks_single self tags _ Hv F Htags). cbn [bind].
  assert (Hne : Document.morph_tags d <> []).
  { unfold Document.len, Document.tokens, Document.morph_tags in *.
    intros E. rewrite E in W3. cbn in W3. lia. }
  rewrite (cat_uniform (Nat.pred (length tags))).
  - split; [reflexivity|]. rewrite map_map. cbn [Torch.rows].
    rewrite concat_map_singleton. split.
    + unfold Torch.shape. cbn [Torch.rows Torch.ncols].
      rewrite length_map, length_combine_seq.
      unfold Document.len, Document.tokens, Document.morph_tags in *.
      f_equal; lia.
    + intros i j tag Hi Hj. unfold Torch.entry. cbn [Torch.rows].
      rewrite length_combine_seq in Hj.
      assert (E : nth i (map (fun ts => tag_row tags (hd EmptyString ts))
                           (Document.morph_tags d)) []
                  = tag_row tags tag).
      { apply nth_error_nth.
        rewrite nth_error_map, Hi. reflexivity. }
      rewrite E. unfold PyDict.keys. rewrite map_fst_combine_seq.
      apply nth_tag_row; [apply sorted_set_NoDup | | exact Hj].
      apply (Htags [tag]); [eapply nth_error_In; eauto | now left].
  - destruct (Document.morph_tags d); [contradiction | discriminate].
  - apply Forall_map. apply Forall_forall. reflexivity.
Qed.

End MorphTensorClaims.

(** C1, as stated, fails: a sentence whose only token carries two tags
    gets a tag tensor of two rows and one column, where the claim has one
    row (one token) and two columns (two tags in the vocabulary). *)
Lemma C1_counterexample :
  exists (self : @DocumentCorpus unit) d vocab T,
    csv_reader two_tag_input = two_tag_rows
    /\ parse_tree_file new_corpus two_tag_input = (self, None)
    /\ docs self = [d]
    /\ Document.len d = 1
    /\ morph_tag_vocab self = Some vocab
    /\ length vocab = 2
    /\ Document.morph_tags_tensor d = Some T
    /\ make_morph_tags_tensor self d = inr T
    /\ Torch.shape T = (2, 1)
    /\ ~ multi_hot vocab d T.
Proof.
  do 4 eexists.
  split; [vm_compute; reflexivity|].
  split; [vm_compute; reflexivity|].
  split; [reflexivity|].
  split; [reflexivity|].
  split; [reflexivity|].
  split; [reflexivity|].
  split; [reflexivity|].
  split; [reflexivity|].
  split; [reflexivity|].
  intros [H _]. vm_compute in H. discriminate H.
Qed.

Lemma C1_single_tag_rows_witness :
  let self := fst (parse_tree_rows (Vec:=unit) new_corpus example_rows) in
  let d := nth 1 (docs self) Document.new in
  exists vocab T,
    morph_tag_vocab self = Some vocab
    /\ PyDict.keys vocab = sorted_tags (docs self)
    /\ PyDict.values vocab = seq 0 (length vocab)
    /\ make_morph_tags_tensor self d = inr T
    /\ Torch.shape T = (Document.len d, length vocab - 1)
    /\ forall i j tag,
         nth_error (Document.morph_tags d) i = Some [tag] ->
         j < length vocab - 1 ->
         Torch.entry T i j
         = if String.eqb (nth j (PyDict.keys vocab) EmptyString) tag
           then 1 else 0.
Proof.
  apply C1_single_tag_rows.
  - vm_compute. auto.
  - vm_compute. auto.
  - vm_compute. auto.
  - vm_compute. lia.
  - vm_compute. repeat constructor.
Defined.

(** ** The example of the specification *)

(** C2.  On the two-sentence example the reader yields the two token
    rows with a blank row between them; the parse returns two Documents
    with the tokens [dog] and [dogs]; the tag vocabulary sends
    [Number=Plur] to 0; the tag row of the first Document is [0] and that
    of the second is [1]; and, the script generator giving different
    scripts for (dog, dog) and (dogs, dog), [script_to_id] has exactly two
    entries, with distinct keys. *)
Theorem C2_two_sentence_example
  (get_lemma_script : string -> string -> string) :
  get_lemma_script "dog" "dog" <> get_lemma_script "dogs" "dog" ->
  csv_reader example_input = example_rows
  /\ exists (self self' : @DocumentCorpus unit) vocab s2i,
      parse_tree_file new_corpus example_input = (self, None)
      /\ length (docs self) = 2
      /\ map Document.tokens (docs self) = [["dog"]; ["dogs"]]
      /\ morph_tag_vocab self = Some vocab
      /\ PyDict.get String.eqb vocab "Number=Plur" = Some 0
      /\ map (fun d => option_map Torch.rows (Document.morph_tags_tensor d))
           (docs self)
         = [Some [[0]]; Some [[1]]]
      /\ set_lemma_tags get_lemma_script self = (self', None)
      /\ script_to_id self' = Some s2i
      /\ length s2i = 2
      /\ NoDup (PyDict.keys s2i).
Proof.
  intros Hne. split; [vm_compute; reflexivity|].
  eexists. eexists. eexists. eexists.
  split; [vm_compute; reflexivity|].
  split; [reflexivity|].
  split; [reflexivity|].
  split; [reflexivity|].
  split; [reflexivity|].
  split; [reflexivity|].
  unfold set_lemma_tags.
  cbn [docs fold_left label_doc label_token Document.tokens Document.lemmas
         Document.tree Tree.tokens Tree.lemmas combine app].
  set (a := get_lemma_script "dog" "dog") in *.
  set (b := get_lemma_script "dogs" "dog") in *.
  unfold PyDict.incr.
  cbn [PyDict.get PyDict.set].
  assert (Eab : String.eqb a b = false) by now apply String.eqb_neq.
  assert (Eba : String.eqb b a = false)
    by (apply String.eqb_neq; congruence).
  rewrite ?Eab, ?Eba, ?String.eqb_refl.
  cbn [PyDict.get PyDict.set length Nat.ltb Nat.leb].
  rewrite ?Eab, ?Eba, ?String.eqb_refl.
  unfold rank_scripts, PyDict.of_items, PyDict.items, enumerate.
  cbn [Sorting.sorted_desc fold_right Sorting.insert_desc snd Nat.ltb Nat.leb
         length seq combine map fst fold_left PyDict.set].
  rewrite ?Eab, ?Eba, ?String.eqb_refl.
  cbn [tag_docs mapM]. unfold script_id. cbn [PyDict.get].
  rewrite ?Eab, ?Eba, ?String.eqb_refl.
  cbn [bind ret].
  split; [reflexivity|].
  cbn [script_to_id with_scripts].
  split; [reflexivity|].
  split; [reflexivity|].
  cbn [PyDict.keys map fst].
  constructor; [intros [H|[]]; apply Hne; symmetry; exact H|].
  constructor; [intros [] | constructor].
Qed.

Lemma C2_two_sentence_example_witness :
  suffix_script "dog" "dog" <> suffix_script "dogs" "dog"
  /\ csv_reader example_input = example_rows.
Proof.
  assert (H : suffix_script "dog" "dog" <> suffix_script "dogs" "dog")
    by (vm_compute; discriminate).
  split; [exact H|].
  exact (proj1 (C2_two_sentence_example suffix_script H)).
Defined.

(** ** Subword alignment *)

Section DictAppend.

Context {K V : Type} (eqb : K -> K -> bool).
Hypothesis eqb_eq : forall a b, eqb a b = true <-> a = b.

Lemma dict_get_last (d : list (K * V)) (k : K) (v : V) :
  ~ In k (PyDict.keys d) -> PyDict.get eqb (d ++ [(k, v)]) k = Some v.
Proof.
  induction d as [|[k' v'] d IH]; cbn [PyDict.get PyDict.keys map In fst app].
  - intros _. now rewrite (eqb_refl' eqb eqb_eq).
  - intros H. rewrite (eqb_neq' eqb eqb_eq) by tauto. apply IH.
    unfold PyDict.keys. tauto.
Qed.

Lemma dict_set_last (d : list (K * V)) (k : K) (v w : V) :
  ~ In k (PyDict.keys d) ->
  PyDict.set eqb (d ++ [(k, v)]) k w = d ++ [(k, w)].
Proof.
  induction d as [|[k' v'] d IH]; cbn [PyDict.set PyDict.keys map In fst app].
  - intros _. now rewrite (eqb_refl' eqb eqb_eq).
  - intros H. rewrite (eqb_neq' eqb eqb_eq) by tauto. f_equal. apply IH.
    unfold PyDict.keys. tauto.
Qed.

End DictAppend.

Lemma length_slice_1_m1 {A} (xs : list A) :
  length (slice_1_m1 xs) = length xs - 2.
Proof.
  unfold slice_1_m1. destruct xs as [|x xs]; [reflexivity|]. cbn [tl].
  destruct xs as [|y xs] using rev_ind; [reflexivity|].
  rewrite removelast_last. cbn [length]. rewrite length_app. cbn [length].
  lia.
Qed.

Section Alignment.

Context {Vec : Type}.
Variable tokenizer_offsets : option string -> result (list (nat * nat)).
Variable encoder : option string -> result (list Vec).
Variable mean_rows : list Vec -> Vec.
Variable encoder_name : string.
Local Abbreviation Doc := (Document.t Vec).
Local Abbreviation Corpus := (@DocumentCorpus Vec).

Lemma corr_step_inv (spans : list (nat * nat)) (index s : nat)
  (corr : list (nat * list nat)) (off : nat * nat)
  (st' : nat * list (nat * list nat)) :
  corr_inv index corr s ->
  corr_step spans (index, corr) (s, off) = inr st' ->
  corr_inv (fst st') (snd st') (S s) /\ length (snd st') <= length spans.
Proof.
  intros (Hk & Hc & Hn & Hl) H. unfold corr_step in H.
  destruct off as [o1 o2].
  destruct (nth_error spans index) as [sp|] eqn:Hsp; [|discriminate H].
  assert (Hlt : index < length spans)
    by (apply nth_error_Some; congruence).
  cbn [ret] in H. inversion H; subst st'; clear H. cbn [fst snd].
  assert (G : exists corr',
             PyDict.set Nat.eqb corr index
               (match PyDict.get Nat.eqb corr index with
                | Some b => b
                | None => []
                end ++ [s]) = corr'
             /\ length corr' = S index
             /\ PyDict.keys corr' = seq 0 (length corr')
             /\ concat (PyDict.values corr') = seq 0 (S s)
             /\ Forall (fun b => b <> []) (PyDict.values corr')).
  { destruct Hl as [Hl|Hl].
    - assert (Hfresh : ~ In index (PyDict.keys corr)).
      { rewrite Hk, Hl. rewrite in_seq. lia. }
      pose proof Hfresh as Hget.
      apply (dict_get_None Nat.eqb Nat.eqb_eq) in Hget. rewrite Hget.
      rewrite (dict_set_fresh Nat.eqb Nat.eqb_eq) by exact Hfresh.
      eexists. split; [reflexivity|].
      unfold PyDict.keys, PyDict.values in *.
      rewrite length_app, !map_app, concat_app.
      cbn [length map fst snd concat app].
      rewrite Hk, Hc, Hl. rewrite Nat.add_1_r.
      split; [reflexivity|]. split; [now rewrite seq_S|].
      split; [now rewrite seq_S|].
      apply Forall_app. split; [exact Hn|]. now constructor.
    - destruct (exists_last (l := corr)) as (corr0 & [k b] & E).
      { intros E. rewrite E in Hl. discriminate Hl. }
      subst corr. unfold PyDict.keys, PyDict.values in *.
      rewrite length_app in Hl, Hk. cbn [length] in Hl, Hk.
      rewrite Nat.add_1_r in Hl, Hk. injection Hl as Hl.
      rewrite !map_app in *. cbn [map fst snd] in *.
      rewrite seq_S in Hk. cbn [Nat.add] in Hk.
      apply app_inj_tail in Hk. destruct Hk as [Hk0 Hk1].
      rewrite Hl in Hk1, Hk0. subst k.
      assert (Hfresh : ~ In index (PyDict.keys corr0)).
      { unfold PyDict.keys. rewrite Hk0, in_seq. lia. }
      rewrite (dict_get_last Nat.eqb Nat.eqb_eq) by exact Hfresh.
      rewrite (dict_set_last Nat.eqb Nat.eqb_eq) by exact Hfresh.
      eexists. split; [reflexivity|].
      rewrite length_app, !map_app, concat_app. cbn [length map fst snd concat].
      rewrite concat_app in Hc. cbn [concat] in Hc.
      rewrite app_nil_r in *.
      rewrite Nat.add_1_r, Hl. split; [reflexivity|].
      split; [now rewrite seq_S, Hk0|].
      split; [now rewrite app_assoc, Hc, seq_S|].
      apply Forall_app in Hn. destruct Hn as [Hn0 _].
      apply Forall_app. split; [exact Hn0|]. constructor; [|constructor].
      intros E. now apply app_eq_nil in E as [_ E]. }
  destruct G as (corr' & -> & L & K' & C & N).
  split; [|lia].
  unfold corr_inv. repeat split; try assumption.
  destruct (Nat.eqb o2 (snd sp)); [left | right]; exact L.
Qed.

Lemma corr_loop_inv (spans : list (nat * nat)) (offs : list (nat * nat)) :
  forall s st st',
    corr_inv (fst st) (snd st) s ->
    length (snd st) <= length spans ->
    foldM (corr_step spans) (combine (seq s (length offs)) offs) st
      = inr st' ->
    corr_inv (fst st') (snd st') (s + length offs)
    /\ length (snd st') <= length spans.
Proof.
  induction offs as [|off offs IH]; intros s [index corr] st' Inv Hl H.
  - cbn in H. inversion H; subst. rewrite Nat.add_0_r. now split.
  - cbn [length seq combine foldM] in H.
    destruct (corr_step spans (index, corr) (s, off)) as [e|st1] eqn:E;
      [discriminate H|].
    cbn [bind] in H.
    destruct (corr_step_inv spans index s corr off st1 Inv E) as [Inv1 Hl1].
    destruct (IH (S s) st1 st' Inv1 Hl1 H) as [Inv' Hl'].
    cbn [length]. rewrite Nat.add_succ_r. now split.
Qed.

Lemma find_spans_length (text : option string) (toks : list string) :
  forall e spans,
    find_spans text toks e = inr spans -> length spans = length toks.
Proof.
  induction toks as [|t toks IH]; intros e spans H; cbn [find_spans] in H.
  - inversion H. reflexivity.
  - destruct text as [txt|]; [|discriminate H].
    destruct (str_find t (str_drop e txt)) as [i|]; [|discriminate H].
    destruct (find_spans (Some txt) toks (e + (i + String.length t)))
      as [|rest] eqn:R; [discriminate H|].
    cbn [bind ret] in H. inversion H. cbn [length]. f_equal. eauto.
Qed.

(** The search for the spans succeeds on the tokens for which
    [end_after] is defined, and raises [AttributeError] at the first
    token that is not found. *)
Lemma find_spans_not_found (txt : string) (pre post : list string)
  (t : string) :
  forall e0 e,
    end_after txt pre e0 = Some e ->
    str_find t (str_drop e txt) = None ->
    find_spans (Some txt) (pre ++ t :: post) e0 = inl AttributeError.
Proof.
  induction pre as [|p pre IH]; intros e0 e He Hf.
  - cbn in He. inversion He; subst. cbn [app find_spans]. now rewrite Hf.
  - cbn [end_after] in He. cbn [app find_spans].
    destruct (str_find p (str_drop e0 txt)) as [i|]; [|discriminate He].
    rewrite (IH _ _ He Hf). reflexivity.
Qed.

Lemma update_each_app_fail (f : Doc -> result Doc) (d : Doc) (x : exn)
  (ds2 : list Doc) :
  f d = inl x ->
  forall ds1,
    Forall (fun d0 => exists d0', f d0 = inr d0') ds1 ->
    exists ds1',
      update_each f (ds1 ++ d :: ds2) = (ds1' ++ d :: ds2, Some x)
      /\ Forall2 (fun d0 d0' => f d0 = inr d0') ds1 ds1'.
Proof.
  intros Hd. induction ds1 as [|d1 ds1 IH]; intros F.
  - exists []. cbn [app update_each]. rewrite Hd. now split.
  - inversion F as [|? ? [d1' H1] F']; subst.
    destruct (IH F') as (ds1' & U & R).
    exists (d1' :: ds1'). cbn [app update_each]. rewrite H1, U.
    split; [reflexivity | now constructor].
Qed.

(** C8.  When the alignment of a Document succeeds, the buckets of the
    correspondence are keyed 0, 1, 2, ... in this order, there are no
    more of them than tokens, none is empty, and read in the order of
    their keys they hold the numbers 0, 1, ..., n-3, each once and in
    increasing order, where n is the number of sub-word tokens the
    tokenizer returned.  The loop counts from 0 at the first sub-word
    after the leading structural token, while the sub-words proper
    have the indices 1, ..., n-2 in the output of the tokenizer and of
    the encoder, which the pooling indexes with these numbers: as soon
    as there is a sub-word proper, index 0, that of the leading
    structural token, is in a bucket, and index n-2, that of the last
    sub-word proper, is in none. *)
Theorem C8_buckets_shifted_by_one
  (d : Doc) (correspondence : list (nat * list nat)) :
  align tokenizer_offsets d = inr correspondence ->
  exists offset_mapping,
    tokenizer_offsets (Document.text d) = inr offset_mapping
    /\ PyDict.keys correspondence = seq 0 (length correspondence)
    /\ length correspondence <= Document.len d
    /\ Forall (fun bucket => bucket <> []) (PyDict.values correspondence)
    /\ concat (PyDict.values correspondence)
       = seq 0 (length offset_mapping - 2)
    /\ (3 <= length offset_mapping ->
        In 0 (concat (PyDict.values correspondence))
        /\ ~ In (length offset_mapping - 2)
               (concat (PyDict.values correspondence))).
Proof.
  unfold align. intros H.
  destruct (tokenizer_offsets (Document.text d)) as [|offs]; [discriminate H|].
  cbn [bind] in H.
  destruct (find_spans (Document.text d) (Document.tokens d) 0)
    as [|spans] eqn:S; [discriminate H|].
  cbn [bind] in H. unfold correspondence_of, enumerate in H.
  destruct (foldM (corr_step spans)
              (combine (seq 0 (length (slice_1_m1 offs))) (slice_1_m1 offs))
              (0, [])) as [|st] eqn:L; [discriminate H|].
  cbn [bind ret] in H. inversion H; subst correspondence; clear H.
  destruct (corr_loop_inv spans (slice_1_m1 offs) 0 (0, []) st)
    as [(Hk & Hc & Hn & _) Hl].
  - unfold corr_inv. cbn. repeat split; auto.
  - cbn. lia.
  - exact L.
  - cbn [Nat.add] in Hc. rewrite length_slice_1_m1 in Hc.
    exists offs. split; [reflexivity|]. split; [exact Hk|].
    split; [|split; [exact Hn | split; [exact Hc|]]].
    + rewrite (find_spans_length _ _ _ _ S) in Hl. exact Hl.
    + intros G. rewrite Hc, !in_seq. split; lia.
Qed.

(** C4.  When, the tokenizer having returned, a token of a Document is
    not found in the text from the end of the span matched for the
    token before it, the alignment raises [AttributeError] (the failed
    search gives [None], which has no span: the spec's AlignmentError),
    so does the pass over the Document, which attaches nothing to it,
    and so does the pass over a corpus in which the Documents before it
    succeed: that Document and those after it are left as they were. *)
Theorem C4_token_not_found_raises
  (d : Doc) (txt : string) (offset_mapping : list (nat * nat))
  (pre post : list string) (t : string) (e : nat) :
  Document.text d = Some txt ->
  tokenizer_offsets (Some txt) = inr offset_mapping ->
  Document.tokens d = pre ++ t :: post ->
  end_after txt pre 0 = Some e ->
  str_find t (str_drop e txt) = None ->
  align tokenizer_offsets d = inl AttributeError
  /\ embed_doc tokenizer_offsets encoder mean_rows encoder_name d
     = inl AttributeError
  /\ forall (self : Corpus) ds1 ds2,
       docs self = ds1 ++ d :: ds2 ->
       Forall (fun d0 =>
                 exists d0',
                   embed_doc tokenizer_offsets encoder mean_rows
                     encoder_name d0 = inr d0') ds1 ->
       exists ds1',
         add_context_embs tokenizer_offsets encoder mean_rows
           encoder_name self
         = (with_docs self (ds1' ++ d :: ds2), Some AttributeError).
Proof.
  intros Ht Hk Htoks He Hf.
  assert (A : align tokenizer_offsets d = inl AttributeError).
  { unfold align. rewrite Ht, Hk. cbn [bind]. rewrite Htoks.
    now rewrite (find_spans_not_found txt pre post t 0 e He Hf). }
  assert (B : embed_doc tokenizer_offsets encoder mean_rows encoder_name d
              = inl AttributeError).
  { unfold embed_doc. now rewrite A. }
  split; [exact A|]. split; [exact B|].
  intros self ds1 ds2 Hd F. unfold add_context_embs. rewrite Hd.
  destruct (update_each_app_fail _ d AttributeError ds2 B ds1 F)
    as (ds1' & U & _).
  exists ds1'. now rewrite U.
Qed.

End Alignment.

(** ** Lemma scripts: counting and ranking *)

Section SortFacts.

Context {A : Type} (key : A -> nat).

Lemma insert_desc_perm (x : A) (l : list A) :
  Permutation (Sorting.insert_desc key x l) (x :: l).
Proof.
  induction l as [|y l IH]; cbn [Sorting.insert_desc]; [reflexivity|].
  destruct (Nat.ltb (key x) (key y)); [|reflexivity].
  rewrite IH. apply perm_swap.
Qed.

Lemma sorted_desc_perm (l : list A) :
  Permutation (Sorting.sorted_desc key l) l.
Proof.
  induction l as [|x l IH]; cbn [Sorting.sorted_desc fold_right];
    [reflexivity|].
  fold (Sorting.sorted_desc key l). rewrite insert_desc_perm. now constructor.
Qed.

Lemma insert_desc_sorted (x : A) (l : list A) :
  StronglySorted (fun a b => key b <= key a) l ->
  StronglySorted (fun a b => key b <= key a) (Sorting.insert_desc key x l).
Proof.
  induction l as [|y l IH]; intros S; cbn [Sorting.insert_desc].
  - repeat constructor.
  - inversion S as [|? ? S' F]; subst.
    destruct (Nat.ltb_spec (key x) (key y)) as [L|L].
    + constructor; [now apply IH|].
      apply Forall_forall. intros z Hz.
      apply (Permutation_in _ (insert_desc_perm x l)) in Hz.
      destruct Hz as [<-|Hz]; [lia|].
      rewrite Forall_forall in F. now apply F.
    + constructor; [exact S|]. constructor; [exact L|].
      rewrite Forall_forall in F |- *. intros z Hz.
      specialize (F z Hz). lia.
Qed.

Lemma sorted_desc_sorted (l : list A) :
  StronglySorted (fun a b => key b <= key a) (Sorting.sorted_desc key l).
Proof.
  induction l as [|x l IH]; cbn [Sorting.sorted_desc fold_right];
    [constructor|].
  now apply insert_desc_sorted.
Qed.

(** The sort is stable: elements of equal key keep their order. *)
Lemma insert_desc_stable (c : nat) (x : A) (l : list A) :
  filter (fun a => Nat.eqb (key a) c) (Sorting.insert_desc key x l)
  = filter (fun a => Nat.eqb (key a) c) (x :: l).
Proof.
  induction l as [|y l IH]; cbn [Sorting.insert_desc]; [reflexivity|].
  destruct (Nat.ltb_spec (key x) (key y)) as [L|L]; [|reflexivity].
  cbn [filter] in *. rewrite IH.
  destruct (Nat.eqb_spec (key x) c) as [Ex|Ex];
    destruct (Nat.eqb_spec (key y) c) as [Ey|Ey]; try reflexivity.
  lia.
Qed.

Lemma sorted_desc_stable (c : nat) (l : list A) :
  filter (fun a => Nat.eqb (key a) c) (Sorting.sorted_desc key l)
  = filter (fun a => Nat.eqb (key a) c) l.
Proof.
  induction l as [|x l IH]; cbn [Sorting.sorted_desc fold_right];
    [reflexivity|].
  fold (Sorting.sorted_desc key l). rewrite insert_desc_stable.
  cbn [filter]. now rewrite IH.
Qed.

End SortFacts.

Section CounterFacts.

Local Abbreviation incr := (PyDict.incr String.eqb).

Lemma incr_sum (c : list (string * nat)) (k : string) :
  list_sum (PyDict.values (incr c k)) = S (list_sum (PyDict.values c)).
Proof.
  unfold PyDict.incr, PyDict.values, list_sum.
  induction c as [|[k' v] c IH]; cbn [PyDict.get PyDict.set]; [reflexivity|].
  destruct (String.eqb k' k); cbn [map snd fold_right]; [lia|].
  rewrite IH. lia.
Qed.

Lemma incr_keys (c : list (string * nat)) (k : string) :
  PyDict.keys (incr c k)
  = if existsb (String.eqb k) (PyDict.keys c) then PyDict.keys c
    else PyDict.keys c ++ [k].
Proof.
  unfold PyDict.incr, PyDict.keys.
  induction c as [|[k' v] c IH]; cbn [PyDict.get PyDict.set map fst existsb];
    [reflexivity|].
  rewrite (String.eqb_sym k k').
  destruct (String.eqb k' k); cbn [map fst orb]; [reflexivity|].
  rewrite IH. now destruct (existsb (String.eqb k) (map fst c)).
Qed.

Lemma incr_count (c : list (string * nat)) (k k' : string) :
  count_of (incr c k) k'
  = if String.eqb k k' then S (count_of c k') else count_of c k'.
Proof.
  unfold count_of, PyDict.incr.
  induction c as [|[k0 v] c IH]; cbn [PyDict.get PyDict.set].
  - rewrite (String.eqb_sym k k'). now destruct (String.eqb k' k).
  - destruct (String.eqb_spec k0 k) as [->|N0]; cbn [PyDict.get].
    + destruct (String.eqb k k'); reflexivity.
    + destruct (String.eqb_spec k0 k') as [->|N1].
      * destruct (String.eqb_spec k k') as [->|]; [contradiction|reflexivity].
      * exact IH.
Qed.

Lemma existsb_eqb_In (k : string) (l : list string) :
  existsb (String.eqb k) l = true <-> In k l.
Proof.
  rewrite existsb_exists. split.
  - intros (x & Hx & E). apply String.eqb_eq in E. now subst.
  - intros H. exists k. split; [exact H | apply String.eqb_refl].
Qed.

Lemma incr_NoDup (c : list (string * nat)) (k : string) :
  NoDup (PyDict.keys c) -> NoDup (PyDict.keys (incr c k)).
Proof.
  intros H. rewrite incr_keys.
  destruct (existsb (String.eqb k) (PyDict.keys c)) eqn:E; [exact H|].
  apply NoDup_app; [exact H | repeat constructor; intros [] |].
  intros x Hx [<-|[]].
  apply existsb_eqb_In in Hx. congruence.
Qed.

(** The counter after counting the scripts [l]. *)
Lemma counter_fold (l : list string) :
  forall c,
    NoDup (PyDict.keys c) ->
    let c' := fold_left incr l c in
    NoDup (PyDict.keys c')
    /\ list_sum (PyDict.values c') = length l + list_sum (PyDict.values c)
    /\ (forall k, In k (PyDict.keys c') <-> In k l \/ In k (PyDict.keys c))
    /\ (forall k,
          count_of c' k = count_occ string_dec l k + count_of c k).
Proof.
  induction l as [|x l IH]; intros c ND; cbn [fold_left].
  - cbn. repeat split; auto. intros [[]|H]; exact H.
  - destruct (IH (incr c x) (incr_NoDup c x ND)) as (N & S' & K & C).
    cbn zeta in *. split; [exact N|]. split; [|split].
    + rewrite S', incr_sum. cbn [length]. lia.
    + intros k. rewrite K, incr_keys. cbn [In].
      destruct (existsb (String.eqb x) (PyDict.keys c)) eqn:E.
      * apply existsb_eqb_In in E. intuition (subst; auto).
      * rewrite in_app_iff. cbn [In]. intuition (subst; auto).
    + intros k. rewrite C, incr_count. cbn [count_occ].
      destruct (string_dec x k) as [->|N0].
      * rewrite String.eqb_refl. lia.
      * apply String.eqb_neq in N0. now rewrite N0.
Qed.

End CounterFacts.

Section RankFacts.

Lemma index_of_nth (k : string) (l : list string) :
  forall i, Torchtext.index_of k l = Some i -> nth_error l i = Some k.
Proof.
  induction l as [|x l IH]; intros i H; cbn [Torchtext.index_of] in H;
    [discriminate H|].
  destruct (String.eqb_spec x k) as [->|N].
  - inversion H. reflexivity.
  - destruct (Torchtext.index_of k l) as [j|]; [|discriminate H].
    inversion H. cbn. now apply IH.
Qed.

Lemma index_of_iff (k : string) (l : list string) (i : nat) :
  NoDup l ->
  (Torchtext.index_of k l = Some i <-> nth_error l i = Some k).
Proof.
  intros ND. split; [apply index_of_nth|].
  intros H. destruct (index_of_In k l (nth_error_In _ _ H)) as (j & E & Hj).
  rewrite E. f_equal. rewrite NoDup_nth_error in ND. apply ND.
  - apply nth_error_Some. congruence.
  - congruence.
Qed.

Lemma rank_items (ranked : list (string * nat)) :
  forall s,
    map (fun ikc : nat * (string * nat) => (fst (snd ikc), fst ikc))
      (combine (seq s (length ranked)) ranked)
    = combine (map fst ranked) (seq s (length (map fst ranked))).
Proof.
  induction ranked as [|x l IH]; intros s; [reflexivity|].
  cbn [length seq combine map fst snd]. now rewrite IH.
Qed.

(** The second pass ranks the counter by a stable descending sort and
    numbers the scripts in the order of the ranking. *)
Lemma rank_scripts_spec (counter : list (string * nat)) :
  NoDup (PyDict.keys counter) ->
  is_ranking counter (Sorting.sorted_desc snd counter)
    (rank_scripts counter) (PyDict.keys (rank_scripts counter)).
Proof.
  intros ND. set (ranked := Sorting.sorted_desc snd counter).
  assert (P : Permutation ranked counter) by apply sorted_desc_perm.
  assert (NDr : NoDup (map fst ranked)).
  { eapply Permutation_NoDup; [|exact ND].
    apply Permutation_map. now symmetry. }
  assert (E : rank_scripts counter
              = combine (map fst ranked)
                  (seq 0 (length (map fst ranked)))).
  { unfold rank_scripts, enumerate, PyDict.items. fold ranked.
    rewrite rank_items. apply of_items_distinct; [exact String.eqb_eq|].
    now rewrite map_fst_combine_seq. }
  assert (Ek : PyDict.keys (rank_scripts counter) = map fst ranked).
  { rewrite E. apply map_fst_combine_seq. }
  unfold is_ranking. rewrite Ek.
  split; [exact P|].
  split; [apply sorted_desc_sorted|].
  split; [intros c; apply sorted_desc_stable|].
  split; [reflexivity|].
  split; [exact NDr|].
  split; [exact E|].
  intros script i. rewrite E, get_combine_seq.
  rewrite <- (index_of_iff script _ i NDr).
  destruct (Torchtext.index_of script (map fst ranked)); cbn; [|reflexivity].
  reflexivity.
Qed.

End RankFacts.

Section LemmaTags.

Context {Vec : Type}.
Variable get_lemma_script : string -> string -> string.
Local Abbreviation Doc := (Document.t Vec).
Local Abbreviation Corpus := (@DocumentCorpus Vec).
Local Abbreviation gen := get_lemma_script.

Lemma label_token_proj acc (p : string * string) :
  fst (fst (label_token gen acc p))
  = PyDict.incr String.eqb (fst (fst acc)) (gen (fst p) (snd p))
  /\ snd (label_token gen acc p) = snd acc ++ [gen (fst p) (snd p)].
Proof. destruct acc as [[c e] ds], p as [wf lm]. now split. Qed.

Lemma label_tokens_fold (pairs : list (string * string)) :
  forall acc,
    fst (fst (fold_left (label_token gen) pairs acc))
    = fold_left (PyDict.incr String.eqb)
        (map (fun p => gen (fst p) (snd p)) pairs) (fst (fst acc))
    /\ snd (fold_left (label_token gen) pairs acc)
       = snd acc ++ map (fun p => gen (fst p) (snd p)) pairs.
Proof.
  induction pairs as [|p pairs IH]; intros acc.
  - cbn. now rewrite app_nil_r.
  - cbn [fold_left map]. destruct (IH (label_token gen acc p)) as [H1 H2].
    destruct (label_token_proj acc p) as [P1 P2].
    rewrite H1, H2, P1, P2. rewrite <- app_assoc. now split.
Qed.

Lemma label_doc_proj acc (d : Doc) :
  fst (fst (label_doc gen acc d))
  = fold_left (PyDict.incr String.eqb) (doc_scripts gen d) (fst (fst acc))
  /\ snd (label_doc gen acc d) = snd acc ++ [doc_scripts gen d].
Proof.
  destruct acc as [[c e] dss]. unfold label_doc.
  destruct (label_tokens_fold
              (combine (Document.tokens d) (Document.lemmas d)) (c, e, []))
    as [H1 H2].
  destruct (fold_left (label_token gen)
              (combine (Document.tokens d) (Document.lemmas d))
              (c, e, [])) as [[c1 e1] sc].
  cbn [fst snd app] in *. subst c1 sc. now split.
Qed.

Lemma label_docs_fold (ds : list Doc) :
  forall acc,
    fst (fst (fold_left (label_doc gen) ds acc))
    = fold_left (PyDict.incr String.eqb) (all_scripts gen ds)
        (fst (fst acc))
    /\ snd (fold_left (label_doc gen) ds acc)
       = snd acc ++ map (doc_scripts gen) ds.
Proof.
  induction ds as [|d ds IH]; intros acc.
  - cbn. now rewrite app_nil_r.
  - cbn [fold_left map]. destruct (IH (label_doc gen acc d)) as [H1 H2].
    destruct (label_doc_proj acc d) as [P1 P2].
    rewrite H1, H2, P1, P2. unfold all_scripts. cbn [map concat].
    rewrite fold_left_app. rewrite <- app_assoc. now split.
Qed.

Lemma script_ids (s2i : list (string * nat)) (sc : list string) :
  (forall s, In s sc -> In s (PyDict.keys s2i)) ->
  exists ids,
    mapM (script_id s2i) sc = inr ids
    /\ Forall2 (fun script i => PyDict.get String.eqb s2i script = Some i)
         sc ids.
Proof.
  induction sc as [|s sc IH]; intros H.
  - exists []. now split.
  - destruct IH as (ids & M & F); [intros; apply H; now right|].
    destruct (PyDict.get String.eqb s2i s) as [i|] eqn:G.
    + exists (i :: ids). cbn [mapM]. unfold script_id at 1.
      rewrite G, M. split; [reflexivity | now constructor].
    + apply (dict_get_None String.eqb String.eqb_eq) in G.
      exfalso. apply G, H. now left.
Qed.

Lemma tag_docs_spec (s2i : list (string * nat)) (ds : list Doc) :
  (forall s, In s (all_scripts gen ds) -> In s (PyDict.keys s2i)) ->
  exists ds',
    tag_docs s2i ds (map (doc_scripts gen) ds) = (ds', None)
    /\ Forall2 (tagged_with gen s2i) ds ds'.
Proof.
  induction ds as [|d ds IH]; intros H.
  - exists []. now split.
  - unfold all_scripts in H. cbn [map concat] in H.
    destruct IH as (ds' & T & F).
    { intros s Hs. apply H, in_or_app. now right. }
    destruct (script_ids s2i (doc_scripts gen d)) as (ids & M & Fi).
    { intros s Hs. apply H, in_or_app. now left. }
    exists (Document.set_lemma_tags d ids :: ds').
    cbn [map tag_docs]. rewrite M, T.
    split; [reflexivity|]. constructor; [|exact F].
    now exists ids.
Qed.

(** The three passes of [set_lemma_tags] together: the call never
    raises. *)
Lemma set_lemma_tags_spec (self : Corpus) :
  let counter :=
    fold_left (PyDict.incr String.eqb) (all_scripts gen (docs self)) [] in
  let s2i := rank_scripts counter in
  exists examples ds',
    set_lemma_tags gen self
    = (with_scripts self ds' counter examples s2i (PyDict.keys s2i), None)
    /\ Forall2 (tagged_with gen s2i) (docs self) ds'.
Proof.
  intros counter s2i. unfold set_lemma_tags.
  destruct (label_docs_fold (docs self) ([], [], [])) as [H1 H2].
  destruct (fold_left (label_doc gen) (docs self) ([], [], []))
    as [[c e] dss].
  cbn [fst snd app] in H1, H2. subst c dss. fold counter. fold s2i.
  destruct (counter_fold (all_scripts gen (docs self)) [])
    as (ND & _ & K & _); [constructor|].
  fold counter in ND, K.
  destruct (rank_scripts_spec counter ND) as (P & _ & _ & I & _).
  fold s2i in I.
  destruct (tag_docs_spec s2i (docs self)) as (ds' & T & F).
  { intros s Hs. rewrite I.
    apply (Permutation_in s (Permutation_map fst (Permutation_sym P))).
    apply K. now left. }
  exists e, ds'. rewrite T. now split.
Qed.

Lemma tagged_with_len (s2i : list (string * nat)) (a b : list Doc) :
  Forall2 (tagged_with gen s2i) a b ->
  map Document.len b = map Document.len a.
Proof.
  intros F. induction F as [|d d' a b (ids & -> & _) F IH]; [reflexivity|].
  cbn [map]. now rewrite IH.
Qed.

Lemma all_scripts_length (ds : list Doc) :
  Forall doc_wf ds ->
  length (all_scripts gen ds) = list_sum (map Document.len ds).
Proof.
  intros F. induction F as [|d ds (_ & W & _) F IH]; [reflexivity|].
  unfold all_scripts in *. cbn [map concat list_sum fold_right].
  rewrite length_app, IH. f_equal.
  unfold doc_scripts, Document.len, Document.tokens, Document.lemmas.
  rewrite length_map, length_combine, W. apply Nat.min_id.
Qed.

(** C6.  On a corpus whose Trees are well formed, [set_lemma_tags]
    returns, and the counts of [script_counter] add up to the number of
    tokens of all the Documents of the corpus. *)
Theorem C6_script_counts_sum_to_tokens (self : Corpus) :
  Forall doc_wf (docs self) ->
  exists self' counter,
    set_lemma_tags gen self = (self', None)
    /\ script_counter self' = Some counter
    /\ list_sum (PyDict.values counter)
       = list_sum (map Document.len (docs self')).
Proof.
  intros W. destruct (set_lemma_tags_spec self) as (e & ds' & H & F).
  cbn zeta in H, F. eexists. eexists. split; [exact H|].
  split; [reflexivity|]. cbn [docs with_scripts].
  rewrite (tagged_with_len _ _ _ F).
  destruct (counter_fold (all_scripts gen (docs self)) [])
    as (_ & S' & _); [constructor|].
  cbn zeta in S'. rewrite S'. cbn [PyDict.values map list_sum fold_right].
  rewrite Nat.add_0_r. now apply all_scripts_length.
Qed.

End LemmaTags.

Section LemmaTagsDeterminism.

Context {Vec : Type}.
Local Abbreviation Doc := (Document.t Vec).
Local Abbreviation Corpus := (@DocumentCorpus Vec).

Lemma fold_left_pointwise {A B} (f g : A -> B -> A) (l : list B) :
  (forall a b, f a b = g a b) ->
  forall a, fold_left f l a = fold_left g l a.
Proof.
  intros H. induction l as [|b l IH]; intros a; [reflexivity|].
  cbn [fold_left]. now rewrite H, IH.
Qed.

Lemma set_lemma_tags_pointwise (gen1 gen2 : string -> string -> string)
  (self : Corpus) :
  (forall wf lm, gen1 wf lm = gen2 wf lm) ->
  set_lemma_tags gen1 self = set_lemma_tags gen2 self.
Proof.
  intros H.
  assert (T : forall acc p, label_token gen1 acc p = label_token gen2 acc p).
  { intros [[c e] ds] [wf lm]. unfold label_token. now rewrite H. }
  assert (D : forall acc (d : Doc),
             label_doc gen1 acc d = label_doc gen2 acc d).
  { intros [[c e] dss] d. unfold label_doc.
    now rewrite (fold_left_pointwise _ _ _ T). }
  unfold set_lemma_tags. now rewrite (fold_left_pointwise _ _ _ D).
Qed.

(** C5.  The labeling pass is a function of the corpus and of the
    scripts the generator gives: two generators that give the same
    scripts lead to the same corpus, [script_to_id] and class ids
    included.  The pass returns; [script_counter] holds, for each
    script that occurs, the number of tokens that have it; the ranking
    lists the scripts by descending count, scripts of equal count in the
    order of [script_counter]; [script_to_id] numbers them 0, 1, 2, ...
    in this order, [id_to_script] being its inverse; and every token
    gets the id of its script. *)
Theorem C5_lemma_ranking_deterministic
  (gen1 gen2 : string -> string -> string) (self : Corpus) :
  (forall wf lm, gen1 wf lm = gen2 wf lm) ->
  set_lemma_tags gen1 self = set_lemma_tags gen2 self
  /\ exists self' counter ranked s2i i2s,
      set_lemma_tags gen1 self = (self', None)
      /\ script_counter self' = Some counter
      /\ script_to_id self' = Some s2i
      /\ id_to_script self' = Some i2s
      /\ (forall script,
            In script (PyDict.keys counter)
            <-> In script (all_scripts gen1 (docs self)))
      /\ (forall script,
            count_of counter script
            = count_occ string_dec (all_scripts gen1 (docs self)) script)
      /\ is_ranking counter ranked s2i i2s
      /\ Forall2 (tagged_with gen1 s2i) (docs self) (docs self').
Proof.
  intros H. split; [now apply set_lemma_tags_pointwise|].
  destruct (set_lemma_tags_spec gen1 self) as (e & ds' & E & F).
  cbn zeta in E, F.
  destruct (counter_fold (all_scripts gen1 (docs self)) [])
    as (ND & _ & K & C); [constructor|].
  cbn zeta in ND, K, C.
  do 5 eexists. split; [exact E|].
  cbn [script_counter script_to_id id_to_script docs with_scripts].
  split; [reflexivity|]. split; [reflexivity|]. split; [reflexivity|].
  split; [|split; [|split; [|exact F]]].
  - intros script. rewrite K. cbn. tauto.
  - intros script. rewrite C. cbn. lia.
  - now apply rank_scripts_spec.
Qed.

End LemmaTagsDeterminism.

(** ** The statements at concrete inputs *)

Lemma C3_wrong_field_count_aborts_parse_witness :
  exists ds,
    parse_tree_rows (Vec:=unit) new_corpus [["1"; "dog"]]
    = (with_docs new_corpus ds, Some ValueError).
Proof.
  apply (C3_wrong_field_count_aborts_parse new_corpus [["1"; "dog"]]
           ["1"; "dog"]).
  - now left.
  - reflexivity.
  - cbn. lia.
Defined.

Lemma C4_token_not_found_raises_witness :
  align example_tokenizer (sentence "the dog" ["the"; "cat"])
  = inl AttributeError.
Proof.
  apply (C4_token_not_found_raises example_tokenizer example_encoder
           (fun _ => tt) "Encoder" (sentence "the dog" ["the"; "cat"])
           "the dog" [(0, 0); (0, 3); (4, 7); (0, 0)] ["the"] [] "cat" 3);
    reflexivity.
Defined.

Lemma C5_lemma_ranking_deterministic_witness :
  let self := fst (parse_tree_rows (Vec:=unit) new_corpus example_rows) in
  set_lemma_tags suffix_script self
  = set_lemma_tags (fun wf lm => (suffix_script wf lm ++ "")%string) self.
Proof.
  apply C5_lemma_ranking_deterministic.
  intros wf lm. generalize (suffix_script wf lm). intros s.
  induction s as [|a s IH]; [reflexivity|]. cbn. now rewrite <- IH.
Defined.

Lemma C6_script_counts_sum_to_tokens_witness :
  let self := fst (parse_tree_rows (Vec:=unit) new_corpus example_rows) in
  exists self' counter,
    set_lemma_tags suffix_script self = (self', None)
    /\ script_counter self' = Some counter
    /\ list_sum (PyDict.values counter)
       = list_sum (map Document.len (docs self')).
Proof.
  apply C6_script_counts_sum_to_tokens.
  vm_compute. repeat constructor.
Defined.

Lemma C7_tree_sequences_parallel_witness :
  Forall doc_wf
    (docs (fst (parse_tree_rows (Vec:=unit) new_corpus example_rows))).
Proof.
  apply (C7_tree_sequences_parallel new_corpus example_rows).
  constructor.
Defined.

Lemma C8_buckets_shifted_by_one_witness :
  exists offset_mapping,
    example_tokenizer (Document.text (sentence "the dog" ["the"; "dog"]))
    = inr offset_mapping
    /\ PyDict.keys [(0, [0]); (1, [1])] = seq 0 2
    /\ 2 <= Document.len (sentence "the dog" ["the"; "dog"])
    /\ Forall (fun bucket => bucket <> [])
         (PyDict.values [(0, [0]); (1, [1])])
    /\ concat (PyDict.values [(0, [0]); (1, [1])])
       = seq 0 (length offset_mapping - 2)
    /\ (3 <= length offset_mapping ->
        In 0 (concat (PyDict.values [(0, [0]); (1, [1])]))
        /\ ~ In (length offset_mapping - 2)
               (concat (PyDict.values [(0, [0]); (1, [1])]))).
Proof.
  apply (C8_buckets_shifted_by_one example_tokenizer
           (sentence "the dog" ["the"; "dog"]) [(0, [0]); (1, [1])]).
  reflexivity.
Defined.

Lemma C10_blank_rows_append_empty_documents_witness :
  rows_ok (csv_reader (example_input ++ newline)%string) = true
  /\ csv_plain (example_input ++ newline)%string = true
  /\ exists before,
      map symbolic
        (docs (fst (parse_tree_file (Vec:=unit) new_corpus
                      (example_input ++ newline)%string)))
      = before ++ [(None, None, Tree.empty)].
Proof.
  assert (H : rows_ok (csv_reader (example_input ++ newline)%string) = true)
    by (vm_compute; reflexivity).
  assert (P : csv_plain (example_input ++ newline)%string = true)
    by (vm_compute; reflexivity).
  split; [exact H|]. split; [exact P|].
  exact (proj1 (proj2 (proj2 (C10_blank_rows_append_empty_documents
                                new_corpus _ H)))
           (String.concat newline (map (String.concat tab) example_rows))
           P eq_refl).
Defined.

(** C3, as stated, fails: a row whose first field holds the sentence-id
    marker after two other characters is a token row in the words of
    the specification, where a comment line begins with its marker; it
    has two fields, and the parse takes it for a sentence-id row and
    returns. *)
Lemma C3_counterexample :
  exists row,
    nth_error marker_inside_rows 0 = Some row
    /\ spec_token_row row = true
    /\ length row <> 10
    /\ is_tree_row row = false
    /\ snd (parse_tree_rows (Vec:=unit) new_corpus marker_inside_rows)
       = None
    /\ map Document.sent_id
         (docs (fst (parse_tree_rows (Vec:=unit) new_corpus
                       marker_inside_rows)))
       = [Some "= abc"].
Proof.
  eexists. split; [reflexivity|].
  split; [reflexivity|]. split; [cbn; lia|].
  split; [reflexivity|]. split; vm_compute; reflexivity.
Qed.

(** C10, as stated, fails: a file that ends with a blank line and holds
    a row of two fields before it gets no Document at all, the scan
    having stopped at that row. *)
Lemma C10_counterexample :
  exists content,
    content = ("1" ++ tab ++ "dog" ++ newline ++ newline)%string
    /\ csv_plain content = true
    /\ csv_reader content = [["1"; "dog"]; []]
    /\ parse_tree_file (Vec:=unit) new_corpus content
       = (new_corpus, Some ValueError)
    /\ ~ exists d,
          In d (docs (fst (parse_tree_file (Vec:=unit) new_corpus content)))
          /\ Document.len d = 0.
Proof.
  eexists. split; [reflexivity|].
  split; [vm_compute; reflexivity|].
  split; [vm_compute; reflexivity|].
  split; [vm_compute; reflexivity|].
  intros (d & H & _). vm_compute in H. exact H.
Qed.

(** ** Further properties: what the Trees hold *)

Lemma str_split_no_sep (sep : ascii) (s : string) :
  Forall (fun piece => ~ In sep (list_ascii_of_string piece))
    (str_split sep s).
Proof.
  induction s as [|c s IH]; cbn [str_split].
  - constructor; [intros [] | constructor].
  - destruct (Ascii.eqb_spec c sep) as [->|N].
    + constructor; [intros [] | exact IH].
    + destruct (str_split sep s) as [|h t]; cbn [list_ascii_of_string].
      * constructor; [|constructor]. intros [H|[]]. now apply N.
      * inversion IH as [|? ? Hh Ht]; subst. constructor; [|exact Ht].
        cbn [list_ascii_of_string]. intros [H|H]; [now apply N | now apply Hh].
Qed.

Lemma str_join_cons (sep x y : string) (l : list string) :
  String.concat sep (x :: y :: l)
  = (x ++ sep ++ String.concat sep (y :: l))%string.
Proof. reflexivity. Qed.

Lemma str_split_join (sep : ascii) (s : string) :
  String.concat (String sep EmptyString) (str_split sep s) = s.
Proof.
  induction s as [|c s IH]; cbn [str_split]; [reflexivity|].
  destruct (str_split_cons sep s) as (h & t & E). rewrite E in *.
  destruct (Ascii.eqb c sep) eqn:Ec.
  - apply Ascii.eqb_eq in Ec. subst c.
    rewrite str_join_cons, IH. reflexivity.
  - destruct t as [|h' t].
    + cbn [String.concat] in *. now rewrite IH.
    + rewrite str_join_cons. rewrite str_join_cons in IH.
      cbn [String.append] in *. now rewrite IH.
Qed.

Lemma tree_consistent_empty : tree_consistent Tree.empty.
Proof. repeat split. Qed.

Lemma Tree_add_consistent (t t' : Tree.t) (branch : list string) :
  tree_consistent t -> Tree.add t branch = inr t' -> tree_consistent t'.
Proof.
  intros (H1 & H2 & H3) H.
  apply Tree_add_inv in H. destruct H as (_ & R & T & L & M).
  unfold tree_consistent, row_triple in *.
  rewrite R, T, L, M, H1, H2, H3, !map_app. cbn. auto.
Qed.

Lemma tree_consistent_wf (t : Tree.t) : tree_consistent t -> tree_wf t.
Proof.
  intros (H1 & H2 & H3). unfold tree_wf.
  rewrite H1, H2, H3, !length_map. auto.
Qed.

Section TreeInvariant.

Context {Vec : Type}.
Local Abbreviation Doc := (Document.t Vec).
Local Abbreviation Corpus := (@DocumentCorpus Vec).

Variable P : Tree.t -> Prop.
Hypothesis P_empty : P Tree.empty.
Hypothesis P_add :
  forall t branch t', P t -> Tree.add t branch = inr t' -> P t'.

Lemma parse_row_tree_inv (st st' : list Doc * Doc) (row : list string) :
  parse_row st row = inr st' ->
  Forall (fun d => P (Document.tree d)) (fst st ++ [snd st]) ->
  Forall (fun d => P (Document.tree d)) (fst st' ++ [snd st']).
Proof.
  destruct st as [ds cur]. intros H F. cbn [fst snd] in F.
  apply Forall_app in F. destruct F as [F1 F2].
  inversion F2 as [|? ? Pc _]; subst.
  destruct (is_tree_row row) eqn:E.
  - rewrite (parse_row_tree_row ds cur row E) in H.
    destruct (Tree.add (Document.tree cur) row) as [e|tr] eqn:A;
      cbn [bind ret] in H; [discriminate|].
    inversion H; subst; clear H. cbn [fst snd].
    apply Forall_app. split; [exact F1|].
    constructor; [|constructor]. cbn. eapply P_add; eauto.
  - destruct row as [|row0 rest].
    + cbn in H. inversion H; subst. cbn [fst snd].
      apply Forall_app. split; [apply Forall_app; split; assumption|].
      constructor; [exact P_empty | constructor].
    + destruct (parse_row_meta ds cur (row0 :: rest)) as (cur' & Q & T);
        [discriminate | exact E |].
      rewrite Q in H. inversion H; subst. cbn [fst snd].
      apply Forall_app. split; [exact F1|].
      constructor; [|constructor]. now rewrite T.
Qed.

Lemma parse_rows_tree_inv (rows : list (list string)) :
  forall (st st' : list Doc * Doc) o,
    parse_rows rows st = (st', o) ->
    Forall (fun d => P (Document.tree d)) (fst st ++ [snd st]) ->
    Forall (fun d => P (Document.tree d)) (fst st' ++ [snd st']).
Proof.
  induction rows as [|row rows IH]; intros st st' o H F; cbn [parse_rows] in H.
  - inversion H; subst. exact F.
  - destruct (parse_row st row) as [e|st1] eqn:E.
    + inversion H; subst. exact F.
    + eapply IH; [exact H|]. eapply parse_row_tree_inv; eauto.
Qed.

Lemma tree_inv_symbolic (a b : list Doc) :
  map symbolic a = map symbolic b ->
  Forall (fun d => P (Document.tree d)) a ->
  Forall (fun d => P (Document.tree d)) b.
Proof.
  intros H F.
  assert (G : forall l : list Doc,
             Forall (fun d => P (Document.tree d)) l
             <-> Forall (fun s => P (snd s)) (map symbolic l)).
  { intros l. rewrite Forall_map. reflexivity. }
  apply G. rewrite <- H. now apply G.
Qed.

(** An invariant of the Trees that [Tree.add] keeps holds of every
    Document of the corpus after [parse_tree_file], whatever its
    outcome. *)
Lemma parse_tree_rows_tree_inv (self : Corpus) (rows : list (list string)) :
  Forall (fun d => P (Document.tree d)) (docs self) ->
  Forall (fun d => P (Document.tree d))
    (docs (fst (parse_tree_rows self rows))).
Proof.
  intros W.
  assert (W0 : Forall (fun d : Doc => P (Document.tree d))
                 (docs self ++ [Document.new])).
  { apply Forall_app. split; [exact W|].
    constructor; [exact P_empty | constructor]. }
  destruct (parse_tree_rows_cases self rows)
    as [[_ (added & cur & Q & _ & S & _)] | [_ (ds & cur & Q & R)]].
  - eapply tree_inv_symbolic; [symmetry; exact S|].
    apply parse_rows_tree_inv in Q; [|exact W0].
    cbn [fst snd] in Q. now rewrite <- app_assoc in Q.
  - rewrite R. cbn [fst docs with_docs].
    apply parse_rows_tree_inv in Q; [|exact W0].
    cbn [fst snd] in Q. apply Forall_app in Q. tauto.
Qed.

End TreeInvariant.

Lemma prefix_app (m x : string) : String.prefix m (m ++ x) = true.
Proof.
  induction m as [|c m IH]; cbn [String.append String.prefix].
  - now destruct x.
  - destruct (ascii_dec c c); [exact IH | contradiction].
Qed.

Lemma str_in_prefix (m x : string) : str_in m (m ++ x) = true.
Proof.
  unfold str_in. pose proof (prefix_app m x) as H.
  destruct (m ++ x)%string; cbn [str_find]; now rewrite H.
Qed.

Lemma str_drop_app (m x : string) : str_drop (String.length m) (m ++ x) = x.
Proof. induction m as [|c m IH]; [reflexivity | exact IH]. Qed.

Lemma py_getitem_nat {A} (xs : list A) (i : nat) :
  py_getitem xs (Z.of_nat i)
  = match nth_error xs i with
    | Some x => inr x
    | None => inl IndexError
    end.
Proof.
  unfold py_getitem.
  destruct (Z.ltb_spec (Z.of_nat i) 0) as [L|L]; [lia|].
  rewrite Nat2Z.id.
  destruct (Z.leb_spec 0 (Z.of_nat i)) as [_|L']; [|lia].
  destruct (Z.ltb_spec (Z.of_nat i) (Z.of_nat (length xs))) as [B|B];
    cbn [andb].
  - reflexivity.
  - destruct (nth_error xs i) eqn:E; [|reflexivity].
    assert (i < length xs) by (apply nth_error_Some; congruence). lia.
Qed.

Section ParseStructure.

Context {Vec : Type}.
Local Abbreviation Doc := (Document.t Vec).
Local Abbreviation Corpus := (@DocumentCorpus Vec).

(** Whatever its outcome, the scan only appends to the Documents it
    started from, at most one per blank row. *)
Lemma parse_rows_prefix (rows : list (list string)) :
  forall (ds ds' : list Doc) (cur cur' : Doc) o,
    parse_rows rows (ds, cur) = ((ds', cur'), o) ->
    exists added,
      ds' = ds ++ added
      /\ length added <= length (filter is_blank rows).
Proof.
  induction rows as [|row rows IH]; intros ds ds' cur cur' o H;
    cbn [parse_rows] in H.
  - inversion H; subst. exists []. rewrite app_nil_r. cbn. auto.
  - destruct (parse_row (ds, cur) row) as [e|[ds1 cur1]] eqn:E.
    + inversion H; subst. exists []. rewrite app_nil_r. cbn. split; [auto|lia].
    + destruct (IH _ _ _ _ _ H) as (added & -> & L).
      destruct row as [|row0 rest].
      * cbn in E. inversion E; subst.
        exists (cur :: added). rewrite <- app_assoc. cbn. split; [auto|lia].
      * assert (ds1 = ds).
        { destruct (is_tree_row (row0 :: rest)) eqn:T.
          - rewrite (parse_row_tree_row ds cur _ T) in E.
            destruct (Tree.add (Document.tree cur) (row0 :: rest));
              cbn [bind ret] in E; [discriminate|]. now inversion E.
          - destruct (parse_row_meta ds cur (row0 :: rest))
              as (c & Q & _); [discriminate | exact T |].
            rewrite Q in E. now inversion E. }
        subst ds1. exists added. split; [reflexivity | exact L].
Qed.

(** The Documents of the corpus after [parse_tree_file], up to the
    tensors: those the scan appended, and the one it was building when
    the scan ended without raising. *)
Lemma parse_tree_rows_docs (self : Corpus) (rows : list (list string)) :
  exists ds cur o,
    parse_rows rows (docs self, Document.new) = ((ds, cur), o)
    /\ map symbolic (docs (fst (parse_tree_rows self rows)))
       = map symbolic (match o with None => ds ++ [cur] | Some _ => ds end).
Proof.
  destruct (parse_tree_rows_cases self rows)
    as [[_ (added & cur & Q & _ & S & _)] | [_ (ds & cur & Q & R)]].
  - exists (docs self ++ added), cur, None. split; [exact Q|].
    rewrite S. now rewrite <- app_assoc.
  - exists ds, cur, (Some ValueError). split; [exact Q|]. now rewrite R.
Qed.

(** Token rows of ten fields, one after the other, extend the Tree of
    the Document being built by their triples. *)
Lemma parse_rows_token_rows (token_rows rest : list (list string)) :
  Forall (fun r => is_tree_row r = true /\ length r = 10) token_rows ->
  forall (ds : list Doc) (cur : Doc),
    parse_rows (token_rows ++ rest) (ds, cur)
    = parse_rows rest
        (ds,
         Document.with_tree cur
           (Tree.mk
              (Tree.raw (Document.tree cur) ++ map row_triple token_rows)
              (Tree.tokens (Document.tree cur)
               ++ map (fun r => nth 1 r EmptyString) token_rows)
              (Tree.lemmas (Document.tree cur)
               ++ map (fun r => nth 2 r EmptyString) token_rows)
              (Tree.morph_tags (Document.tree cur)
               ++ map (fun r => str_split ";" (nth 5 r EmptyString))
                    token_rows))).
Proof.
  intros F. induction F as [|r token_rows [T L] F IH]; intros ds cur.
  - cbn [app map]. rewrite !app_nil_r.
    destruct cur as [? ? [? ? ? ?] ? ? ? ? ? ?]. reflexivity.
  - cbn [app parse_rows]. rewrite (parse_row_tree_row ds cur r T).
    rewrite (Tree_add_ten _ r L). cbn [bind ret]. rewrite IH.
    cbn [Document.with_tree Document.tree Tree.raw Tree.tokens Tree.lemmas
           Tree.morph_tags map].
    rewrite <- !app_assoc. reflexivity.
Qed.

(** X1.  For every Document of the corpus after a parse, and every
    position below its length, [tree[i]] is the triple of the i-th
    token, the i-th lemma and the tag field whose split at [";"] is the
    i-th tag set: joining the tags with [";"] gives the field back, the
    tag set is not empty and no tag holds a [";"].  At a position from
    the length on, [tree[i]] raises [IndexError]. *)
Theorem tree_rows_agree_with_sequences
  (self : Corpus) (rows : list (list string)) (d : Doc) (i : nat) :
  Forall doc_consistent (docs self) ->
  In d (docs (fst (parse_tree_rows self rows))) ->
  (i < Document.len d ->
   exists wf lm tags,
     Tree_getitem (Document.tree d) (Z.of_nat i)
     = inr (wf, lm, String.concat ";" tags)
     /\ nth_error (Document.tokens d) i = Some wf
     /\ nth_error (Document.lemmas d) i = Some lm
     /\ nth_error (Document.morph_tags d) i = Some tags
     /\ tags <> []
     /\ Forall (fun tag => ~ In ";"%char (list_ascii_of_string tag)) tags)
  /\ (Document.len d <= i ->
      Tree_getitem (Document.tree d) (Z.of_nat i) = inl IndexError).
Proof.
  intros W HIn.
  pose proof (parse_tree_rows_tree_inv tree_consistent tree_consistent_empty
                (fun t b t' => Tree_add_consistent t t' b) self rows W) as C.
  rewrite Forall_forall in C. specialize (C d HIn).
  destruct C as (H1 & H2 & H3).
  unfold Tree_getitem, Document.len, Document.tokens, Document.lemmas,
    Document.morph_tags.
  rewrite py_getitem_nat, H1, H2, H3, length_map, !nth_error_map.
  split; intros L.
  - destruct (nth_error (Tree.raw (Document.tree d)) i) as [[[wf lm] mt]|] eqn:E.
    + exists wf, lm, (str_split ";" mt). cbn [option_map fst snd].
      rewrite str_split_join. repeat split; try reflexivity.
      * destruct (str_split_cons ";" mt) as (h & t & Es). rewrite Es.
        discriminate.
      * apply str_split_no_sep.
    + apply nth_error_None in E. lia.
  - assert (E : nth_error (Tree.raw (Document.tree d)) i = None)
      by now apply nth_error_None.
    now rewrite E.
Qed.

(** X2.  [parse_tree_file] only appends: whatever its outcome, the
    Documents that were in the corpus are still its first Documents, in
    the same order and with the same sentence id, text and Tree; and when
    no row has a wrong field count, the corpus has grown by one Document
    per blank row and one more. *)
Theorem parse_only_appends (self : Corpus) (rows : list (list string)) :
  exists added,
    map symbolic (docs (fst (parse_tree_rows self rows)))
    = map symbolic (docs self) ++ added
    /\ length added <= length (filter is_blank rows) + 1
    /\ (rows_ok rows = true ->
        corpus_len (fst (parse_tree_rows self rows))
        = corpus_len self + length (filter is_blank rows) + 1).
Proof.
  destruct (parse_tree_rows_docs self rows) as (ds & cur & o & Q & S).
  destruct (parse_rows_prefix rows _ _ _ _ _ Q) as (added & -> & L).
  destruct (parse_tree_rows_cases self rows)
    as [[E (added' & cur' & Q' & _ & S' & _ & N)] | [E _]].
  - exists (map symbolic (added' ++ [cur'])).
    rewrite S', !map_app. split; [reflexivity|].
    rewrite <- map_app, length_map, length_app, N. cbn. split; [lia|].
    intros _. unfold corpus_len.
    rewrite <- (length_map symbolic), S', length_map, !length_app, N.
    cbn. lia.
  - exists (map symbolic (match o with
                          | None => added ++ [cur]
                          | Some _ => added
                          end)).
    rewrite S. split; [|split; [|intros E'; congruence]].
    + destruct o; rewrite ?map_app, <- ?app_assoc; reflexivity.
    + rewrite length_map. destruct o; rewrite ?length_app; cbn; lia.
Qed.

(** X3.  A sentence written as a sentence-id row, a text row, token rows
    of ten fields and a blank row comes out as one Document with that
    id, that text and the Tree of these rows, right after the Documents
    the corpus had, whatever follows in the file; provided the text row
    does not hold the sentence-id marker, which the parser looks for
    first and anywhere in the field. *)
Theorem sentence_block_becomes_document
  (self : Corpus) (id txt : string) (id_more txt_more : list string)
  (token_rows rows_after : list (list string)) :
  str_in "# sent_id = " ("# text = " ++ txt) = false ->
  Forall (fun r => is_tree_row r = true /\ length r = 10) token_rows ->
  exists behind,
    map symbolic
      (docs (fst (parse_tree_rows self
                    ((("# sent_id = " ++ id)%string :: id_more)
                       :: (("# text = " ++ txt)%string :: txt_more)
                       :: token_rows ++ [] :: rows_after))))
    = map symbolic (docs self)
      ++ (Some id, Some txt,
          Tree.mk (map row_triple token_rows)
            (map (fun r => nth 1 r EmptyString) token_rows)
            (map (fun r => nth 2 r EmptyString) token_rows)
            (map (fun r => str_split ";" (nth 5 r EmptyString)) token_rows))
         :: behind.
Proof.
  intros Htxt F.
  match goal with
  | |- context [parse_tree_rows self ?rs] =>
      destruct (parse_tree_rows_docs self rs) as (ds & cur & o & Q & S)
  end.
  rewrite S. clear S. cbn [parse_rows] in Q.
  assert (E1 : parse_row (docs self, @Document.new Vec)
                 (("# sent_id = " ++ id)%string :: id_more)
               = inr (docs self, Document.with_sent_id Document.new id)).
  { unfold parse_row. rewrite str_in_prefix.
    replace (str_drop 12 ("# sent_id = " ++ id)) with id
      by (symmetry; apply (str_drop_app "# sent_id = " id)).
    reflexivity. }
  rewrite E1 in Q.
  assert (E2 : parse_row (docs self, Document.with_sent_id (@Document.new Vec) id)
                 (("# text = " ++ txt)%string :: txt_more)
               = inr (docs self,
                      Document.with_text
                        (Document.with_sent_id Document.new id) txt)).
  { unfold parse_row. rewrite Htxt, str_in_prefix.
    replace (str_drop 9 ("# text = " ++ txt)) with txt
      by (symmetry; apply (str_drop_app "# text = " txt)).
    reflexivity. }
  rewrite E2 in Q.
  rewrite (parse_rows_token_rows token_rows _ F) in Q.
  cbn [parse_rows parse_row ret] in Q.
  destruct (parse_rows_prefix rows_after _ _ _ _ _ Q) as (added & -> & _).
  exists (map symbolic (match o with
                        | None => added ++ [cur]
                        | Some _ => added
                        end)).
  destruct o; rewrite <- ?app_assoc, ?map_app; reflexivity.
Qed.

End ParseStructure.

Lemma tree_rows_agree_with_sequences_witness :
  let self := fst (parse_tree_rows (Vec:=unit) new_corpus two_tag_rows) in
  exists wf lm tags,
    Tree_getitem (Document.tree (nth 0 (docs self) Document.new)) 0%Z
    = inr (wf, lm, String.concat ";" tags)
    /\ nth_error (Document.tokens (nth 0 (docs self) Document.new)) 0
       = Some wf
    /\ nth_error (Document.lemmas (nth 0 (docs self) Document.new)) 0
       = Some lm
    /\ nth_error (Document.morph_tags (nth 0 (docs self) Document.new)) 0
       = Some tags
    /\ tags <> []
    /\ Forall (fun tag => ~ In ";"%char (list_ascii_of_string tag)) tags.
Proof.
  refine (proj1 (tree_rows_agree_with_sequences new_corpus two_tag_rows
                   _ 0 _ _) _).
  - constructor.
  - vm_compute. auto.
  - vm_compute. lia.
Defined.

Lemma sentence_block_becomes_document_witness :
  exists behind,
    map symbolic
      (docs (fst (parse_tree_rows (Vec:=unit) new_corpus
                    (["# sent_id = s1"] :: ["# text = dogs"]
                       :: two_tag_rows ++ [] :: example_rows))))
    = map symbolic (docs (@new_corpus unit))
      ++ (Some "s1", Some "dogs",
          Tree.mk (map row_triple two_tag_rows)
            (map (fun r => nth 1 r EmptyString) two_tag_rows)
            (map (fun r => nth 2 r EmptyString) two_tag_rows)
            (map (fun r => str_split ";" (nth 5 r EmptyString))
               two_tag_rows))
         :: behind.
Proof.
  apply (sentence_block_becomes_document new_corpus "s1" "dogs" [] []
           two_tag_rows example_rows).
  - reflexivity.
  - repeat constructor.
Defined.

(** ** Further properties: the vocabularies *)

Section VocabFacts.

Lemma insert_str_perm {A} (key : A -> string) (x : A) (l : list A) :
  Permutation (Sorting.insert_str key x l) (x :: l).
Proof.
  induction l as [|y l IH]; cbn [Sorting.insert_str]; [reflexivity|].
  destruct (String.compare (key y) (key x)); try reflexivity.
  rewrite IH. apply perm_swap.
Qed.

Lemma sorted_str_perm {A} (key : A -> string) (l : list A) :
  Permutation (Sorting.sorted_str key l) l.
Proof.
  induction l as [|x l IH]; cbn [Sorting.sorted_str fold_right];
    [reflexivity|].
  fold (Sorting.sorted_str key l). rewrite insert_str_perm. now constructor.
Qed.

Lemma count_iterator (it : list (list string)) :
  forall c,
    fold_left (fun c toks => fold_left (PyDict.incr String.eqb) toks c) it c
    = fold_left (PyDict.incr String.eqb) (concat it) c.
Proof.
  induction it as [|toks it IH]; intros c; [reflexivity|].
  cbn [fold_left concat]. now rewrite fold_left_app, IH.
Qed.

(** What [build_vocab_from_iterator] puts in a vocabulary: the specials
    first, then every other token of the iterator, each once. *)
Lemma build_vocab_itos (it : list (list string)) (specials : list string) :
  exists others,
    Torchtext.itos (Torchtext.build_vocab_from_iterator it specials)
    = specials ++ others
    /\ NoDup others
    /\ (forall x, In x others <-> In x (concat it) /\ ~ In x specials).
Proof.
  unfold Torchtext.build_vocab_from_iterator. cbn [Torchtext.itos].
  rewrite count_iterator.
  destruct (counter_fold (concat it) []) as (ND & _ & K & _); [constructor|].
  cbn zeta in ND, K.
  set (counter := fold_left (PyDict.incr String.eqb) (concat it) []) in *.
  set (kept := filter
                 (fun kv : string * nat =>
                    negb (existsb (String.eqb (fst kv)) specials)) counter).
  set (ordered := Sorting.sorted_desc snd (Sorting.sorted_str fst kept)).
  assert (P : Permutation ordered kept).
  { unfold ordered. rewrite sorted_desc_perm. apply sorted_str_perm. }
  exists (map fst ordered). split; [reflexivity|]. split.
  - eapply Permutation_NoDup; [apply Permutation_map; symmetry; exact P|].
    unfold kept. clear -ND. unfold PyDict.keys in ND.
    induction counter as [|[k v] c IH]; cbn [filter map]; [constructor|].
    inversion ND as [|? ? Hk Hc]; subst.
    destruct (negb (existsb (String.eqb (fst (k, v))) specials));
      [|now apply IH].
    cbn [map fst]. constructor; [|now apply IH].
    intros HIn. apply Hk. apply in_map_iff in HIn.
    destruct HIn as ([k' v'] & <- & Hf). apply filter_In in Hf.
    apply in_map_iff. exists (k', v'). tauto.
  - intros x. split.
    + intros HIn.
      apply (Permutation_in x (Permutation_map fst P)) in HIn.
      apply in_map_iff in HIn. destruct HIn as ([k v] & <- & Hf).
      apply filter_In in Hf. destruct Hf as [Hc Hs]. cbn [fst] in *.
      split.
      * assert (Hk : In k (PyDict.keys counter))
          by (apply in_map_iff; now exists (k, v)).
        apply K in Hk. destruct Hk as [Hk|[]]. exact Hk.
      * intros Hsp. apply negb_true_iff in Hs.
        assert (existsb (String.eqb k) specials = true)
          by (apply existsb_exists; exists k; split;
              [exact Hsp | apply String.eqb_refl]).
        congruence.
    + intros [Hc Hs].
      apply (Permutation_in x (Permutation_map fst (Permutation_sym P))).
      assert (Hk : In x (PyDict.keys counter)) by (apply K; now left).
      apply in_map_iff in Hk. destruct Hk as ([k v] & <- & Hkv).
      apply in_map_iff. exists (k, v). split; [reflexivity|].
      apply filter_In. split; [exact Hkv|]. cbn [fst] in *.
      apply negb_true_iff. destruct (existsb (String.eqb k) specials) eqn:E;
        [|reflexivity].
      apply existsb_exists in E. destruct E as (y & Hy & Ey).
      apply String.eqb_eq in Ey. subst y. contradiction.
Qed.

Lemma index_of_None (k : string) (l : list string) :
  Torchtext.index_of k l = None <-> ~ In k l.
Proof.
  induction l as [|x l IH]; cbn [Torchtext.index_of In]; [tauto|].
  destruct (String.eqb_spec x k) as [->|N].
  - split; [discriminate | intros H; exfalso; auto].
  - destruct (Torchtext.index_of k l) eqn:E; cbn [option_map].
    + split; [discriminate|]. intros H. exfalso. apply H. right.
      eapply nth_error_In. apply (index_of_nth k l n E).
    + split; [|reflexivity]. intros _ [H|H]; [contradiction|].
      now apply IH.
Qed.

(** A lookup in a vocabulary with a default index never raises: a token
    of the vocabulary gets its own position, any other string the
    default. *)
Lemma getitem_with_default (v : Torchtext.Vocab) (dflt : nat) (tok : string) :
  Torchtext.default_index v = Some dflt ->
  exists i,
    Torchtext.getitem v tok = inr i
    /\ ((In tok (Torchtext.itos v)
         /\ nth_error (Torchtext.itos v) i = Some tok)
        \/ (~ In tok (Torchtext.itos v) /\ i = dflt)).
Proof.
  intros D. unfold Torchtext.getitem.
  destruct (Torchtext.index_of tok (Torchtext.itos v)) as [i|] eqn:E.
  - exists i. split; [reflexivity|]. left.
    pose proof (index_of_nth _ _ _ E) as Hn.
    split; [eapply nth_error_In; eauto | exact Hn].
  - rewrite D. exists dflt. split; [reflexivity|]. right.
    split; [now apply index_of_None | reflexivity].
Qed.

Lemma lookup_indices_decode (v : Torchtext.Vocab) (dflt : nat)
  (toks : list string) :
  Torchtext.default_index v = Some dflt ->
  (forall t, In t toks -> In t (Torchtext.itos v)) ->
  exists ks,
    Torchtext.lookup_indices v toks = inr ks
    /\ map (nth_error (Torchtext.itos v)) ks = map Some toks.
Proof.
  intros D. unfold Torchtext.lookup_indices.
  induction toks as [|t toks IH]; intros H.
  - exists []. now split.
  - destruct IH as (ks & E & M); [intros; apply H; now right|].
    destruct (getitem_with_default v dflt t D) as (i & G & [[_ Hn]|[Hn _]]).
    + exists (i :: ks). cbn [mapM map]. rewrite G, E. cbn [bind ret].
      split; [reflexivity|]. now rewrite Hn, M.
    + exfalso. apply Hn, H. now left.
Qed.

End VocabFacts.

Section VocabProperties.

Context {Vec : Type}.
Local Abbreviation Doc := (Document.t Vec).
Local Abbreviation Corpus := (@DocumentCorpus Vec).

Lemma in_doc_tokens (ds : list Doc) (tok : string) :
  In tok (concat (map Document.tokens ds))
  <-> exists d, In d ds /\ In tok (Document.tokens d).
Proof.
  rewrite in_concat. split.
  - intros (l & Hl & Ht). apply in_map_iff in Hl.
    destruct Hl as (d & <- & Hd). now exists d.
  - intros (d & Hd & Ht). exists (Document.tokens d).
    split; [now apply in_map | exact Ht].
Qed.

Lemma in_doc_chars (ds : list Doc) (c : string) :
  In c (concat (map chars (concat (map Document.tokens ds))))
  <-> exists d tok,
        In d ds /\ In tok (Document.tokens d) /\ In c (chars tok).
Proof.
  rewrite in_concat. split.
  - intros (l & Hl & Hc). apply in_map_iff in Hl.
    destruct Hl as (tok & <- & Ht). apply in_doc_tokens in Ht.
    destruct Ht as (d & Hd & Ht). now exists d, tok.
  - intros (d & tok & Hd & Ht & Hc). exists (chars tok).
    split; [|exact Hc]. apply in_map. apply in_doc_tokens. now exists d.
Qed.

Lemma specials_first (it : list (list string)) (u p : string) (dflt : nat) :
  u <> p ->
  let v := Torchtext.set_default_index
             (Torchtext.build_vocab_from_iterator it [u; p]) dflt in
  NoDup (Torchtext.itos v)
  /\ nth_error (Torchtext.itos v) 0 = Some u
  /\ nth_error (Torchtext.itos v) 1 = Some p
  /\ (forall x, In x (Torchtext.itos v)
                <-> x = u \/ x = p \/ In x (concat it)).
Proof.
  intros Hup v. subst v. unfold Torchtext.set_default_index.
  cbn [Torchtext.itos].
  destruct (build_vocab_itos it [u; p]) as (others & -> & ND & M).
  split; [|split; [reflexivity|split; [reflexivity|]]].
  - apply NoDup_app; [|exact ND|].
    + constructor; [intros [H|[]]; now apply Hup|].
      constructor; [intros [] | constructor].
    + intros x Hx Ho. apply M in Ho. tauto.
  - intros x. rewrite in_app_iff, M. cbn [In].
    destruct (string_dec x u) as [->|Nu]; [tauto|].
    destruct (string_dec x p) as [->|Np]; [tauto|].
    split; [intuition | intros [H|[H|H]]; try contradiction].
    right. split; [exact H|]. intros [E|[E|[]]]; congruence.
Qed.

(** X4.  Once the vocabularies are built, with an unknown symbol and a
    padding symbol that differ, [token_vocab] and [char_vocab] list
    their strings without repetition, the unknown symbol at index 0 and
    the padding symbol at index 1; [token_vocab] holds these two and
    exactly the tokens of the Documents, [char_vocab] these two and
    exactly the characters of these tokens. *)
Theorem vocabularies_closed (self : Corpus) :
  vocabs_current self ->
  unk_token self <> pad_token self ->
  exists tv cv,
    token_vocab self = Some tv
    /\ char_vocab self = Some cv
    /\ NoDup (Torchtext.itos tv)
    /\ NoDup (Torchtext.itos cv)
    /\ nth_error (Torchtext.itos tv) 0 = Some (unk_token self)
    /\ nth_error (Torchtext.itos tv) 1 = Some (pad_token self)
    /\ nth_error (Torchtext.itos cv) 0 = Some (unk_token self)
    /\ nth_error (Torchtext.itos cv) 1 = Some (pad_token self)
    /\ (forall tok,
          In tok (Torchtext.itos tv)
          <-> tok = unk_token self \/ tok = pad_token self
              \/ exists d, In d (docs self) /\ In tok (Document.tokens d))
    /\ (forall c,
          In c (Torchtext.itos cv)
          <-> c = unk_token self \/ c = pad_token self
              \/ exists d tok,
                   In d (docs self) /\ In tok (Document.tokens d)
                   /\ In c (chars tok)).
Proof.
  intros (Ht & Hc & _) Hup.
  destruct (specials_first (map Document.tokens (docs self))
              (unk_token self) (pad_token self) 0 Hup)
    as (N1 & A1 & B1 & M1).
  destruct (specials_first
              (map chars (concat (map Document.tokens (docs self))))
              (unk_token self) (pad_token self) 0 Hup)
    as (N2 & A2 & B2 & M2).
  cbn zeta in *.
  exists (token_vocab_of (unk_token self) (pad_token self) (docs self)),
         (char_vocab_of (unk_token self) (pad_token self) (docs self)).
  split; [exact Ht|]. split; [exact Hc|].
  unfold token_vocab_of, char_vocab_of.
  repeat (split; [assumption|]).
  split.
  - intros tok. rewrite M1, in_doc_tokens. reflexivity.
  - intros c. rewrite M2, in_doc_chars. reflexivity.
Qed.

(** X5.  Once the vocabularies are built, looking a string up in
    [token_vocab] or in [char_vocab] never raises: a string of the
    vocabulary gets its own index, any other string gets 0, the index of
    the unknown symbol in both; the default index of [char_vocab], which
    the code takes from [token_vocab], is thus the place of the unknown
    symbol in [char_vocab] too. *)
Theorem vocabulary_lookups_never_raise (self : Corpus) (s : string) :
  vocabs_current self ->
  exists tv cv i j,
    token_vocab self = Some tv
    /\ char_vocab self = Some cv
    /\ Torchtext.getitem tv s = inr i
    /\ Torchtext.getitem cv s = inr j
    /\ (In s (Torchtext.itos tv) -> nth_error (Torchtext.itos tv) i = Some s)
    /\ (~ In s (Torchtext.itos tv) -> i = 0)
    /\ (In s (Torchtext.itos cv) -> nth_error (Torchtext.itos cv) j = Some s)
    /\ (~ In s (Torchtext.itos cv) -> j = 0)
    /\ nth_error (Torchtext.itos tv) 0 = Some (unk_token self)
    /\ nth_error (Torchtext.itos cv) 0 = Some (unk_token self).
Proof.
  intros (Ht & Hc & _).
  set (tv := token_vocab_of (unk_token self) (pad_token self) (docs self)).
  set (cv := char_vocab_of (unk_token self) (pad_token self) (docs self)).
  destruct (getitem_with_default tv 0 s eq_refl) as (i & Gi & Hi).
  destruct (getitem_with_default cv 0 s eq_refl) as (j & Gj & Hj).
  exists tv, cv, i, j.
  split; [exact Ht|]. split; [exact Hc|].
  split; [exact Gi|]. split; [exact Gj|].
  split; [intros HIn; destruct Hi as [[_ H]|[H _]]; [exact H|contradiction]|].
  split; [intros HIn; destruct Hi as [[H _]|[_ H]]; [contradiction|exact H]|].
  split; [intros HIn; destruct Hj as [[_ H]|[H _]]; [exact H|contradiction]|].
  split; [intros HIn; destruct Hj as [[H _]|[_ H]]; [contradiction|exact H]|].
  split; reflexivity.
Qed.

(** X6.  Once the vocabularies are built, the token tensor and the
    character tensors of a Document of the corpus are always there, also
    for a Document without tokens, and decode to the Document: the k-th
    index is the place of the k-th token in [token_vocab], and the k-th
    character tensor lists the places of the characters of the k-th
    token in [char_vocab]. *)
Theorem index_tensors_decode (self : Corpus) (d : Doc) :
  vocabs_current self ->
  In d (docs self) ->
  exists tv cv ks cs,
    token_vocab self = Some tv
    /\ char_vocab self = Some cv
    /\ make_tokens_tensor self d = inr ks
    /\ make_chars_tensor self d = inr cs
    /\ map (nth_error (Torchtext.itos tv)) ks = map Some (Document.tokens d)
    /\ Forall2
         (fun tok c => map (nth_error (Torchtext.itos cv)) c
                       = map Some (chars tok))
         (Document.tokens d) cs.
Proof.
  intros (Ht & Hc & _) HIn.
  set (tv := token_vocab_of (unk_token self) (pad_token self) (docs self))
    in *.
  set (cv := char_vocab_of (unk_token self) (pad_token self) (docs self))
    in *.
  destruct (build_vocab_itos (map Document.tokens (docs self))
              [unk_token self; pad_token self]) as (o1 & E1 & _ & M1).
  destruct (build_vocab_itos
              (map chars (concat (map Document.tokens (docs self))))
              [unk_token self; pad_token self]) as (o2 & E2 & _ & M2).
  assert (Itv : forall t, In t (Document.tokens d) ->
                          In t (Torchtext.itos tv)).
  { intros t Hd. unfold tv, token_vocab_of, Torchtext.set_default_index.
    cbn [Torchtext.itos]. rewrite E1, in_app_iff.
    destruct (in_dec string_dec t [unk_token self; pad_token self]);
      [now left|right].
    apply M1. split; [|assumption]. apply in_doc_tokens. now exists d. }
  assert (Icv : forall t c, In t (Document.tokens d) -> In c (chars t) ->
                            In c (Torchtext.itos cv)).
  { intros t c Hd Hch. unfold cv, char_vocab_of, Torchtext.set_default_index.
    cbn [Torchtext.itos]. rewrite E2, in_app_iff.
    destruct (in_dec string_dec c [unk_token self; pad_token self]);
      [now left|right].
    apply M2. split; [|assumption]. apply in_doc_chars. now exists d, t. }
  destruct (lookup_indices_decode tv 0 (Document.tokens d) eq_refl Itv)
    as (ks & Ek & Dk).
  assert (C : exists cs,
             make_chars_tensor self d = inr cs
             /\ Forall2
                  (fun tok c => map (nth_error (Torchtext.itos cv)) c
                                = map Some (chars tok))
                  (Document.tokens d) cs).
  { unfold make_chars_tensor. rewrite Hc. cbn [attr bind ret].
    revert Icv. generalize (Document.tokens d).
    induction l as [|t l IH]; intros Icv.
    - exists []. split; [reflexivity | constructor].
    - destruct IH as (cs & E & F); [intros; eapply Icv; eauto; now right|].
      destruct (lookup_indices_decode cv 0 (chars t) eq_refl)
        as (c & Ec & Dc); [intros; eapply Icv; eauto; now left|].
      exists (c :: cs). cbn [mapM]. rewrite Ec. cbn [bind].
      rewrite E. split; [reflexivity | now constructor]. }
  destruct C as (cs & Ec & Fc).
  exists tv, cv, ks, cs.
  split; [exact Ht|]. split; [exact Hc|].
  split; [unfold make_tokens_tensor; rewrite Ht; exact Ek|].
  split; [exact Ec|]. split; [exact Dk | exact Fc].
Qed.

End VocabProperties.

Lemma vocabularies_closed_witness :
  let self := fst (parse_tree_rows (Vec:=unit) new_corpus example_rows) in
  exists tv cv,
    token_vocab self = Some tv
    /\ char_vocab self = Some cv
    /\ NoDup (Torchtext.itos tv)
    /\ NoDup (Torchtext.itos cv)
    /\ nth_error (Torchtext.itos tv) 0 = Some (unk_token self)
    /\ nth_error (Torchtext.itos tv) 1 = Some (pad_token self)
    /\ nth_error (Torchtext.itos cv) 0 = Some (unk_token self)
    /\ nth_error (Torchtext.itos cv) 1 = Some (pad_token self)
    /\ (forall tok,
          In tok (Torchtext.itos tv)
          <-> tok = unk_token self \/ tok = pad_token self
              \/ exists d, In d (docs self) /\ In tok (Document.tokens d))
    /\ (forall c,
          In c (Torchtext.itos cv)
          <-> c = unk_token self \/ c = pad_token self
              \/ exists d tok,
                   In d (docs self) /\ In tok (Document.tokens d)
                   /\ In c (chars tok)).
Proof.
  apply vocabularies_closed.
  - vm_compute. auto.
  - vm_compute. discriminate.
Defined.

Lemma vocabulary_lookups_never_raise_witness :
  let self := fst (parse_tree_rows (Vec:=unit) new_corpus example_rows) in
  exists tv cv i j,
    token_vocab self = Some tv
    /\ char_vocab self = Some cv
    /\ Torchtext.getitem tv "cat" = inr i
    /\ Torchtext.getitem cv "cat" = inr j
    /\ (In "cat" (Torchtext.itos tv)
        -> nth_error (Torchtext.itos tv) i = Some "cat")
    /\ (~ In "cat" (Torchtext.itos tv) -> i = 0)
    /\ (In "cat" (Torchtext.itos cv)
        -> nth_error (Torchtext.itos cv) j = Some "cat")
    /\ (~ In "cat" (Torchtext.itos cv) -> j = 0)
    /\ nth_error (Torchtext.itos tv) 0 = Some (unk_token self)
    /\ nth_error (Torchtext.itos cv) 0 = Some (unk_token self).
Proof.
  apply vocabulary_lookups_never_raise.
  vm_compute. auto.
Defined.

Lemma index_tensors_decode_witness :
  let self := fst (parse_tree_rows (Vec:=unit) new_corpus example_rows) in
  let d := nth 1 (docs self) Document.new in
  exists tv cv ks cs,
    token_vocab self = Some tv
    /\ char_vocab self = Some cv
    /\ make_tokens_tensor self d = inr ks
    /\ make_chars_tensor self d = inr cs
    /\ map (nth_error (Torchtext.itos tv)) ks = map Some (Document.tokens d)
    /\ Forall2
         (fun tok c => map (nth_error (Torchtext.itos cv)) c
                       = map Some (chars tok))
         (Document.tokens d) cs.
Proof.
  apply index_tensors_decode.
  - vm_compute. auto.
  - vm_compute. auto.
Defined.

(** ** Further properties: the tag vocabulary and the tag tensor *)

Lemma sorted_unique (l1 : list string) :
  forall l2,
    Sorted Sorting.str_lt l1 -> Sorted Sorting.str_lt l2 ->
    (forall x, In x l1 <-> In x l2) ->
    l1 = l2.
Proof.
  induction l1 as [|a l1 IH]; intros l2 S1 S2 M.
  - destruct l2 as [|b l2]; [reflexivity|].
    exfalso. apply (proj2 (M b)). now left.
  - destruct l2 as [|b l2]; [exfalso; apply (proj1 (M a)); now left|].
    apply Sorted_StronglySorted in S1; [|intros x y z; apply str_lt_trans].
    apply Sorted_StronglySorted in S2; [|intros x y z; apply str_lt_trans].
    inversion S1 as [|? ? S1' F1]; subst.
    inversion S2 as [|? ? S2' F2]; subst.
    rewrite Forall_forall in F1, F2.
    assert (E : a = b).
    { destruct (proj1 (M a) (or_introl eq_refl)) as [E|Ha]; [now symmetry|].
      destruct (proj2 (M b) (or_introl eq_refl)) as [E|Hb]; [exact E|].
      exfalso. apply (str_lt_irrefl a).
      eapply str_lt_trans; [apply F1; exact Hb | apply F2; exact Ha]. }
    subst b. f_equal.
    apply IH; [now apply StronglySorted_Sorted
              | now apply StronglySorted_Sorted |].
    intros x. split; intros Hx.
    + destruct (proj1 (M x) (or_intror Hx)) as [E|H]; [|exact H].
      subst x. exfalso. exact (str_lt_irrefl a (F1 a Hx)).
    + destruct (proj2 (M x) (or_intror Hx)) as [E|H]; [|exact H].
      subst x. exfalso. exact (str_lt_irrefl a (F2 a Hx)).
Qed.

Lemma map_seq_const {A} (f : nat -> A) (c : A) (n : nat) :
  forall s,
    (forall j, s <= j < s + n -> f j = c) ->
    map f (seq s n) = repeat c n.
Proof.
  induction n as [|n IH]; intros s H; [reflexivity|].
  cbn [seq map repeat]. rewrite H by lia. f_equal.
  apply IH. intros j Hj. apply H. lia.
Qed.

Lemma unit_row_split (a b : nat) :
  Torch.unit_row (a + S b) a = repeat 0 a ++ 1 :: repeat 0 b.
Proof.
  unfold Torch.unit_row. rewrite seq_app, map_app. cbn [seq map Nat.add].
  rewrite Nat.eqb_refl. f_equal; [|f_equal].
  - apply map_seq_const. intros j Hj.
    destruct (Nat.eqb_spec j a); [lia | reflexivity].
  - apply map_seq_const. intros j Hj.
    destruct (Nat.eqb_spec j a); [lia | reflexivity].
Qed.

Lemma removelast_repeat {A} (c : A) (n : nat) :
  removelast (repeat c (S n)) = repeat c n.
Proof.
  induction n as [|n IH]; [reflexivity|].
  change (removelast (repeat c (S (S n))))
    with (c :: removelast (repeat c (S n))).
  now rewrite IH.
Qed.

Lemma last_as_nth {A} (l : list A) (d : A) :
  last l d = nth (length l - 1) l d.
Proof.
  induction l as [|a l IH]; [reflexivity|].
  destruct l as [|b l]; [reflexivity|].
  change (last (a :: b :: l) d) with (last (b :: l) d). rewrite IH.
  cbn [length Nat.sub nth]. now rewrite Nat.sub_0_r.
Qed.

(** The row of a tag: all zeros for the last tag of the list, and a
    single one otherwise. *)
Lemma tag_row_sum (tags : list string) (tag : string) :
  NoDup tags -> In tag tags ->
  length (tag_row tags tag) = length tags - 1
  /\ (tag = last tags EmptyString ->
      tag_row tags tag = repeat 0 (length tags - 1))
  /\ (tag <> last tags EmptyString -> list_sum (tag_row tags tag) = 1).
Proof.
  intros ND HIn. unfold tag_row.
  destruct (index_of_In tag tags HIn) as (i & E & Hn). rewrite E.
  assert (Li : i < length tags) by (apply nth_error_Some; congruence).
  assert (Hlast : last tags EmptyString
                  = nth (length tags - 1) tags EmptyString).
  { apply last_as_nth. }
  assert (R : Torch.unit_row (length tags) i
              = repeat 0 i ++ 1 :: repeat 0 (length tags - 1 - i)).
  { rewrite <- unit_row_split. f_equal. lia. }
  rewrite !R. clear R.
  destruct (Nat.eq_dec i (length tags - 1)) as [Ei|Ni].
  - replace (length tags - 1 - i) with 0 by lia. cbn [repeat].
    rewrite removelast_last, repeat_length.
    split; [lia|]. split; [intros _; f_equal; lia|].
    intros N. exfalso. apply N. rewrite Hlast, <- Ei.
    symmetry. now apply nth_error_nth.
  - assert (length tags - 1 - i = S (length tags - 2 - i)) as -> by lia.
    rewrite removelast_app by discriminate.
    change (removelast (1 :: repeat 0 (S (length tags - 2 - i))))
      with (1 :: removelast (repeat 0 (S (length tags - 2 - i)))).
    rewrite removelast_repeat.
    rewrite !length_app. cbn [length]. rewrite !repeat_length.
    split; [lia|]. split.
    + intros Et. exfalso. apply Ni.
      rewrite NoDup_nth_error in ND. apply ND; [exact Li|].
      rewrite Hn, Et, Hlast. symmetry. apply nth_error_nth'. lia.
    + intros _. rewrite !list_sum_app. cbn [list_sum fold_right].
      assert (Z0 : forall n, list_sum (repeat 0 n) = 0)
        by (induction n; cbn; auto).
      rewrite !Z0. reflexivity.
Qed.

Lemma mapM_total {A B} (f : A -> result B) (xs : list A) :
  (forall x, In x xs -> exists y, f x = inr y) ->
  exists ys, mapM f xs = inr ys /\ Forall2 (fun x y => f x = inr y) xs ys.
Proof.
  induction xs as [|x xs IH]; intros H.
  - exists []. split; [reflexivity | constructor].
  - destruct (H x (or_introl eq_refl)) as (y & E).
    destruct IH as (ys & M & F); [intros; apply H; now right|].
    exists (y :: ys). cbn [mapM]. rewrite E, M.
    split; [reflexivity | now constructor].
Qed.

Section TagTensorProperties.

Context {Vec : Type}.
Local Abbreviation Doc := (Document.t Vec).
Local Abbreviation Corpus := (@DocumentCorpus Vec).

Lemma in_doc_tags (ds : list Doc) (tag : string) :
  In tag (sorted_tags ds)
  <-> exists d ts,
        In d ds /\ In ts (Document.morph_tags d) /\ In tag ts.
Proof.
  unfold sorted_tags. rewrite sorted_set_In, in_concat. split.
  - intros (ts & Hts & Ht). apply in_concat in Hts.
    destruct Hts as (l & Hl & Hts). apply in_map_iff in Hl.
    destruct Hl as (d & <- & Hd). now exists d, ts.
  - intros (d & ts & Hd & Hts & Ht). exists ts. split; [|exact Ht].
    apply in_concat. exists (Document.morph_tags d).
    split; [now apply in_map | exact Hts].
Qed.

(** X7.  Once the vocabularies are built, [morph_tag_vocab] lists, in
    strictly increasing order, exactly the tags that occur in a tag set
    of a Document, numbered 0, 1, 2, ... in this order; looking a tag up
    gives its position, and [None] for a tag that does not occur. *)
Theorem tag_vocabulary_sorted_and_closed (self : Corpus) :
  vocabs_current self ->
  exists vocab,
    morph_tag_vocab self = Some vocab
    /\ Sorted Sorting.str_lt (PyDict.keys vocab)
    /\ PyDict.values vocab = seq 0 (length vocab)
    /\ (forall tag,
          In tag (PyDict.keys vocab)
          <-> exists d ts,
                In d (docs self) /\ In ts (Document.morph_tags d)
                /\ In tag ts)
    /\ (forall tag j,
          PyDict.get String.eqb vocab tag = Some j
          <-> nth_error (PyDict.keys vocab) j = Some tag)
    /\ (forall tag,
          PyDict.get String.eqb vocab tag = None
          <-> ~ In tag (PyDict.keys vocab)).
Proof.
  intros (_ & _ & Hv). rewrite build_morph_tag_vocab_eq in Hv.
  set (tags := sorted_tags (docs self)) in *.
  exists (combine tags (seq 0 (length tags))).
  assert (K : PyDict.keys (combine tags (seq 0 (length tags))) = tags)
    by apply map_fst_combine_seq.
  rewrite K. split; [exact Hv|].
  split; [apply sorted_set_sorted|].
  split.
  { unfold PyDict.values. rewrite length_combine_seq.
    apply map_snd_combine_seq. }
  split; [intros tag; apply in_doc_tags|].
  split.
  - intros tag j. rewrite get_combine_seq.
    rewrite <- (index_of_iff tag tags j (sorted_set_NoDup _)).
    destruct (Torchtext.index_of tag tags); cbn; reflexivity.
  - intros tag. rewrite (dict_get_None String.eqb String.eqb_eq), K.
    reflexivity.
Qed.

(** X8.  The tag vocabulary depends on the set of the tags that occur
    and on nothing else: two lists of Documents in which the same tags
    occur, in whatever order and however often, get the same
    vocabulary. *)
Theorem tag_vocabulary_order_independent (ds1 ds2 : list Doc) :
  (forall tag,
      (exists d ts,
          In d ds1 /\ In ts (Document.morph_tags d) /\ In tag ts)
      <-> (exists d ts,
              In d ds2 /\ In ts (Document.morph_tags d) /\ In tag ts)) ->
  build_morph_tag_vocab ds1 = build_morph_tag_vocab ds2.
Proof.
  intros H. rewrite !build_morph_tag_vocab_eq.
  assert (E : sorted_tags ds1 = sorted_tags ds2).
  { apply sorted_unique; try apply sorted_set_sorted.
    intros x. rewrite !in_doc_tags. apply H. }
  now rewrite E.
Qed.

Lemma tag_indices_known (tags : list string) (ts : list string) :
  (forall tag, In tag ts -> In tag tags) ->
  tag_indices (combine tags (seq 0 (length tags))) ts
  = inr (map (fun tag =>
                match Torchtext.index_of tag tags with
                | Some i => i
                | None => 0
                end) ts)
  /\ Forall (fun tag =>
               match Torchtext.index_of tag tags with
               | Some i => i
               | None => 0
               end < length tags) ts.
Proof.
  intros H.
  set (ix := fun tag => match Torchtext.index_of tag tags with
                        | Some i => i
                        | None => 0
                        end).
  assert (L : map (PyDict.get String.eqb
                     (combine tags (seq 0 (length tags)))) ts
              = map Some (map ix ts)
              /\ Forall (fun tag => ix tag < length tags) ts).
  { induction ts as [|tag ts IH]; [split; [reflexivity | constructor]|].
    destruct IH as [E F]; [intros; apply H; now right|].
    destruct (index_of_In tag tags (H tag (or_introl eq_refl)))
      as (i & Ei & Hn).
    assert (Ix : ix tag = i) by (unfold ix; now rewrite Ei).
    cbn [map]. rewrite get_combine_seq, E, Ei, Ix.
    cbn [option_map Nat.add].
    split; [reflexivity|]. constructor; [|exact F].
    rewrite Ix. apply nth_error_Some. congruence. }
  destruct L as [E F]. split; [|exact F].
  unfold tag_indices. rewrite E.
  assert (M : forall l : list nat,
             mapM (fun o : option nat =>
                     match o with
                     | Some i => ret i
                     | None => raise TypeError
                     end) (map Some l) = inr l).
  { induction l as [|i l IH]; [reflexivity|].
    cbn [map mapM bind ret]. now rewrite IH. }
  destruct (map ix ts) as [|i l] eqn:El; [reflexivity|].
  cbn [map]. exact (M (i :: l)).
Qed.

Lemma tagset_block_known (self : Corpus) (tags ts : list string) :
  morph_tag_vocab self = Some (combine tags (seq 0 (length tags))) ->
  tags <> [] ->
  (forall tag, In tag ts -> In tag tags) ->
  tagset_block self ts
  = inr (Torch.mkTensor2 (Nat.pred (length tags)) (map (tag_row tags) ts)).
Proof.
  intros Hv Hne H. unfold tagset_block. rewrite Hv. cbn [attr bind ret].
  destruct (tag_indices_known tags ts H) as [E F]. rewrite E.
  cbn [bind]. rewrite length_combine_seq. unfold Torch.one_hot.
  destruct ts as [|t ts]; cbn [map].
  - destruct tags; [contradiction|]. reflexivity.
  - match goal with |- context [forallb ?p ?l] =>
      assert (B : forallb p l = true) end.
    { apply forallb_forall. intros i Hi. apply Nat.ltb_lt.
      pose proof (proj2 (Forall_map
                           (fun tag => match Torchtext.index_of tag tags with
                                       | Some i => i
                                       | None => 0
                                       end)
                           (fun i => i < length tags) (t :: ts)) F) as F'.
      cbn [map] in F'. rewrite Forall_forall in F'. now apply F'. }
    rewrite B. cbn [bind ret]. unfold Torch.drop_last_col.
    cbn [Torch.ncols Torch.rows map]. rewrite !map_map. reflexivity.
Qed.

(** The tag tensor of a Document, in general. *)
Lemma morph_tensor_known (self : Corpus) (d : Doc) :
  vocabs_current self ->
  In d (docs self) ->
  Document.morph_tags d <> [] ->
  sorted_tags (docs self) <> [] ->
  make_morph_tags_tensor self d
  = inr (Torch.mkTensor2 (length (sorted_tags (docs self)) - 1)
           (map (tag_row (sorted_tags (docs self)))
              (concat (Document.morph_tags d)))).
Proof.
  intros (_ & _ & Hv) HIn Hd Ht. rewrite build_morph_tag_vocab_eq in Hv.
  set (tags := sorted_tags (docs self)) in *.
  unfold make_morph_tags_tensor.
  assert (M : mapM (tagset_block self) (Document.morph_tags d)
              = inr (map (fun ts =>
                            Torch.mkTensor2 (Nat.pred (length tags))
                              (map (tag_row tags) ts))
                       (Document.morph_tags d))).
  { assert (K : forall ts tag,
               In ts (Document.morph_tags d) -> In tag ts -> In tag tags).
    { intros ts tag H1 H2. apply in_doc_tags. now exists d, ts. }
    revert K. generalize (Document.morph_tags d).
    induction l as [|ts l IH]; intros K; [reflexivity|].
    cbn [mapM map]. rewrite (tagset_block_known self tags ts Hv Ht).
    - cbn [bind]. rewrite IH; [reflexivity|].
      intros ts' tag H1 H2. apply (K ts' tag); [now right | exact H2].
    - intros tag H. apply (K ts tag); [now left | exact H]. }
  rewrite M. cbn [bind].
  rewrite (cat_uniform (Nat.pred (length tags))).
  - rewrite map_map. cbn [Torch.rows]. rewrite <- concat_map.
    now rewrite Nat.sub_1_r.
  - destruct (Document.morph_tags d); [contradiction | discriminate].
  - apply Forall_map. apply Forall_forall. reflexivity.
Qed.

Lemma morph_tensor_fails (self : Corpus) (d : Doc) :
  vocabs_current self ->
  In d (docs self) ->
  Document.morph_tags d = [] \/ sorted_tags (docs self) = [] ->
  make_morph_tags_tensor self d = inl RuntimeError.
Proof.
  intros (_ & _ & Hv) HIn H. rewrite build_morph_tag_vocab_eq in Hv.
  unfold make_morph_tags_tensor.
  destruct (Document.morph_tags d) as [|ts l] eqn:E; [reflexivity|].
  destruct H as [H|H]; [discriminate H|].
  assert (Hts : ts = []).
  { destruct ts as [|tag ts]; [reflexivity|]. exfalso.
    assert (In tag (sorted_tags (docs self))).
    { apply in_doc_tags. exists d, (tag :: ts). rewrite E.
      split; [exact HIn|]. split; now left. }
    rewrite H in *. contradiction. }
  subst ts. cbn [mapM]. unfold tagset_block at 1. rewrite Hv, H.
  reflexivity.
Qed.

(** X9.  The tag tensor of a Document has one row for each tag of each
    of its tokens, in the order of the tokens and, for a token, of its
    tags, and one column for each tag of the vocabulary but the last:
    the row written for a tag has a one in the column of that tag and
    zeros elsewhere.  It is there as soon as the Document has a token
    with a tag; without any tag set, or when no tag occurs in the whole
    corpus, making it raises [RuntimeError]. *)
Theorem tag_tensor_has_a_row_per_tag (self : Corpus) (d : Doc) :
  vocabs_current self ->
  In d (docs self) ->
  (Document.morph_tags d = [] \/ sorted_tags (docs self) = [] ->
   make_morph_tags_tensor self d = inl RuntimeError)
  /\ (Document.morph_tags d <> [] -> sorted_tags (docs self) <> [] ->
      exists T,
        make_morph_tags_tensor self d = inr T
        /\ Torch.shape T
           = (length (concat (Document.morph_tags d)),
              length (sorted_tags (docs self)) - 1)
        /\ Forall2
             (fun tag row =>
                length row = length (sorted_tags (docs self)) - 1
                /\ forall j,
                     j < length (sorted_tags (docs self)) - 1 ->
                     nth j row 0
                     = if String.eqb
                            (nth j (sorted_tags (docs self)) EmptyString) tag
                       then 1 else 0)
             (concat (Document.morph_tags d)) (Torch.rows T)).
Proof.
  intros V HIn. split; [now apply morph_tensor_fails|].
  intros Hd Ht. eexists. split; [now apply morph_tensor_known|].
  unfold Torch.shape. cbn [Torch.rows Torch.ncols]. rewrite length_map.
  split; [reflexivity|].
  assert (K : forall tag, In tag (concat (Document.morph_tags d)) ->
                          In tag (sorted_tags (docs self))).
  { intros tag H. apply in_concat in H. destruct H as (ts & H1 & H2).
    apply in_doc_tags. now exists d, ts. }
  revert K. generalize (concat (Document.morph_tags d)).
  induction l as [|tag l IH]; intros K; cbn [map]; constructor.
  - destruct (tag_row_sum (sorted_tags (docs self)) tag
                (sorted_set_NoDup _) (K tag (or_introl eq_refl)))
      as (L & _ & _).
    split; [exact L|]. intros j Hj.
    apply nth_tag_row; [apply sorted_set_NoDup | | exact Hj].
    apply K. now left.
  - apply IH. intros t Ht'. apply K. now right.
Qed.

(** X10.  The column the tensorizer drops is that of the greatest tag of
    the vocabulary: the row written for a tag is all zeros exactly when
    the tag is the last one in sorted order, and holds a single one
    otherwise.  The placeholder ["_"] gets the all-zero row only if no
    tag of the corpus sorts after it. *)
Theorem dropped_column_is_greatest_tag (self : Corpus) (d : Doc) :
  vocabs_current self ->
  In d (docs self) ->
  concat (Document.morph_tags d) <> [] ->
  exists T,
    make_morph_tags_tensor self d = inr T
    /\ Forall2
         (fun tag row =>
            (tag = last (sorted_tags (docs self)) EmptyString ->
             row = repeat 0 (length (sorted_tags (docs self)) - 1))
            /\ (tag <> last (sorted_tags (docs self)) EmptyString ->
                list_sum row = 1))
         (concat (Document.morph_tags d)) (Torch.rows T).
Proof.
  intros V HIn Hc.
  assert (K : forall tag, In tag (concat (Document.morph_tags d)) ->
                          In tag (sorted_tags (docs self))).
  { intros tag H. apply in_concat in H.
    destruct H as (ts & H1 & H2). apply in_doc_tags. now exists d, ts. }
  assert (Hd : Document.morph_tags d <> []).
  { intros E. rewrite E in Hc. now apply Hc. }
  assert (Ht : sorted_tags (docs self) <> []).
  { destruct (concat (Document.morph_tags d)) as [|t0 l0];
      [now contradiction Hc|].
    intros E. specialize (K t0 (or_introl eq_refl)). rewrite E in K.
    contradiction. }
  eexists. split; [now apply morph_tensor_known|].
  cbn [Torch.rows]. clear Hc.
  revert K. generalize (concat (Document.morph_tags d)).
  induction l as [|tag l IH]; intros K; cbn [map]; constructor.
  - destruct (tag_row_sum (sorted_tags (docs self)) tag
                (sorted_set_NoDup _) (K tag (or_introl eq_refl)))
      as (_ & Z & O).
    now split.
  - apply IH. intros t Ht'. apply K. now right.
Qed.

End TagTensorProperties.

Lemma tag_vocabulary_sorted_and_closed_witness :
  let self := fst (parse_tree_rows (Vec:=unit) new_corpus example_rows) in
  exists vocab,
    morph_tag_vocab self = Some vocab
    /\ Sorted Sorting.str_lt (PyDict.keys vocab)
    /\ PyDict.values vocab = seq 0 (length vocab)
    /\ (forall tag,
          In tag (PyDict.keys vocab)
          <-> exists d ts,
                In d (docs self) /\ In ts (Document.morph_tags d)
                /\ In tag ts)
    /\ (forall tag j,
          PyDict.get String.eqb vocab tag = Some j
          <-> nth_error (PyDict.keys vocab) j = Some tag)
    /\ (forall tag,
          PyDict.get String.eqb vocab tag = None
          <-> ~ In tag (PyDict.keys vocab)).
Proof.
  apply tag_vocabulary_sorted_and_closed.
  vm_compute. auto.
Defined.

Lemma tag_vocabulary_order_independent_witness :
  let ds := docs (fst (parse_tree_rows (Vec:=unit) new_corpus example_rows)) in
  build_morph_tag_vocab ds = build_morph_tag_vocab (rev ds).
Proof.
  intros ds. apply tag_vocabulary_order_independent.
  intros tag. split; intros (d & ts & H & R); exists d, ts;
    (split; [|exact R]); [now apply in_rev in H | now apply in_rev].
Defined.

Lemma tag_tensor_has_a_row_per_tag_witness :
  let self := fst (parse_tree_rows (Vec:=unit) new_corpus two_tag_rows) in
  let d := nth 0 (docs self) Document.new in
  exists T,
    make_morph_tags_tensor self d = inr T
    /\ Torch.shape T
       = (length (concat (Document.morph_tags d)),
          length (sorted_tags (docs self)) - 1)
    /\ Forall2
         (fun tag row =>
            length row = length (sorted_tags (docs self)) - 1
            /\ forall j,
                 j < length (sorted_tags (docs self)) - 1 ->
                 nth j row 0
                 = if String.eqb
                        (nth j (sorted_tags (docs self)) EmptyString) tag
                   then 1 else 0)
         (concat (Document.morph_tags d)) (Torch.rows T).
Proof.
  intros self d.
  refine (proj2 (tag_tensor_has_a_row_per_tag self d _ _) _ _).
  - vm_compute. auto.
  - vm_compute. auto.
  - vm_compute. discriminate.
  - vm_compute. discriminate.
Defined.

Lemma dropped_column_is_greatest_tag_witness :
  let self := fst (parse_tree_rows (Vec:=unit) new_corpus two_tag_rows) in
  let d := nth 0 (docs self) Document.new in
  exists T,
    make_morph_tags_tensor self d = inr T
    /\ Forall2
         (fun tag row =>
            (tag = last (sorted_tags (docs self)) EmptyString ->
             row = repeat 0 (length (sorted_tags (docs self)) - 1))
            /\ (tag <> last (sorted_tags (docs self)) EmptyString ->
                list_sum row = 1))
         (concat (Document.morph_tags d)) (Torch.rows T).
Proof.
  apply dropped_column_is_greatest_tag.
  - vm_compute. auto.
  - vm_compute. auto.
  - vm_compute. discriminate.
Defined.

(** ** Further properties: when tensorizing and parsing end well *)

Section Outcomes.

Context {Vec : Type}.
Local Abbreviation Doc := (Document.t Vec).
Local Abbreviation Corpus := (@DocumentCorpus Vec).

Lemma index_tensors_total (self : Corpus) (d : Doc) :
  vocabs_current self ->
  exists ks cs,
    make_tokens_tensor self d = inr ks /\ make_chars_tensor self d = inr cs.
Proof.
  intros (Ht & Hc & _).
  assert (G : forall (v : Torchtext.Vocab) toks,
             Torchtext.default_index v = Some 0 ->
             exists ks, Torchtext.lookup_indices v toks = inr ks).
  { intros v toks D.
    destruct (mapM_total (Torchtext.getitem v) toks) as (ks & E & _).
    - intros x _. destruct (getitem_with_default v 0 x D) as (i & G & _).
      now exists i.
    - now exists ks. }
  destruct (G (token_vocab_of (unk_token self) (pad_token self) (docs self))
              (Document.tokens d) eq_refl) as (ks & Ek).
  destruct (mapM_total
              (fun t => cv <- attr (char_vocab self) ;;
                        Torchtext.lookup_indices cv (chars t))
              (Document.tokens d)) as (cs & Ec & _).
  { intros t _. rewrite Hc. cbn [attr bind ret].
    apply (G (char_vocab_of (unk_token self) (pad_token self) (docs self))
             (chars t) eq_refl). }
  exists ks, cs. split; [|exact Ec].
  unfold make_tokens_tensor. rewrite Ht. exact Ek.
Qed.

Lemma consistent_tags (d : Doc) :
  doc_consistent d ->
  length (Document.morph_tags d) = Document.len d
  /\ Forall (fun ts => ts <> []) (Document.morph_tags d).
Proof.
  intros (H1 & _ & H3).
  unfold Document.len, Document.tokens, Document.morph_tags.
  rewrite H1, H3, !length_map. split; [reflexivity|].
  apply Forall_map. apply Forall_forall. intros r _.
  destruct (str_split_cons ";" (snd r)) as (h & t & E). rewrite E.
  discriminate.
Qed.

(** Tensorizing a Document of a corpus with current vocabularies whose
    Tree is as [Tree.add] builds it: it raises [RuntimeError] when the
    Document has no token and returns otherwise. *)
Lemma move_doc_outcome (self : Corpus) (d : Doc) :
  vocabs_current self ->
  In d (docs self) ->
  doc_consistent d ->
  (Document.len d = 0 -> move_doc_to_pt self d = inl RuntimeError)
  /\ (0 < Document.len d -> exists d', move_doc_to_pt self d = inr d').
Proof.
  intros V HIn C.
  destruct (index_tensors_total self d V) as (ks & cs & Ek & Ec).
  destruct (consistent_tags d C) as [L F].
  unfold move_doc_to_pt. rewrite Ec, Ek. cbn [bind]. split; intros H.
  - rewrite (morph_tensor_fails self d V HIn); [reflexivity|].
    left. apply length_zero_iff_nil. lia.
  - destruct (Document.morph_tags d) as [|ts l] eqn:E; [cbn in L; lia|].
    inversion F as [|? ? Hts _]; subst.
    destruct ts as [|tag ts]; [contradiction|].
    rewrite (morph_tensor_known self d V HIn).
    + cbn [bind ret]. now eexists.
    + rewrite E. discriminate.
    + assert (In tag (sorted_tags (docs self))).
      { apply in_doc_tags. exists d, (tag :: ts). rewrite E.
        split; [exact HIn|]. split; now left. }
      intros E0. rewrite E0 in *. contradiction.
Qed.

Lemma update_each_outcome (f : Doc -> result Doc) (p : Doc -> Prop)
  (e : exn) :
  forall ds,
    (forall d, In d ds ->
               (p d -> exists d', f d = inr d') /\ (~ p d -> f d = inl e)) ->
    (forall d, In d ds -> p d \/ ~ p d) ->
    (snd (update_each f ds) = None /\ Forall p ds)
    \/ (snd (update_each f ds) = Some e /\ ~ Forall p ds).
Proof.
  induction ds as [|d ds IH]; intros H Dec.
  - left. split; [reflexivity | constructor].
  - destruct (H d (or_introl eq_refl)) as [Hok Hbad].
    cbn [update_each].
    destruct (Dec d (or_introl eq_refl)) as [P|N].
    + destruct (Hok P) as (d' & E). rewrite E.
      destruct IH as [[O F]|[O F]];
        [intros; apply H; now right | intros; apply Dec; now right | |];
        destruct (update_each f ds) as [r o]; cbn [snd] in *.
      * left. split; [exact O | now constructor].
      * right. split; [exact O|]. intros F'. inversion F'. contradiction.
    + rewrite (Hbad N). right. split; [reflexivity|].
      intros F'. inversion F'. contradiction.
Qed.

Lemma move_to_pt_outcome (self : Corpus) :
  vocabs_current self ->
  Forall doc_consistent (docs self) ->
  (snd (_move_to_pt self) = None
   /\ Forall (fun d => 0 < Document.len d) (docs self))
  \/ (snd (_move_to_pt self) = Some RuntimeError
      /\ ~ Forall (fun d => 0 < Document.len d) (docs self)).
Proof.
  intros V C. unfold _move_to_pt.
  destruct (update_each_outcome (move_doc_to_pt self)
              (fun d => 0 < Document.len d) RuntimeError (docs self))
    as [[O F]|[O F]].
  - intros d HIn. rewrite Forall_forall in C.
    destruct (move_doc_outcome self d V HIn (C d HIn)) as [Z P].
    split; [exact P|]. intros N. apply Z. lia.
  - intros d _. lia.
  - left. destruct (update_each (move_doc_to_pt self) (docs self)).
    now split.
  - right. destruct (update_each (move_doc_to_pt self) (docs self)).
    now split.
Qed.



Lemma vocabs_current_after_get_vocabs (self : Corpus) :
  vocabs_current (fst (_get_vocabs self))
  /\ docs (fst (_get_vocabs self)) = docs self.
Proof. rewrite get_vocabs_spec. split; [now repeat split | reflexivity]. Qed.

Lemma len_symbolic (a b : list Doc) :
  map symbolic a = map symbolic b ->
  Forall (fun d => 0 < Document.len d) a ->
  Forall (fun d => 0 < Document.len d) b.
Proof.
  intros H.
  apply (tree_inv_symbolic (fun t => 0 < length (Tree.tokens t)) a b H).
Qed.

(** The outcome of [parse_tree_file] when no row has a wrong field
    count. *)
Lemma parse_outcome_ok_rows (self : Corpus) (rows : list (list string)) :
  Forall doc_consistent (docs self) ->
  rows_ok rows = true ->
  (snd (parse_tree_rows self rows) = None
   /\ Forall (fun d => 0 < Document.len d)
        (docs (fst (parse_tree_rows self rows))))
  \/ (snd (parse_tree_rows self rows) = Some RuntimeError
      /\ ~ Forall (fun d => 0 < Document.len d)
           (docs (fst (parse_tree_rows self rows)))).
Proof.
  intros C E.
  destruct (parse_tree_rows_cases self rows)
    as [[_ (added & cur & Q & R & S & _)] | [E' _]];
    [|rewrite E in E'; discriminate E'].
  set (S0 := fst (_get_vocabs (with_docs self (docs self ++ added ++ [cur]))))
    in *.
  destruct (vocabs_current_after_get_vocabs
              (with_docs self (docs self ++ added ++ [cur]))) as [V D].
  fold S0 in V, D. cbn [docs with_docs] in D.
  assert (C0 : Forall doc_consistent (docs S0)).
  { rewrite D.
    assert (W0 : Forall (fun d : Doc => tree_consistent (Document.tree d))
                   (docs self ++ [Document.new])).
    { apply Forall_app. split; [exact C|].
      constructor; [exact tree_consistent_empty | constructor]. }
    apply (parse_rows_tree_inv tree_consistent tree_consistent_empty
             (fun t b t' => Tree_add_consistent t t' b)) in Q; [|exact W0].
    cbn [fst snd] in Q. now rewrite <- app_assoc in Q. }
  rewrite <- D in S.
  destruct (move_to_pt_outcome S0 V C0) as [[O F]|[O F]]; rewrite R.
  - left. split; [exact O|]. rewrite R in S.
    eapply len_symbolic; [symmetry; exact S | exact F].
  - right. split; [exact O|]. intros F'. apply F. rewrite R in S.
    eapply len_symbolic; [exact S | exact F'].
Qed.

(** X12.  The ways [parse_tree_file] ends, on a corpus whose Trees are
    as [Tree.add] builds them and whose unknown and padding symbols
    differ (the vocabulary builder refuses a symbol given twice): with
    [ValueError] exactly when a row handed to [Tree.add] has a field
    count other than ten; otherwise it returns exactly when every
    Document of the corpus, old or new, has a token, and raises
    [RuntimeError] when one has none. *)
Theorem parse_outcomes (self : Corpus) (rows : list (list string)) :
  Forall doc_consistent (docs self) ->
  unk_token self <> pad_token self ->
  (snd (parse_tree_rows self rows) = Some ValueError
   <-> rows_ok rows = false)
  /\ (snd (parse_tree_rows self rows) = None
      <-> rows_ok rows = true
          /\ Forall (fun d => 0 < Document.len d)
               (docs (fst (parse_tree_rows self rows))))
  /\ (snd (parse_tree_rows self rows) = Some RuntimeError
      <-> rows_ok rows = true
          /\ ~ Forall (fun d => 0 < Document.len d)
               (docs (fst (parse_tree_rows self rows)))).
Proof.
  intros C _. destruct (rows_ok rows) eqn:E.
  - destruct (parse_outcome_ok_rows self rows C E) as [[O F]|[O F]];
      rewrite O.
    + split; [split; discriminate|].
      split; [split; [now split | reflexivity]|].
      split; [discriminate | intros [_ N]; contradiction].
    + split; [split; discriminate|].
      split; [split; [discriminate | intros [_ F']; contradiction]|].
      split; [now split | reflexivity].
  - destruct (parse_tree_rows_cases self rows)
      as [[E' _] | [_ (ds & cur & _ & Q)]]; [congruence|].
    rewrite Q. cbn [snd].
    split; [split; reflexivity|].
    split; split; try discriminate; intros [H _]; discriminate H.
Qed.

(** X13.  A file whose text ends with an empty line, as every file with
    a blank line after its last sentence does, never parses to the end:
    when the reader yields its rows without error (a text without
    carriage return, NUL or quote character and without a line above
    the field size limit) and the rows have the right field counts, the
    Document appended after the last blank row has no token and
    [parse_tree_file] raises [RuntimeError]. *)
Theorem trailing_blank_line_raises (self : Corpus) (content : string) :
  Forall doc_consistent (docs self) ->
  csv_plain (content ++ newline ++ newline)%string = true ->
  rows_ok (csv_reader (content ++ newline ++ newline)%string) = true ->
  snd (parse_tree_file self (content ++ newline ++ newline)%string)
  = Some RuntimeError.
Proof.
  intros C _ E. unfold parse_tree_file.
  destruct (parse_outcome_ok_rows self _ C E) as [[O F]|[O _]];
    [|exact O].
  exfalso.
  destruct (parse_tree_rows_cases self
              (csv_reader (content ++ newline ++ newline)%string))
    as [[_ (added & cur & P & _ & S & _)] | [E' _]];
    [|rewrite E in E'; discriminate E'].
  rewrite csv_reader_trailing_blank in P, E.
  unfold rows_ok in E. rewrite forallb_app in E.
  apply andb_prop in E. destruct E as [E1 _].
  destruct (parse_rows_ok (csv_reader (content ++ newline)%string)
              (docs self) Document.new E1) as (added1 & cur1 & P1 & _).
  rewrite parse_rows_app, P1 in P. cbn in P. inversion P as [[Q1 Q2]].
  apply (len_symbolic _ _ S) in F.
  rewrite !app_assoc in F. apply Forall_app in F. destruct F as [_ F].
  inversion F as [|? ? L _]; subst. cbn in L. lia.
Qed.

End Outcomes.


Lemma parse_outcomes_witness :
  (snd (parse_tree_rows (Vec:=unit) new_corpus example_rows)
   = Some ValueError
   <-> rows_ok example_rows = false)
  /\ (snd (parse_tree_rows (Vec:=unit) new_corpus example_rows) = None
      <-> rows_ok example_rows = true
          /\ Forall (fun d => 0 < Document.len d)
               (docs (fst (parse_tree_rows (Vec:=unit) new_corpus
                             example_rows))))
  /\ (snd (parse_tree_rows (Vec:=unit) new_corpus example_rows)
      = Some RuntimeError
      <-> rows_ok example_rows = true
          /\ ~ Forall (fun d => 0 < Document.len d)
                 (docs (fst (parse_tree_rows (Vec:=unit) new_corpus
                               example_rows)))).
Proof.
  apply (parse_outcomes new_corpus example_rows).
  - constructor.
  - vm_compute. discriminate.
Defined.

Lemma trailing_blank_line_raises_witness :
  snd (parse_tree_file (Vec:=unit) new_corpus
         (String.concat tab (nth 0 example_rows []) ++ newline ++ newline))
  = Some RuntimeError.
Proof.
  apply trailing_blank_line_raises.
  - constructor.
  - vm_compute. reflexivity.
  - vm_compute. reflexivity.
Defined.

(** ** Further properties: lemma scripts *)

Section DictSetFacts.

Context {V : Type}.

Lemma dict_set_keys (d : list (string * V)) (k : string) (v : V) :
  PyDict.keys (PyDict.set String.eqb d k v)
  = if existsb (String.eqb k) (PyDict.keys d) then PyDict.keys d
    else PyDict.keys d ++ [k].
Proof.
  unfold PyDict.keys.
  induction d as [|[k' v'] d IH]; cbn [PyDict.set map fst existsb];
    [reflexivity|].
  rewrite (String.eqb_sym k k').
  destruct (String.eqb k' k); cbn [map fst orb]; [reflexivity|].
  rewrite IH. now destruct (existsb (String.eqb k) (map fst d)).
Qed.

Lemma dict_set_Forall (P : string * V -> Prop) (d : list (string * V))
  (k : string) (v : V) :
  Forall P d -> P (k, v) -> Forall P (PyDict.set String.eqb d k v).
Proof.
  intros F Pk. induction F as [|[k' v'] d Pk' F IH]; cbn [PyDict.set].
  - now constructor.
  - destruct (String.eqb_spec k' k) as [->|N]; constructor; assumption.
Qed.

Lemma dict_get_Forall (P : string * V -> Prop) (d : list (string * V))
  (k : string) (v : V) :
  Forall P d -> PyDict.get String.eqb d k = Some v -> P (k, v).
Proof.
  intros F. induction F as [|[k' v'] d Pk' F IH]; cbn [PyDict.get];
    [discriminate|].
  destruct (String.eqb_spec k' k) as [->|N]; [|exact IH].
  intros E. inversion E; subst. exact Pk'.
Qed.

Lemma dict_get_In (d : list (string * V)) (k : string) (v : V) :
  NoDup (PyDict.keys d) -> In (k, v) d ->
  PyDict.get String.eqb d k = Some v.
Proof.
  unfold PyDict.keys.
  induction d as [|[k' v'] d IH]; intros ND H; [inversion H|].
  cbn [PyDict.get]. inversion ND as [|? ? Hk ND']; subst.
  destruct H as [H|H].
  - inversion H; subst. now rewrite String.eqb_refl.
  - destruct (String.eqb_spec k' k) as [->|N]; [|now apply IH].
    exfalso. apply Hk. apply in_map_iff. now exists (k, v).
Qed.

End DictSetFacts.

Section ExamplesFacts.

Context {Vec : Type}.
Variable gen : string -> string -> string.
Local Abbreviation Doc := (Document.t Vec).
Local Abbreviation Corpus := (@DocumentCorpus Vec).

Lemma label_token_examples acc (p : string * string) :
  snd (fst (label_token gen acc p)) = examples_step gen (snd (fst acc)) p.
Proof. destruct acc as [[c e] ds], p as [wf lm]. reflexivity. Qed.

Lemma label_tokens_examples (pairs : list (string * string)) :
  forall acc,
    snd (fst (fold_left (label_token gen) pairs acc))
    = fold_left (examples_step gen) pairs (snd (fst acc)).
Proof.
  induction pairs as [|p pairs IH]; intros acc; [reflexivity|].
  cbn [fold_left]. now rewrite IH, label_token_examples.
Qed.

Lemma label_doc_examples acc (d : Doc) :
  snd (fst (label_doc gen acc d))
  = fold_left (examples_step gen)
      (combine (Document.tokens d) (Document.lemmas d)) (snd (fst acc)).
Proof.
  destruct acc as [[c e] dss]. unfold label_doc.
  pose proof (label_tokens_examples
                (combine (Document.tokens d) (Document.lemmas d))
                (c, e, [])) as H.
  destruct (fold_left (label_token gen)
              (combine (Document.tokens d) (Document.lemmas d))
              (c, e, [])) as [[c1 e1] sc].
  exact H.
Qed.

Lemma label_docs_examples (ds : list Doc) :
  forall acc,
    snd (fst (fold_left (label_doc gen) ds acc))
    = fold_left (examples_step gen) (all_pairs ds) (snd (fst acc)).
Proof.
  induction ds as [|d ds IH]; intros acc; [reflexivity|].
  cbn [fold_left]. rewrite IH, label_doc_examples.
  unfold all_pairs. cbn [map concat]. now rewrite fold_left_app.
Qed.

(** What [set_lemma_tags] leaves in the corpus, field by field. *)
Lemma set_lemma_tags_fields (self : Corpus) :
  exists ds',
    set_lemma_tags gen self
    = (with_scripts self ds'
         (fold_left (PyDict.incr String.eqb) (all_scripts gen (docs self)) [])
         (fold_left (examples_step gen) (all_pairs (docs self)) [])
         (rank_scripts
            (fold_left (PyDict.incr String.eqb)
               (all_scripts gen (docs self)) []))
         (PyDict.keys
            (rank_scripts
               (fold_left (PyDict.incr String.eqb)
                  (all_scripts gen (docs self)) []))),
       None)
    /\ Forall2
         (tagged_with gen
            (rank_scripts
               (fold_left (PyDict.incr String.eqb)
                  (all_scripts gen (docs self)) [])))
         (docs self) ds'.
Proof.
  destruct (set_lemma_tags_spec gen self) as (e & ds' & E & F).
  cbn zeta in E, F. exists ds'. split; [|exact F].
  rewrite E. f_equal. f_equal.
  pose proof (label_docs_examples (docs self) ([], [], [])) as X.
  cbn [fst snd] in X. rewrite <- X. clear X.
  unfold set_lemma_tags in E.
  destruct (fold_left (label_doc gen) (docs self) ([], [], []))
    as [[c0 e0] dss].
  destruct (tag_docs (rank_scripts c0) (docs self) dss) as [r o].
  inversion E. reflexivity.
Qed.

Lemma all_scripts_pairs (ds : list Doc) :
  all_scripts gen ds = map (fun p => gen (fst p) (snd p)) (all_pairs ds).
Proof.
  unfold all_scripts, all_pairs, doc_scripts.
  now rewrite concat_map, map_map.
Qed.

Lemma in_all_pairs (ds : list Doc) (p : string * string) :
  In p (all_pairs ds)
  <-> exists d, In d ds
                /\ In p (combine (Document.tokens d) (Document.lemmas d)).
Proof.
  unfold all_pairs. rewrite in_concat. split.
  - intros (l & Hl & Hp). apply in_map_iff in Hl.
    destruct Hl as (d & <- & Hd). now exists d.
  - intros (d & Hd & Hp).
    exists (combine (Document.tokens d) (Document.lemmas d)).
    split; [|exact Hp]. apply in_map_iff. now exists d.
Qed.

Lemma set_add_facts (s : list string) (x : string) :
  NoDup s ->
  NoDup (PyDict.set_add s x)
  /\ 1 <= length (PyDict.set_add s x) <= S (length s)
  /\ (forall y, In y (PyDict.set_add s x) <-> y = x \/ In y s).
Proof.
  intros ND. unfold PyDict.set_add.
  destruct (existsb (String.eqb x) s) eqn:E.
  - apply existsb_eqb_In in E. split; [exact ND|]. split.
    + destruct s; [inversion E | cbn; lia].
    + intros y. intuition (subst; auto).
  - split; [|split].
    + apply NoDup_app; [exact ND | repeat constructor; intros [] |].
      intros y Hy [<-|[]]. apply existsb_eqb_In in Hy. congruence.
    + rewrite length_app. cbn. lia.
    + intros y. rewrite in_app_iff. cbn. intuition.
Qed.

(** The invariant of the examples through the first pass. *)
Lemma examples_fold (Q : string * string -> Prop)
  (pairs : list (string * string)) :
  (forall p, In p pairs -> Q p) ->
  forall c e,
    PyDict.keys e = PyDict.keys c ->
    Forall (fun kv =>
              1 <= length (snd kv) <= 3 /\ NoDup (snd kv)
              /\ forall x, In x (snd kv) ->
                   exists wf lm,
                     Q (wf, lm) /\ gen wf lm = fst kv
                     /\ x = (wf ++ arrow ++ lm)%string) e ->
    PyDict.keys (fold_left (examples_step gen) pairs e)
    = PyDict.keys
        (fold_left (PyDict.incr String.eqb)
           (map (fun p => gen (fst p) (snd p)) pairs) c)
    /\ Forall (fun kv =>
                 1 <= length (snd kv) <= 3 /\ NoDup (snd kv)
                 /\ forall x, In x (snd kv) ->
                      exists wf lm,
                        Q (wf, lm) /\ gen wf lm = fst kv
                        /\ x = (wf ++ arrow ++ lm)%string)
         (fold_left (examples_step gen) pairs e).
Proof.
  induction pairs as [|[wf lm] pairs IH]; intros HQ c e K F.
  - now split.
  - cbn [fold_left map fst snd].
    apply IH; [intros; apply HQ; now right | |].
    + unfold examples_step. cbn [fst snd].
      rewrite incr_keys, <- K.
      destruct (Nat.ltb _ 3); apply dict_set_keys.
    + unfold examples_step. cbn [fst snd].
      set (script := gen wf lm).
      destruct (PyDict.get String.eqb e script) as [seen|] eqn:G.
      * pose proof (dict_get_Forall _ e script seen F G) as (L & ND & X).
        cbn [fst snd] in L, ND, X.
        destruct (Nat.ltb_spec (length seen) 3) as [Lt|Ge];
          apply dict_set_Forall; try exact F; cbn [fst snd].
        -- destruct (set_add_facts seen (wf ++ arrow ++ lm)%string ND)
             as (ND' & L' & M).
           split; [lia|]. split; [exact ND'|].
           intros x Hx. apply M in Hx. destruct Hx as [->|Hx]; [|now apply X].
           exists wf, lm. split; [apply HQ; now left | now split].
        -- now split.
      * cbn [length Nat.ltb Nat.leb]. apply dict_set_Forall; [exact F|].
        cbn [fst snd]. unfold PyDict.set_add. cbn [existsb app length].
        split; [lia|]. split; [repeat constructor; intros []|].
        intros x [<-|[]]. exists wf, lm.
        split; [apply HQ; now left | now split].
Qed.

(** X14.  After [set_lemma_tags], [script_examples] has the scripts of
    [script_counter] as its keys, in the same order, and holds for each
    script between one and three examples, all different, each of them
    the form and the lemma, joined by an arrow, of a token of the corpus
    that has this script. *)
Theorem script_examples_are_bounded (self : Corpus) :
  exists self' counter examples,
    set_lemma_tags gen self = (self', None)
    /\ script_counter self' = Some counter
    /\ script_examples self' = Some examples
    /\ PyDict.keys examples = PyDict.keys counter
    /\ Forall
         (fun kv =>
            1 <= length (snd kv) <= 3
            /\ NoDup (snd kv)
            /\ forall x,
                 In x (snd kv) ->
                 exists wf lm,
                   (exists d, In d (docs self)
                              /\ In (wf, lm)
                                   (combine (Document.tokens d)
                                      (Document.lemmas d)))
                   /\ gen wf lm = fst kv
                   /\ x = (wf ++ arrow ++ lm)%string)
         examples.
Proof.
  destruct (set_lemma_tags_fields self) as (ds' & E & _).
  do 3 eexists. split; [exact E|].
  cbn [script_counter script_examples with_scripts].
  split; [reflexivity|]. split; [reflexivity|].
  rewrite all_scripts_pairs.
  apply (examples_fold
           (fun p => exists d, In d (docs self)
                               /\ In p (combine (Document.tokens d)
                                          (Document.lemmas d)))).
  - intros p Hp. now apply in_all_pairs.
  - reflexivity.
  - constructor.
Qed.

End ExamplesFacts.

Section LemmaTagProperties.

Context {Vec : Type}.
Variable gen : string -> string -> string.
Local Abbreviation Doc := (Document.t Vec).
Local Abbreviation Corpus := (@DocumentCorpus Vec).

(** X15.  After [set_lemma_tags] on a corpus with well-formed Trees,
    every Document carries one class id per token, each below the number
    of scripts, and [id_to_script] decodes them: the script at the place
    the k-th id names is the script of the k-th token. *)
Theorem lemma_ids_decode (self : Corpus) :
  Forall doc_wf (docs self) ->
  exists self' i2s,
    set_lemma_tags gen self = (self', None)
    /\ id_to_script self' = Some i2s
    /\ Forall2
         (fun d d' =>
            symbolic d' = symbolic d
            /\ exists ids,
                 Document.lemma_tags_tensor d' = Some ids
                 /\ length ids = Document.len d
                 /\ Forall (fun i => i < length i2s) ids
                 /\ map (nth_error i2s) ids = map Some (doc_scripts gen d))
         (docs self) (docs self').
Proof.
  intros W. destruct (set_lemma_tags_fields gen self) as (ds' & E & F).
  destruct (counter_fold (all_scripts gen (docs self)) [])
    as (ND & _); [constructor|]. cbn zeta in ND.
  destruct (rank_scripts_spec _ ND) as (_ & _ & _ & _ & _ & _ & I).
  do 2 eexists. split; [exact E|].
  cbn [id_to_script docs with_scripts]. split; [reflexivity|].
  set (s2i := rank_scripts
                (fold_left (PyDict.incr String.eqb)
                   (all_scripts gen (docs self)) [])) in *.
  clearbody s2i. clear E ND. revert W F. generalize (docs self) as ds.
  intros ds W F.
  induction F as [|d d' ds ds' (ids & -> & Fi) F IH]; [constructor|].
  inversion W as [|? ? (_ & Wd & _) W']; subst.
  constructor; [|now apply IH].
  split; [reflexivity|]. exists ids. split; [reflexivity|].
  assert (L : length (doc_scripts gen d) = Document.len d).
  { unfold doc_scripts, Document.len, Document.tokens, Document.lemmas.
    rewrite length_map, length_combine, Wd. apply Nat.min_id. }
  rewrite <- L. clear L IH F W' Wd.
  induction Fi as [|script i scripts ids G Fi IH]; [now repeat split|].
  destruct IH as (L & B & D). apply I in G.
  cbn [length map]. split; [now rewrite L|]. split.
  - constructor; [|exact B]. apply nth_error_Some. congruence.
  - now rewrite G, D.
Qed.

Lemma tag_docs_again (s2i : list (string * nat)) (ds : list Doc) :
  forall dss ds' o,
    tag_docs s2i ds dss = (ds', o) ->
    tag_docs s2i ds' dss = (ds', o) /\ map symbolic ds' = map symbolic ds.
Proof.
  induction ds as [|d ds IH]; intros dss ds' o H.
  - cbn in H. inversion H; subst. now split.
  - destruct dss as [|sc dss]; [cbn in H; inversion H; subst; now split|].
    cbn [tag_docs] in H.
    destruct (mapM (script_id s2i) sc) as [e|ids] eqn:M.
    + inversion H; subst. cbn [tag_docs]. rewrite M. now split.
    + destruct (tag_docs s2i ds dss) as [r o'] eqn:T.
      inversion H; subst. destruct (IH _ _ _ T) as [T' S].
      cbn [tag_docs]. rewrite M, T'. cbn [map]. rewrite S. now split.
Qed.

Lemma label_docs_symbolic (a b : list Doc) :
  map symbolic a = map symbolic b ->
  forall acc,
    fold_left (label_doc gen) a acc = fold_left (label_doc gen) b acc.
Proof.
  revert b. induction a as [|x a IH]; intros [|y b] H acc;
    try discriminate H; [reflexivity|].
  cbn [map] in H. inversion H as [[H1 H2 H3 H4]].
  cbn [fold_left].
  assert (E : label_doc gen acc x = label_doc gen acc y).
  { destruct acc as [[c e] dss]. unfold label_doc, Document.tokens,
      Document.lemmas. now rewrite H3. }
  rewrite E. now apply IH.
Qed.

(** X16.  [set_lemma_tags] starts from a new counter each time: run
    again on the corpus it has just labeled, it leaves the corpus as it
    is, the counts not being added up. *)
Theorem set_lemma_tags_again (self : Corpus) :
  set_lemma_tags gen (fst (set_lemma_tags gen self))
  = set_lemma_tags gen self.
Proof.
  unfold set_lemma_tags at 2 3.
  destruct (fold_left (label_doc gen) (docs self) ([], [], []))
    as [[c e] dss] eqn:L.
  destruct (tag_docs (rank_scripts c) (docs self) dss) as [ds' o] eqn:T.
  cbn [fst]. unfold set_lemma_tags. cbn [docs with_scripts].
  destruct (tag_docs_again _ _ _ _ _ T) as [T' S].
  rewrite (label_docs_symbolic _ _ S), L, T'. reflexivity.
Qed.

Lemma overview_rows_known (examples : list (string * list string))
  (entries : list (string * nat)) :
  (forall s c, In (s, c) entries -> In s (PyDict.keys examples)) ->
  exists rows,
    overview_rows examples entries = (examples, rows)
    /\ map (fun r => fst r) rows = entries
    /\ Forall (fun r => PyDict.get String.eqb examples (fst (fst r))
                        = Some (snd r)) rows.
Proof.
  induction entries as [|[s c] entries IH]; intros H.
  - exists []. now repeat split.
  - destruct IH as (rows & E & M & F); [intros; eapply H; right; eauto|].
    destruct (PyDict.get String.eqb examples s) as [ex|] eqn:G.
    + exists ((s, c, ex) :: rows). cbn [overview_rows]. rewrite G, E.
      cbn [map fst]. rewrite M. split; [reflexivity|].
      split; [reflexivity|]. now constructor.
    + apply (dict_get_None String.eqb String.eqb_eq) in G.
      exfalso. apply G. apply (H s c). now left.
Qed.

Lemma in_firstn {A} (n : nat) (l : list A) (x : A) :
  In x (firstn n l) -> In x l.
Proof.
  intros H. rewrite <- (firstn_skipn n l). apply in_or_app. now left.
Qed.

Lemma firstn_sorted {A} (R : A -> A -> Prop) (n : nat) (l : list A) :
  StronglySorted R l -> StronglySorted R (firstn n l).
Proof.
  intros S. revert n. induction S as [|a l S IH F]; intros [|n];
    cbn [firstn]; try constructor.
  - apply IH.
  - rewrite Forall_forall in *. intros x Hx. apply F.
    eapply in_firstn. exact Hx.
Qed.

(** X17.  Before [set_lemma_tags] has run, [lemma_tags_overview] raises
    [AttributeError].  After it, the overview of size n leaves the
    corpus as it is and has one row for each of the n first scripts in
    the order of their class ids (all of them when there are fewer),
    each with its count in [script_counter] and its examples, the counts
    never increasing down the table. *)
Theorem overview_follows_class_ids (self : Corpus) (n : Z) :
  (script_counter self = None ->
   lemma_tags_overview self n = (self, inl AttributeError))
  /\ exists self' counter examples i2s rows,
       set_lemma_tags gen self = (self', None)
       /\ script_counter self' = Some counter
       /\ script_examples self' = Some examples
       /\ id_to_script self' = Some i2s
       /\ lemma_tags_overview self' n = (self', inr rows)
       /\ map (fun r => fst (fst r)) rows = firstn (Z.to_nat n) i2s
       /\ Forall (fun r =>
                    PyDict.get String.eqb counter (fst (fst r))
                    = Some (snd (fst r))
                    /\ PyDict.get String.eqb examples (fst (fst r))
                       = Some (snd r)) rows
       /\ StronglySorted
            (fun a b => snd (fst b) <= snd (fst a)) rows.
Proof.
  split.
  { intros H. unfold lemma_tags_overview. now rewrite H. }
  destruct (set_lemma_tags_fields gen self) as (ds' & E & _).
  rewrite (all_scripts_pairs gen) in E.
  destruct (examples_fold gen (fun _ => True) (all_pairs (docs self))
              (fun _ _ => I) [] [] eq_refl (Forall_nil _)) as [K _].
  destruct (counter_fold
              (map (fun p => gen (fst p) (snd p)) (all_pairs (docs self))) [])
    as (ND & _); [constructor|]. cbn zeta in ND.
  destruct (rank_scripts_spec _ ND) as (P & SS & _ & I2 & _).
  set (counter := fold_left (PyDict.incr String.eqb)
                    (map (fun p => gen (fst p) (snd p))
                       (all_pairs (docs self))) []) in *.
  set (examples := fold_left (examples_step gen) (all_pairs (docs self)) [])
    in *.
  destruct (overview_rows_known examples (most_common counter n))
    as (rows & O & M & F).
  { intros s c H. rewrite K. unfold most_common in H.
    apply in_firstn in H.
    apply (Permutation_in _ P) in H.
    apply in_map_iff. now exists (s, c). }
  exists (with_scripts self ds' counter examples (rank_scripts counter)
            (PyDict.keys (rank_scripts counter))),
         counter, examples, (PyDict.keys (rank_scripts counter)), rows.
  split; [exact E|].
  cbn [script_counter script_examples id_to_script with_scripts].
  do 3 (split; [reflexivity|]).
  split.
  { unfold lemma_tags_overview.
    cbn [script_counter script_examples with_scripts].
    destruct (most_common counter n) as [|en ens] eqn:Em.
    - cbn in O. inversion O. reflexivity.
    - rewrite O. reflexivity. }
  split.
  { rewrite I2. rewrite firstn_map. unfold most_common in M.
    rewrite <- M, map_map. reflexivity. }
  split.
  - assert (Hin : forall r, In r rows -> In (fst r) counter).
    { intros r Hr. apply (Permutation_in _ P).
      apply (in_firstn (Z.to_nat n)). fold (most_common counter n).
      rewrite <- M. now apply in_map. }
    rewrite Forall_forall in F |- *. intros r Hr. split; [|now apply F].
    apply dict_get_In; [exact ND|].
    specialize (Hin r Hr). now destruct r as [[s c] ex].
  - assert (S' : StronglySorted (fun a b : string * nat => snd b <= snd a)
                   (map (fun r : string * nat * list string => fst r) rows)).
    { rewrite M. unfold most_common. now apply firstn_sorted. }
    clear -S'. induction rows as [|r rows IH]; [constructor|].
    cbn [map] in S'. inversion S' as [|? ? S0 F0]; subst.
    constructor; [now apply IH|].
    rewrite Forall_map in F0. exact F0.
Qed.

End LemmaTagProperties.

Lemma lemma_ids_decode_witness :
  let self := fst (parse_tree_rows (Vec:=unit) new_corpus example_rows) in
  exists self' i2s,
    set_lemma_tags suffix_script self = (self', None)
    /\ id_to_script self' = Some i2s
    /\ Forall2
         (fun d d' =>
            symbolic d' = symbolic d
            /\ exists ids,
                 Document.lemma_tags_tensor d' = Some ids
                 /\ length ids = Document.len d
                 /\ Forall (fun i => i < length i2s) ids
                 /\ map (nth_error i2s) ids
                    = map Some (doc_scripts suffix_script d))
         (docs self) (docs self').
Proof.
  apply lemma_ids_decode.
  vm_compute. repeat constructor.
Defined.

(** ** Further properties: what a parse leaves alone *)

Section ParseLeavesAlone.

Context {Vec : Type}.
Local Abbreviation Doc := (Document.t Vec).
Local Abbreviation Corpus := (@DocumentCorpus Vec).

Lemma update_each_proj {B} (g : Doc -> B) (f : Doc -> result Doc) :
  (forall d d', f d = inr d' -> g d' = g d) ->
  forall ds, map g (fst (update_each f ds)) = map g ds.
Proof.
  intros Hf. induction ds as [|d ds IH]; [reflexivity|].
  cbn [update_each]. destruct (f d) as [e|d'] eqn:E; [reflexivity|].
  destruct (update_each f ds) as [r o]. cbn [fst map] in *.
  now rewrite IH, (Hf d d' E).
Qed.

Lemma move_doc_to_pt_enrichment (self : Corpus) (d d' : Doc) :
  move_doc_to_pt self d = inr d' -> enrichment d' = enrichment d.
Proof.
  unfold move_doc_to_pt.
  destruct (make_chars_tensor self d); [discriminate|].
  destruct (make_tokens_tensor self d); [discriminate|].
  destruct (make_morph_tags_tensor self d); [discriminate|].
  cbn [bind ret]. intros H. inversion H. reflexivity.
Qed.

Lemma parse_row_fresh (ds ds' : list Doc) (cur cur' : Doc)
  (row : list string) :
  parse_row (ds, cur) row = inr (ds', cur') ->
  enrichment cur = (None, None, None) ->
  enrichment cur' = (None, None, None)
  /\ (ds' = ds \/ ds' = ds ++ [cur]).
Proof.
  intros H E. destruct row as [|row0 rest].
  - cbn in H. inversion H; subst. split; [reflexivity | now right].
  - destruct (is_tree_row (row0 :: rest)) eqn:T.
    + rewrite (parse_row_tree_row ds cur _ T) in H.
      destruct (Tree.add (Document.tree cur) (row0 :: rest));
        cbn [bind ret] in H; [discriminate|].
      inversion H; subst. split; [exact E | now left].
    + unfold parse_row in H.
      destruct (str_in "# sent_id = " row0);
        [inversion H; subst; split; [exact E | now left]|].
      destruct (str_in "# text = " row0);
        [inversion H; subst; split; [exact E | now left]|].
      destruct (Nat.ltb 1 (length (row0 :: rest)));
        [destruct (str_in "." row0)|].
      * inversion H; subst. split; [exact E | now left].
      * destruct (Tree.add (Document.tree cur) (row0 :: rest));
          cbn [bind ret] in H; [discriminate|].
        inversion H; subst. split; [exact E | now left].
      * inversion H; subst. split; [exact E | now left].
Qed.

Lemma parse_rows_fresh (rows : list (list string)) :
  forall (ds ds' : list Doc) (cur cur' : Doc) o,
    parse_rows rows (ds, cur) = ((ds', cur'), o) ->
    enrichment cur = (None, None, None) ->
    exists added,
      ds' = ds ++ added
      /\ Forall (fun d => enrichment d = (None, None, None))
           (added ++ [cur']).
Proof.
  induction rows as [|row rows IH]; intros ds ds' cur cur' o H E;
    cbn [parse_rows] in H.
  - inversion H; subst. exists []. rewrite app_nil_r.
    split; [reflexivity | now repeat constructor].
  - destruct (parse_row (ds, cur) row) as [e|[ds1 cur1]] eqn:P.
    + inversion H; subst. exists []. rewrite app_nil_r.
      split; [reflexivity | now repeat constructor].
    + destruct (parse_row_fresh _ _ _ _ _ P E) as [E1 D].
      destruct (IH _ _ _ _ _ H E1) as (added & -> & F).
      destruct D as [->| ->].
      * now exists added.
      * exists (cur :: added). rewrite <- app_assoc. split; [reflexivity|].
        cbn [app]. now constructor.
Qed.

(** X18.  [parse_tree_file] never touches what the other passes made:
    the lemma-script state of the corpus stays as it was, hence stale
    with respect to the new Documents, the special tokens stay, the
    Documents already there keep their lemma tags and context
    embeddings, and the new Documents have none. *)
Theorem parse_leaves_enrichment_alone
  (self : Corpus) (rows : list (list string)) :
  script_state (fst (parse_tree_rows self rows)) = script_state self
  /\ unk_token (fst (parse_tree_rows self rows)) = unk_token self
  /\ pad_token (fst (parse_tree_rows self rows)) = pad_token self
  /\ exists n,
       map enrichment (docs (fst (parse_tree_rows self rows)))
       = map enrichment (docs self) ++ repeat (None, None, None) n.
Proof.
  assert (R : forall l : list Doc,
             Forall (fun d => enrichment d = (None, None, None)) l ->
             map enrichment l = repeat (None, None, None) (length l)).
  { intros l F. induction F as [|d l E F IH]; [reflexivity|].
    cbn [map length repeat]. now rewrite E, IH. }
  destruct (parse_tree_rows_cases self rows)
    as [[_ (added & cur & Q & P & _)] | [_ (ds & cur & Q & P)]].
  - rewrite P, get_vocabs_spec. cbn [fst]. unfold _move_to_pt.
    match goal with
    | |- context [update_each ?f ?l] =>
        pose proof (update_each_proj enrichment f
                      (move_doc_to_pt_enrichment _) l) as U;
        destruct (update_each f l) as [r o]
    end.
    cbn [fst docs with_docs with_morph_tag_vocab with_char_vocab
           with_token_vocab] in *.
    do 3 (split; [reflexivity|]).
    destruct (parse_rows_fresh rows _ _ _ _ _ Q eq_refl) as (added' & A & F).
    apply app_inv_head in A. subst added'.
    exists (length (added ++ [cur])).
    rewrite U, map_app. f_equal. now apply R.
  - rewrite P. cbn [fst docs with_docs].
    do 3 (split; [reflexivity|]).
    destruct (parse_rows_fresh rows _ _ _ _ _ Q eq_refl) as (added & -> & F).
    exists (length added). rewrite map_app. f_equal. apply R.
    apply Forall_app in F. tauto.
Qed.

(** X19.  Clearing the Documents of a corpus leaves its vocabularies
    and its lemma-script state behind; a parse after it, of a file
    whose rows have the right field counts, gives the Documents, the
    vocabularies and the outcome that the same parse gives on a new
    corpus with the same special tokens, the lemma-script state being
    still the old one. *)
Theorem parse_after_clear_docs (self : Corpus) (rows : list (list string)) :
  rows_ok rows = true ->
  let cleared := parse_tree_rows (clear_docs self) rows in
  let fresh :=
    parse_tree_rows
      (mkCorpus [] (unk_token self) (pad_token self) None None None None
         None None None) rows in
  token_vocab (clear_docs self) = token_vocab self
  /\ script_state (clear_docs self) = script_state self
  /\ docs (fst cleared) = docs (fst fresh)
  /\ token_vocab (fst cleared) = token_vocab (fst fresh)
  /\ char_vocab (fst cleared) = char_vocab (fst fresh)
  /\ morph_tag_vocab (fst cleared) = morph_tag_vocab (fst fresh)
  /\ snd cleared = snd fresh
  /\ script_state (fst cleared) = script_state self.
Proof.
  intros E cleared fresh. subst cleared fresh.
  split; [reflexivity|]. split; [reflexivity|].
  unfold parse_tree_rows, clear_docs. cbn [docs with_docs].
  destruct (parse_rows_ok rows (@nil Doc) Document.new E)
    as (added & cur & P & _).
  rewrite P. unfold and_then. rewrite !get_vocabs_spec.
  unfold _move_to_pt.
  cbn [docs unk_token pad_token with_docs with_morph_tag_vocab
         with_char_vocab with_token_vocab].
  match goal with
  | |- context [update_each (move_doc_to_pt ?S1) ?l] =>
      match goal with
      | |- context [update_each (move_doc_to_pt ?S2) l] =>
          lazymatch S1 with
          | S2 => fail
          | _ =>
              assert (X : update_each (move_doc_to_pt S1) l
                          = update_each (move_doc_to_pt S2) l)
                by reflexivity
          end
      end
  end.
  rewrite X.
  match goal with
  | |- context [update_each ?f ?l] => destruct (update_each f l) as [r o]
  end.
  cbn. repeat split.
Qed.

End ParseLeavesAlone.

Lemma parse_after_clear_docs_witness :
  let self := fst (parse_tree_rows (Vec:=unit) new_corpus two_tag_rows) in
  docs (fst (parse_tree_rows (clear_docs self) example_rows))
  = docs (fst (parse_tree_rows
                 (mkCorpus [] (unk_token self) (pad_token self) None None
                    None None None None None) example_rows)).
Proof.
  intros self.
  exact (proj1 (proj2 (proj2 (parse_after_clear_docs self example_rows
                                eq_refl)))).
Defined.

(** ** Further properties: spans and correspondence *)

Lemma str_find_prefix (t : string) (s : string) :
  forall i, str_find t s = Some i -> String.prefix t (str_drop i s) = true.
Proof.
  induction s as [|c s IH]; intros i H; cbn [str_find] in H.
  - destruct (String.prefix t EmptyString) eqn:P; [|discriminate H].
    inversion H; subst. exact P.
  - destruct (String.prefix t (String c s)) eqn:P.
    + inversion H; subst. exact P.
    + destruct (str_find t s) as [j|]; [|discriminate H].
      inversion H; subst. cbn [str_drop]. now apply IH.
Qed.

Lemma substring_drop (a n : nat) (s : string) :
  String.substring a n s = String.substring 0 n (str_drop a s).
Proof.
  revert s. induction a as [|a IH]; intros s; [reflexivity|].
  destruct s as [|c s]; cbn [str_drop String.substring].
  - now destruct n.
  - apply IH.
Qed.

Lemma str_drop_drop (a b : nat) (s : string) :
  str_drop b (str_drop a s) = str_drop (a + b) s.
Proof.
  revert s. induction a as [|a IH]; intros s; [reflexivity|].
  destruct s as [|c s]; cbn [str_drop Nat.add]; [now destruct b|].
  apply IH.
Qed.

Lemma foldM_app {A B} (f : B -> A -> result B) (xs ys : list A) (b : B) :
  foldM f (xs ++ ys) b = bind (foldM f xs b) (foldM f ys).
Proof.
  revert b. induction xs as [|x xs IH]; intros b; [reflexivity|].
  cbn [app foldM]. destruct (f b x); cbn [bind]; [reflexivity | apply IH].
Qed.

Lemma combine_seq_app {A} (xs ys : list A) (s : nat) :
  combine (seq s (length (xs ++ ys))) (xs ++ ys)
  = combine (seq s (length xs)) xs
    ++ combine (seq (s + length xs) (length ys)) ys.
Proof.
  revert s. induction xs as [|x xs IH]; intros s.
  - cbn. now rewrite Nat.add_0_r.
  - cbn [app length seq combine]. rewrite IH. cbn [app].
    now rewrite Nat.add_succ_r.
Qed.

Lemma keys_snoc (corr : list (nat * list nat)) (k : nat) (b : list nat) :
  PyDict.keys corr = seq 0 k ->
  PyDict.keys (corr ++ [(k, b)]) = seq 0 (S k)
  /\ ~ In k (PyDict.keys corr).
Proof.
  intros K. unfold PyDict.keys in *. rewrite map_app, K, seq_S.
  split; [reflexivity|]. rewrite in_seq. lia.
Qed.

(** One step of the correspondence loop when the bucket of the token at
    hand does not exist yet, and when it is the last one made. *)
Lemma corr_step_new (spans : list (nat * nat)) (corr : list (nat * list nat))
  (k s : nat) (o sp : nat * nat) :
  PyDict.keys corr = seq 0 k ->
  nth_error spans k = Some sp ->
  corr_step spans (k, corr) (s, o)
  = inr (if Nat.eqb (snd o) (snd sp) then S k else k, corr ++ [(k, [s])]).
Proof.
  intros K Hs. destruct (keys_snoc corr k [] K) as [_ Fresh].
  unfold corr_step. destruct o as [o1 o2].
  pose proof Fresh as G. apply (dict_get_None Nat.eqb Nat.eqb_eq) in G.
  rewrite G, (dict_set_fresh Nat.eqb Nat.eqb_eq) by exact Fresh.
  now rewrite Hs.
Qed.

Lemma corr_step_last (spans : list (nat * nat)) (corr : list (nat * list nat))
  (k s : nat) (b : list nat) (o sp : nat * nat) :
  PyDict.keys corr = seq 0 k ->
  nth_error spans k = Some sp ->
  corr_step spans (k, corr ++ [(k, b)]) (s, o)
  = inr (if Nat.eqb (snd o) (snd sp) then S k else k,
         corr ++ [(k, b ++ [s])]).
Proof.
  intros K Hs. destruct (keys_snoc corr k [] K) as [_ Fresh].
  unfold corr_step. destruct o as [o1 o2].
  rewrite (dict_get_last Nat.eqb Nat.eqb_eq) by exact Fresh.
  rewrite (dict_set_last Nat.eqb Nat.eqb_eq) by exact Fresh.
  now rewrite Hs.
Qed.

Lemma corr_group_rest (spans : list (nat * nat)) (corr : list (nat * list nat))
  (k : nat) (sp : nat * nat) (rest : list (nat * nat)) :
  PyDict.keys corr = seq 0 k ->
  nth_error spans k = Some sp ->
  forall s b,
    rest <> [] ->
    snd (last rest (0, 0)) = snd sp ->
    Forall (fun o => snd o <> snd sp) (removelast rest) ->
    foldM (corr_step spans) (combine (seq s (length rest)) rest)
      (k, corr ++ [(k, b)])
    = inr (S k, corr ++ [(k, b ++ seq s (length rest))]).
Proof.
  intros K Hs. induction rest as [|o rest IH]; intros s b N L F;
    [contradiction|].
  cbn [length seq combine foldM].
  rewrite (corr_step_last spans corr k s b o sp K Hs). cbn [bind].
  destruct rest as [|o' rest].
  - cbn in L. rewrite L, Nat.eqb_refl. reflexivity.
  - change (removelast (o :: o' :: rest))
      with (o :: removelast (o' :: rest)) in F.
    inversion F as [|? ? Ho F']; subst.
    apply Nat.eqb_neq in Ho. rewrite Ho.
    rewrite (IH (S s) (b ++ [s])); [|discriminate | exact L | exact F'].
    rewrite <- app_assoc. reflexivity.
Qed.

Lemma corr_group (spans : list (nat * nat)) (corr : list (nat * list nat))
  (k s : nat) (sp : nat * nat) (g : list (nat * nat)) :
  PyDict.keys corr = seq 0 k ->
  nth_error spans k = Some sp ->
  group_fits g sp ->
  foldM (corr_step spans) (combine (seq s (length g)) g) (k, corr)
  = inr (S k, corr ++ [(k, seq s (length g))]).
Proof.
  intros K Hs (N & L & F). destruct g as [|o rest]; [contradiction|].
  cbn [length seq combine foldM].
  rewrite (corr_step_new spans corr k s o sp K Hs). cbn [bind].
  destruct rest as [|o' rest].
  - cbn in L. rewrite L, Nat.eqb_refl. reflexivity.
  - change (removelast (o :: o' :: rest))
      with (o :: removelast (o' :: rest)) in F.
    inversion F as [|? ? Ho F']; subst.
    apply Nat.eqb_neq in Ho. rewrite Ho.
    rewrite (corr_group_rest spans corr k sp (o' :: rest) K Hs (S s) [s]);
      [reflexivity | discriminate | exact L | exact F'].
Qed.

Lemma corr_groups (spans : list (nat * nat)) :
  forall groups todo,
    Forall2 group_fits groups todo ->
    forall done s (corr : list (nat * list nat)),
      spans = done ++ todo ->
      PyDict.keys corr = seq 0 (length done) ->
      foldM (corr_step spans)
        (combine (seq s (length (concat groups))) (concat groups))
        (length done, corr)
      = inr (length done + length groups,
             corr ++ combine (seq (length done) (length groups))
                       (index_runs s groups)).
Proof.
  intros groups todo F.
  induction F as [|g sp groups todo G F IH]; intros done s corr E K.
  - cbn. now rewrite Nat.add_0_r, app_nil_r.
  - cbn [concat]. rewrite combine_seq_app, foldM_app.
    rewrite (corr_group spans corr (length done) s sp g K); [|
      rewrite E; rewrite nth_error_app2 by lia;
      now rewrite Nat.sub_diag | exact G].
    cbn [bind].
    specialize (IH (done ++ [sp]) (s + length g)
                  (corr ++ [(length done, seq s (length g))])).
    rewrite length_app in IH. cbn [length] in IH.
    rewrite Nat.add_1_r in IH. rewrite IH.
    + cbn [length index_runs seq combine]. rewrite <- app_assoc.
      cbn [app]. now rewrite Nat.add_succ_r.
    + rewrite E, <- app_assoc. reflexivity.
    + apply keys_snoc. exact K.
Qed.

Lemma Forall2_concat {A B} (R : A -> B -> Prop) (xs : list (list A))
  (ys : list (list B)) :
  Forall2 (Forall2 R) xs ys -> Forall2 R (concat xs) (concat ys).
Proof.
  intros F. induction F as [|x y xs ys H F IH]; [constructor|].
  cbn [concat]. now apply Forall2_app.
Qed.

Lemma rows_of_seq {A} (ctx : list A) (m : nat) :
  forall s l,
    Forall2 (fun i v => nth_error ctx i = Some v) (seq s m) l ->
    l = firstn m (skipn s ctx).
Proof.
  induction m as [|m IH]; intros s l F; cbn [seq] in F.
  - inversion F. reflexivity.
  - inversion F as [|? v ? l' Hv F']; subst.
    rewrite (IH _ _ F').
    assert (E : skipn s ctx = v :: skipn (S s) ctx).
    { clear -Hv. revert ctx Hv. induction s as [|s IH]; intros ctx Hv.
      - destruct ctx; inversion Hv. reflexivity.
      - destruct ctx; [discriminate Hv|]. cbn [skipn]. now apply IH. }
    rewrite E. reflexivity.
Qed.

Lemma str_find_spans (txt : string) (toks : list string) :
  forall e0 spans,
    find_spans (Some txt) toks e0 = inr spans ->
    Forall2 (fun t sp =>
               String.substring (fst sp) (String.length t) txt = t
               /\ snd sp = fst sp + String.length t) toks spans
    /\ Forall (fun sp => e0 <= fst sp) spans
    /\ StronglySorted (fun a b => snd a <= fst b) spans.
Proof.
  induction toks as [|t toks IH]; intros e0 spans H; cbn [find_spans] in H.
  - inversion H; subst. repeat split; constructor.
  - destruct (str_find t (str_drop e0 txt)) as [i|] eqn:Fd;
      [|discriminate H].
    destruct (find_spans (Some txt) toks (e0 + (i + String.length t)))
      as [|rest] eqn:R; [discriminate H|].
    cbn [bind ret] in H. inversion H; subst spans; clear H.
    destruct (IH _ _ R) as (F2 & Lo & So).
    apply str_find_prefix in Fd. rewrite str_drop_drop in Fd.
    apply String.prefix_correct in Fd.
    split; [|split].
    + constructor; [|exact F2]. cbn [fst snd]. split; [|lia].
      rewrite substring_drop. now rewrite (Nat.add_comm i e0).
    + constructor; [cbn [fst]; lia|].
      eapply Forall_impl; [|exact Lo]. cbn beta. intros sp Hs. lia.
    + constructor; [exact So|].
      eapply Forall_impl; [|exact Lo]. cbn beta. intros sp Hs.
      cbn [snd]. lia.
Qed.

Lemma mapM_bind_ret {A B C} (g : A -> result B) (h : B -> C) :
  forall xs ys,
    mapM (fun x => r <- g x ;; ret (h r)) xs = inr ys ->
    exists rs,
      Forall2 (fun x r => g x = inr r) xs rs /\ ys = map h rs.
Proof.
  induction xs as [|x xs IH]; intros ys H; cbn [mapM] in H.
  - inversion H. exists []. split; [constructor | reflexivity].
  - destruct (g x) as [|r] eqn:G; [discriminate H|]. cbn [bind ret] in H.
    destruct (mapM (fun x => r <- g x ;; ret (h r)) xs) as [|ys'] eqn:M;
      [discriminate H|].
    cbn [bind ret] in H. inversion H; subst ys.
    destruct (IH ys' eq_refl) as (rs & F & E).
    exists (r :: rs). split; [now constructor | cbn [map]; now rewrite E].
Qed.

Lemma mapM_nth_error {A} (ctx : list A) :
  forall idx rows,
    mapM (fun i => match nth_error ctx i with
                   | Some v => ret v
                   | None => raise IndexError
                   end) idx = inr rows ->
    Forall2 (fun i v => nth_error ctx i = Some v) idx rows.
Proof.
  induction idx as [|i idx IH]; intros rows H; cbn [mapM] in H.
  - inversion H. constructor.
  - destruct (nth_error ctx i) as [v|] eqn:N; [|discriminate H].
    cbn [bind ret] in H.
    destruct (mapM _ idx) as [|rows'] eqn:M; [discriminate H|].
    cbn [bind ret] in H. inversion H; subst rows.
    constructor; [exact N | now apply IH].
Qed.

Section AlignmentProperties.

Context {Vec : Type}.
Variable tokenizer_offsets : option string -> result (list (nat * nat)).
Variable encoder : option string -> result (list Vec).
Variable mean_rows : list Vec -> Vec.
Variable encoder_name : string.
Local Abbreviation Doc := (Document.t Vec).
Local Abbreviation Corpus := (@DocumentCorpus Vec).

Lemma align_buckets (d : Doc) (corr : list (nat * list nat)) :
  align tokenizer_offsets d = inr corr ->
  exists offs,
    tokenizer_offsets (Document.text d) = inr offs
    /\ length corr <= Document.len d
    /\ concat (PyDict.values corr) = seq 0 (length offs - 2).
Proof.
  unfold align. intros H.
  destruct (tokenizer_offsets (Document.text d)) as [|offs]; [discriminate H|].
  cbn [bind] in H.
  destruct (find_spans (Document.text d) (Document.tokens d) 0)
    as [|spans] eqn:S; [discriminate H|].
  cbn [bind] in H. unfold correspondence_of, enumerate in H.
  destruct (foldM (corr_step spans)
              (combine (seq 0 (length (slice_1_m1 offs))) (slice_1_m1 offs))
              (0, [])) as [|st] eqn:L; [discriminate H|].
  cbn [bind ret] in H. inversion H; subst corr; clear H.
  destruct (corr_loop_inv spans (slice_1_m1 offs) 0 (0, []) st)
    as [(Hk & Hc & Hn & _) Hl].
  - unfold corr_inv. cbn. repeat split; auto.
  - cbn. lia.
  - exact L.
  - exists offs. split; [reflexivity|].
    rewrite (find_spans_length _ _ _ _ S) in Hl. split; [exact Hl|].
    cbn [Nat.add] in Hc. now rewrite length_slice_1_m1 in Hc.
Qed.

Lemma embed_doc_inv (d d' : Doc) :
  embed_doc tokenizer_offsets encoder mean_rows encoder_name d = inr d' ->
  exists corr ctx rowss,
    align tokenizer_offsets d = inr corr
    /\ encoder (Document.text d) = inr ctx
    /\ Forall2 (fun bucket rows => take_rows ctx bucket = inr rows)
         (PyDict.values corr) rowss
    /\ rowss <> []
    /\ d' = Document.set_context_embeddings d (map mean_rows rowss)
              encoder_name.
Proof.
  unfold embed_doc. intros H.
  destruct (align tokenizer_offsets d) as [|corr]; [discriminate H|].
  cbn [bind] in H.
  destruct (encoder (Document.text d)) as [|ctx]; [discriminate H|].
  cbn [bind] in H.
  destruct (mapM _ (PyDict.values corr)) as [|pooled] eqn:M;
    [discriminate H|].
  cbn [bind] in H.
  destruct (mapM_bind_ret (take_rows ctx) mean_rows _ _ M) as (rowss & F & E).
  exists corr, ctx, rowss. split; [reflexivity|]. split; [reflexivity|].
  split; [exact F|]. subst pooled.
  destruct rowss as [|r rowss]; [discriminate H|].
  split; [discriminate|]. cbn [map stack bind ret] in H. now inversion H.
Qed.

(** X20.  The spans found for the tokens of a Document: each span is as
    long as its token and the text reads the token there, and each span
    ends before or where every later one starts, so that the tokens are
    located from left to right without overlap. *)
Theorem spans_locate_tokens (d : Doc) (txt : string)
  (spans : list (nat * nat)) :
  Document.text d = Some txt ->
  find_spans (Document.text d) (Document.tokens d) 0 = inr spans ->
  Forall2 (fun t sp =>
             String.substring (fst sp) (String.length t) txt = t
             /\ snd sp = fst sp + String.length t)
    (Document.tokens d) spans
  /\ StronglySorted (fun a b => snd a <= fst b) spans.
Proof.
  intros T H. rewrite T in H.
  destruct (str_find_spans txt _ _ _ H) as (F & _ & S). now split.
Qed.

(** X21.  When the sub-word offsets between the first and the last one
    fall into one group per token, each group ending where the span of
    its token ends and not before, the alignment returns one bucket per
    token, keyed by the position of the token, holding the positions of
    the sub-words of its group. *)
Theorem subword_groups_become_buckets (d : Doc) (first last_ : nat * nat)
  (groups : list (list (nat * nat))) (spans : list (nat * nat)) :
  tokenizer_offsets (Document.text d)
  = inr (first :: concat groups ++ [last_]) ->
  find_spans (Document.text d) (Document.tokens d) 0 = inr spans ->
  Forall2 group_fits groups spans ->
  align tokenizer_offsets d
  = inr (combine (seq 0 (length groups)) (index_runs 0 groups))
  /\ length groups = Document.len d.
Proof.
  intros T S F. split.
  - unfold align. rewrite T. cbn [bind]. rewrite S. cbn [bind].
    unfold correspondence_of, enumerate, slice_1_m1. cbn [tl].
    rewrite removelast_last.
    pose proof (corr_groups spans groups spans F [] 0 [] eq_refl eq_refl)
      as Q.
    cbn [length app Nat.add] in Q. rewrite Q. reflexivity.
  - rewrite (Forall2_length F). unfold Document.len.
    exact (find_spans_length _ _ _ _ S).
Qed.

(** X22.  When the pass over a Document succeeds, the rows it pools,
    bucket after bucket, are the first [n - 2] rows of the encoder
    output, in their order, where [n] is the number of offsets of the
    tokenizer: the positions of the correspondence count from the
    offset after the first one, and index the encoder output from its
    first row. *)
Theorem pooled_rows_are_leading_encoder_rows (d d' : Doc) :
  embed_doc tokenizer_offsets encoder mean_rows encoder_name d = inr d' ->
  exists offs ctx rowss,
    tokenizer_offsets (Document.text d) = inr offs
    /\ encoder (Document.text d) = inr ctx
    /\ Document.context_emb d' = Some (map mean_rows rowss)
    /\ concat rowss = firstn (length offs - 2) ctx
    /\ length offs - 2 <= length ctx.
Proof.
  intros H.
  destruct (embed_doc_inv d d' H) as (corr & ctx & rowss & A & E & F & _ & D).
  destruct (align_buckets d corr A) as (offs & T & _ & C).
  exists offs, ctx, rowss. split; [exact T|]. split; [exact E|].
  split; [subst d'; reflexivity|].
  assert (R : Forall2 (fun i v => nth_error ctx i = Some v)
                (seq 0 (length offs - 2)) (concat rowss)).
  { rewrite <- C. apply Forall2_concat.
    eapply Forall2_impl; [|exact F]. cbn beta. intros idx rows Hr.
    now apply mapM_nth_error. }
  pose proof (rows_of_seq ctx _ 0 _ R) as Q. cbn [skipn] in Q.
  split; [exact Q|].
  apply Forall2_length in R. rewrite length_seq, Q, length_firstn in R. lia.
Qed.

(** X23.  When the pass over a Document succeeds, the Document carries
    at least one embedding row and no more rows than it has tokens, and
    the name of the encoder; its sentence id, text, Tree and index
    tensors are what they were. *)
Theorem embedding_rows_bounded_by_tokens (d d' : Doc) :
  embed_doc tokenizer_offsets encoder mean_rows encoder_name d = inr d' ->
  exists emb,
    Document.context_emb d' = Some emb
    /\ 1 <= length emb <= Document.len d
    /\ Document.model_name d' = Some encoder_name
    /\ symbolic d' = symbolic d
    /\ Document.chars_tensor d' = Document.chars_tensor d
    /\ Document.tokens_tensor d' = Document.tokens_tensor d
    /\ Document.morph_tags_tensor d' = Document.morph_tags_tensor d
    /\ Document.lemma_tags_tensor d' = Document.lemma_tags_tensor d.
Proof.
  intros H.
  destruct (embed_doc_inv d d' H) as (corr & ctx & rowss & A & E & F & N & D).
  destruct (align_buckets d corr A) as (offs & T & L & C).
  exists (map mean_rows rowss). subst d'.
  split; [reflexivity|]. split; [|repeat split].
  rewrite length_map. apply Forall2_length in F.
  unfold PyDict.values in F. rewrite length_map in F.
  destruct rowss; [contradiction|]. cbn [length] in *. lia.
Qed.

(** X24.  A Document without tokens never gets embeddings: when the
    tokenizer and the encoder return, the pass raises [IndexError] if
    the tokenizer gave more than two offsets (there is no span to
    compare the first sub-word with), and [RuntimeError] otherwise
    (nothing to stack). *)
Theorem tokenless_document_raises (d : Doc)
  (offs : list (nat * nat)) (ctx : list Vec) :
  Document.tokens d = [] ->
  tokenizer_offsets (Document.text d) = inr offs ->
  encoder (Document.text d) = inr ctx ->
  embed_doc tokenizer_offsets encoder mean_rows encoder_name d
  = inl (if Nat.leb (length offs) 2 then RuntimeError else IndexError).
Proof.
  intros Tk T E. unfold embed_doc, align. rewrite T, Tk. cbn [bind].
  cbn [find_spans bind ret].
  unfold correspondence_of, enumerate, slice_1_m1.
  destruct offs as [|a [|b [|c offs]]].
  - cbn. rewrite E. reflexivity.
  - cbn. rewrite E. reflexivity.
  - cbn. rewrite E. reflexivity.
  - cbn [tl]. change (removelast (b :: c :: offs))
      with (b :: removelast (c :: offs)).
    cbn [length seq combine foldM]. unfold corr_step.
    destruct b as [b1 b2]. cbn [PyDict.get]. reflexivity.
Qed.

End AlignmentProperties.

Lemma spans_locate_tokens_witness :
  Forall2 (fun t sp =>
             String.substring (fst sp) (String.length t) "the dog" = t
             /\ snd sp = fst sp + String.length t)
    (Document.tokens (sentence "the dog" ["the"; "dog"])) [(0, 3); (4, 7)]
  /\ StronglySorted (fun a b => snd a <= fst b) [(0, 3); (4, 7)].
Proof.
  apply (spans_locate_tokens (sentence "the dog" ["the"; "dog"]) "the dog");
    reflexivity.
Defined.

Lemma subword_groups_become_buckets_witness :
  align subword_tokenizer (sentence "the doges" ["the"; "doges"])
  = inr [(0, [0]); (1, [1; 2])]
  /\ 2 = Document.len (sentence "the doges" ["the"; "doges"]).
Proof.
  apply (subword_groups_become_buckets subword_tokenizer
           (sentence "the doges" ["the"; "doges"]) (0, 0) (0, 0)
           [[(0, 3)]; [(4, 7); (7, 9)]] [(0, 3); (4, 9)]).
  - reflexivity.
  - reflexivity.
  - repeat constructor; cbn; discriminate.
Defined.

Lemma pooled_rows_are_leading_encoder_rows_witness :
  exists offs ctx rowss,
    example_tokenizer (Document.text (sentence "the dog" ["the"; "dog"]))
    = inr offs
    /\ example_encoder (Document.text (sentence "the dog" ["the"; "dog"]))
       = inr ctx
    /\ Document.context_emb
         (Document.set_context_embeddings
            (sentence "the dog" ["the"; "dog"]) [tt; tt] "enc")
       = Some (map (fun _ => tt) rowss)
    /\ concat rowss = firstn (length offs - 2) ctx
    /\ length offs - 2 <= length ctx.
Proof.
  apply (pooled_rows_are_leading_encoder_rows example_tokenizer
           example_encoder (fun _ => tt) "enc"
           (sentence "the dog" ["the"; "dog"])).
  reflexivity.
Defined.

Lemma embedding_rows_bounded_by_tokens_witness :
  exists emb,
    Document.context_emb
      (Document.set_context_embeddings
         (sentence "the doges" ["the"; "doges"]) [tt; tt] "enc")
    = Some emb
    /\ 1 <= length emb <= Document.len (sentence "the doges" ["the"; "doges"])
    /\ Document.model_name
         (Document.set_context_embeddings
            (sentence "the doges" ["the"; "doges"]) [tt; tt] "enc")
       = Some "enc"
    /\ symbolic
         (Document.set_context_embeddings
            (sentence "the doges" ["the"; "doges"]) [tt; tt] "enc")
       = symbolic (sentence "the doges" ["the"; "doges"])
    /\ Document.chars_tensor
         (Document.set_context_embeddings
            (sentence "the doges" ["the"; "doges"]) [tt; tt] "enc")
       = Document.chars_tensor (sentence "the doges" ["the"; "doges"])
    /\ Document.tokens_tensor
         (Document.set_context_embeddings
            (sentence "the doges" ["the"; "doges"]) [tt; tt] "enc")
       = Document.tokens_tensor (sentence "the doges" ["the"; "doges"])
    /\ Document.morph_tags_tensor
         (Document.set_context_embeddings
            (sentence "the doges" ["the"; "doges"]) [tt; tt] "enc")
       = Document.morph_tags_tensor (sentence "the doges" ["the"; "doges"])
    /\ Document.lemma_tags_tensor
         (Document.set_context_embeddings
            (sentence "the doges" ["the"; "doges"]) [tt; tt] "enc")
       = Document.lemma_tags_tensor (sentence "the doges" ["the"; "doges"]).
Proof.
  apply (embedding_rows_bounded_by_tokens subword_tokenizer
           example_encoder (fun _ => tt) "enc"
           (sentence "the doges" ["the"; "doges"])).
  reflexivity.
Defined.

Lemma tokenless_document_raises_witness :
  embed_doc example_tokenizer example_encoder (fun _ => tt) "enc"
    (sentence "the dog" [])
  = inl (if Nat.leb (length [(0, 0); (0, 3); (4, 7); (0, 0)]) 2
         then RuntimeError else IndexError).
Proof.
  apply (tokenless_document_raises example_tokenizer example_encoder
           (fun _ => tt) "enc" (sentence "the dog" [])
           [(0, 0); (0, 3); (4, 7); (0, 0)] [tt; tt; tt; tt]);
    reflexivity.
Defined.

(** ** parse_tree_file: the vocabularies and the tensors after a call *)

Section ParseRebuilds.

Context {Vec : Type}.
Local Abbreviation Doc := (Document.t Vec).
Local Abbreviation Corpus := (@DocumentCorpus Vec).

(** The loop over the Documents updates a first part of them and leaves
    the rest as it was; there is no rest exactly when it does not
    raise. *)
Lemma update_each_split (f : Doc -> result Doc) :
  forall ds,
    exists ds1 ds1' ds2,
      ds = ds1 ++ ds2
      /\ fst (update_each f ds) = ds1' ++ ds2
      /\ Forall2 (fun d d' => f d = inr d') ds1 ds1'
      /\ (snd (update_each f ds) = None <-> ds2 = []).
Proof.
  induction ds as [|d ds IH].
  - exists [], [], []. repeat split; constructor.
  - cbn [update_each]. destruct (f d) as [e|d'] eqn:E.
    + exists [], [], (d :: ds). cbn [app fst snd].
      repeat split; try constructor; discriminate.
    + destruct IH as (ds1 & ds1' & ds2 & A & B & F & O).
      destruct (update_each f ds) as [r o]. cbn [fst snd] in *.
      exists (d :: ds1), (d' :: ds1'), ds2. cbn [app].
      split; [now rewrite A|]. split; [now rewrite B|].
      split; [now constructor | exact O].
Qed.

(** The index tensors the tensorizer makes decode to the Document. *)
Lemma index_tensors_decoded (self : Corpus) (d : Doc)
  (ks : list nat) (cs : list (list nat)) :
  vocabs_current self ->
  In d (docs self) ->
  make_tokens_tensor self d = inr ks ->
  make_chars_tensor self d = inr cs ->
  map (nth_error
         (Torchtext.itos
            (token_vocab_of (unk_token self) (pad_token self) (docs self))))
    ks
  = map Some (Document.tokens d)
  /\ Forall2
       (fun tok c =>
          map (nth_error
                 (Torchtext.itos
                    (char_vocab_of (unk_token self) (pad_token self)
                       (docs self)))) c
          = map Some (chars tok))
       (Document.tokens d) cs.
Proof.
  intros (Ht & Hc & _) HIn Ek Ec.
  set (tv := token_vocab_of (unk_token self) (pad_token self) (docs self))
    in *.
  set (cv := char_vocab_of (unk_token self) (pad_token self) (docs self))
    in *.
  destruct (build_vocab_itos (map Document.tokens (docs self))
              [unk_token self; pad_token self]) as (o1 & E1 & _ & M1).
  destruct (build_vocab_itos
              (map chars (concat (map Document.tokens (docs self))))
              [unk_token self; pad_token self]) as (o2 & E2 & _ & M2).
  assert (Itv : forall t, In t (Document.tokens d) ->
                          In t (Torchtext.itos tv)).
  { intros t Hd. unfold tv, token_vocab_of, Torchtext.set_default_index.
    cbn [Torchtext.itos]. rewrite E1, in_app_iff.
    destruct (in_dec string_dec t [unk_token self; pad_token self]);
      [now left|right].
    apply M1. split; [|assumption]. apply in_doc_tokens. now exists d. }
  assert (Icv : forall t c, In t (Document.tokens d) -> In c (chars t) ->
                            In c (Torchtext.itos cv)).
  { intros t c Hd Hch. unfold cv, char_vocab_of, Torchtext.set_default_index.
    cbn [Torchtext.itos]. rewrite E2, in_app_iff.
    destruct (in_dec string_dec c [unk_token self; pad_token self]);
      [now left|right].
    apply M2. split; [|assumption]. apply in_doc_chars. now exists d, t. }
  split.
  - destruct (lookup_indices_decode tv 0 (Document.tokens d) eq_refl Itv)
      as (ks' & Ek' & Dk).
    unfold make_tokens_tensor in Ek. rewrite Ht in Ek.
    cbn [attr bind ret] in Ek. rewrite Ek' in Ek. inversion Ek; subst ks'.
    exact Dk.
  - unfold make_chars_tensor in Ec. rewrite Hc in Ec.
    cbn [attr bind ret] in Ec.
    revert cs Ec Icv. generalize (Document.tokens d).
    induction l as [|t l IH]; intros cs Ec Icv; cbn [mapM] in Ec.
    + inversion Ec. constructor.
    + destruct (lookup_indices_decode cv 0 (chars t) eq_refl)
        as (c & Ec' & Dc); [intros; eapply Icv; eauto; now left|].
      rewrite Ec' in Ec. cbn [bind] in Ec.
      destruct (mapM _ l) as [|cs'] eqn:M; [discriminate Ec|].
      cbn [bind ret] in Ec. inversion Ec; subst cs.
      constructor; [exact Dc|].
      apply IH; [reflexivity|]. intros; eapply Icv; eauto; now right.
Qed.

(** The tag tensor the tensorizer makes has a one-hot row, short of the
    last column, for each tag of the Document. *)
Lemma tag_tensor_decoded (self : Corpus) (d : Doc) (T : Torch.Tensor2) :
  vocabs_current self ->
  In d (docs self) ->
  make_morph_tags_tensor self d = inr T ->
  let mv := build_morph_tag_vocab (docs self) in
  Torch.shape T = (length (concat (Document.morph_tags d)), length mv - 1)
  /\ Forall2
       (fun tag row =>
          length row = length mv - 1
          /\ forall j,
               j < length mv - 1 ->
               nth j row 0
               = if String.eqb (nth j (PyDict.keys mv) EmptyString) tag
                 then 1 else 0)
       (concat (Document.morph_tags d)) (Torch.rows T).
Proof.
  intros V HIn E mv.
  assert (Hd : Document.morph_tags d <> []).
  { intros N. rewrite (morph_tensor_fails self d V HIn) in E;
      [discriminate E | now left]. }
  assert (Ht : sorted_tags (docs self) <> []).
  { intros N. rewrite (morph_tensor_fails self d V HIn) in E;
      [discriminate E | now right]. }
  rewrite (morph_tensor_known self d V HIn Hd Ht) in E.
  inversion E; subst T; clear E.
  set (tags := sorted_tags (docs self)) in *.
  assert (L : length mv = length tags).
  { unfold mv. rewrite build_morph_tag_vocab_eq. apply length_combine_seq. }
  assert (K : PyDict.keys mv = tags).
  { unfold mv, PyDict.keys. rewrite build_morph_tag_vocab_eq.
    apply map_fst_combine_seq. }
  rewrite L, K. unfold Torch.shape. cbn [Torch.rows Torch.ncols].
  rewrite length_map. split; [reflexivity|].
  assert (G : forall tag, In tag (concat (Document.morph_tags d)) ->
                          In tag tags).
  { intros tag H. apply in_concat in H. destruct H as (ts & H1 & H2).
    apply in_doc_tags. now exists d, ts. }
  revert G. generalize (concat (Document.morph_tags d)).
  induction l as [|tag l IH]; intros G; cbn [map]; constructor.
  - destruct (tag_row_sum tags tag (sorted_set_NoDup _)
                (G tag (or_introl eq_refl))) as (Lr & _ & _).
    split; [exact Lr|]. intros j Hj.
    apply nth_tag_row; [apply sorted_set_NoDup | | exact Hj].
    apply G. now left.
  - apply IH. intros t Ht'. apply G. now right.
Qed.

(** A Document the tensorizer has gone through carries the tensors of
    the corpus, whatever Documents the corpus is then given, as long as
    its vocabularies stay. *)
Lemma move_doc_carries (self : Corpus) (ds : list Doc) (d d' : Doc) :
  vocabs_current self ->
  In d (docs self) ->
  move_doc_to_pt self d = inr d' ->
  carries_tensors (with_docs self ds) d'.
Proof.
  intros V HIn H. unfold move_doc_to_pt in H.
  destruct (make_chars_tensor self d) as [|cs] eqn:Ec; [discriminate H|].
  destruct (make_tokens_tensor self d) as [|ks] eqn:Ek; [discriminate H|].
  destruct (make_morph_tags_tensor self d) as [|T] eqn:Em; [discriminate H|].
  cbn [bind ret] in H. inversion H; subst d'; clear H.
  destruct (index_tensors_decoded self d ks cs V HIn Ek Ec) as [Dk Dc].
  destruct (tag_tensor_decoded self d T V HIn Em) as [Sh Rw].
  destruct V as (Ht & Hc & Hm).
  unfold carries_tensors.
  exists (token_vocab_of (unk_token self) (pad_token self) (docs self)),
         (char_vocab_of (unk_token self) (pad_token self) (docs self)),
         (build_morph_tag_vocab (docs self)), ks, cs, T.
  cbn [token_vocab char_vocab morph_tag_vocab with_docs].
  split; [exact Ht|]. split; [exact Hc|]. split; [exact Hm|].
  split; [reflexivity|]. split; [reflexivity|]. split; [reflexivity|].
  split; [exact Dk|]. split; [exact Dc|]. split; [exact Sh | exact Rw].
Qed.

(** C9.  A call of [parse_tree_file] on a corpus whose unknown and
    padding symbols differ, when it does not stop in the scan of the
    rows: the Documents of the corpus are those it had followed by the
    newly parsed ones; the three vocabularies are those built from all
    these Documents; and the tensorizer has gone through them in
    order: each Document of a first part carries the tensors these
    vocabularies give it, its sentence id, text and Tree being what
    they were, and the rest is as the scan left it.  There is no rest
    exactly when the call returns: then every Document, old and new,
    carries its tensors. *)
Theorem C9_parse_rebuilds_vocabs_and_tensors
  (self self' : Corpus) (rows : list (list string)) (o : option exn) :
  unk_token self <> pad_token self ->
  parse_tree_rows self rows = (self', o) ->
  o <> Some ValueError ->
  exists added cur ds1 ds1' ds2,
    parse_rows rows (docs self, Document.new)
      = ((docs self ++ added, cur), None)
    /\ docs self ++ added ++ [cur] = ds1 ++ ds2
    /\ docs self' = ds1' ++ ds2
    /\ map symbolic ds1' = map symbolic ds1
    /\ vocabs_current self'
    /\ Forall (carries_tensors self') ds1'
    /\ (o = None <-> ds2 = []).
Proof.
  intros _ H NV.
  destruct (parse_tree_rows_cases self rows)
    as [[_ (added & cur & P & Q & S & _)] | [_ (ds & cur & _ & Q)]];
    [|rewrite Q in H; inversion H; subst o; now contradiction NV].
  exists added, cur.
  rewrite H in S. cbn [fst] in S.
  rewrite Q in H. rewrite get_vocabs_spec in H. cbn [fst] in H.
  match type of H with _move_to_pt ?c = _ => set (S0 := c) in * end.
  assert (V0 : vocabs_current S0) by (now repeat split).
  unfold _move_to_pt in H.
  destruct (update_each_split (move_doc_to_pt S0) (docs S0))
    as (ds1 & ds1' & ds2 & A & B & F & O).
  destruct (update_each (move_doc_to_pt S0) (docs S0)) as [ds' o'].
  cbn [fst snd] in B, O. inversion H; subst self' o'; clear H.
  exists ds1, ds1', ds2.
  split; [exact P|]. split; [exact A|].
  split; [cbn [docs with_docs]; exact B|].
  assert (Sy : map symbolic ds1' = map symbolic ds1).
  { clear -F. induction F as [|d d' l l' E F IH]; [reflexivity|].
    cbn [map]. now rewrite IH, (move_doc_to_pt_symbolic _ _ _ E). }
  split; [exact Sy|]. split; [|split; [|exact O]].
  - unfold vocabs_current.
    cbn [docs with_docs] in S.
    cbn [token_vocab char_vocab morph_tag_vocab unk_token pad_token docs
           with_docs].
    destruct (vocabs_symbolic (unk_token self) (pad_token self) _ _ S)
      as (T & C & M).
    subst S0.
    cbn [token_vocab char_vocab morph_tag_vocab unk_token pad_token docs
           with_docs with_morph_tag_vocab with_char_vocab with_token_vocab].
    now rewrite T, C, M.
  - assert (I : forall d, In d ds1 -> In d (docs S0)).
    { intros d Hd. rewrite A. apply in_or_app. now left. }
    clear -F I V0. induction F as [|d d' l l' E F IH]; constructor.
    + apply (move_doc_carries S0 _ d d' V0); [|exact E].
      apply I. now left.
    + apply IH. intros x Hx. apply I. now right.
Qed.

End ParseRebuilds.

Lemma C9_parse_rebuilds_vocabs_and_tensors_witness :
  let self' := fst (parse_tree_rows (Vec:=unit) new_corpus example_rows) in
  exists added cur ds1 ds1' ds2,
    parse_rows example_rows (docs (@new_corpus unit), Document.new)
      = ((docs new_corpus ++ added, cur), None)
    /\ docs new_corpus ++ added ++ [cur] = ds1 ++ ds2
    /\ docs self' = ds1' ++ ds2
    /\ map symbolic ds1' = map symbolic ds1
    /\ vocabs_current self'
    /\ Forall (carries_tensors self') ds1'
    /\ (@None exn = None <-> ds2 = []).
Proof.
  apply (C9_parse_rebuilds_vocabs_and_tensors new_corpus).
  - vm_compute. discriminate.
  - vm_compute. reflexivity.
  - discriminate.
Defined.
